(** * Page replacement policies of the buffer pool: CLOCK and ARC

    A shallow embedding of [ClockReplacer] (src/buffer/clock_replacer.cpp,
    in its two revisions) and of [ArcReplacer] (src/buffer/arc_replacer.cpp),
    with the properties of the replacement engine stated over it.

    Conventions.
    - [size_t] values are integers in [0, 2^64); every [++], [--], [+=] and
      [-=] on such a value is followed by [wrap_size].
    - [frame_id_t] and [page_id_t] are 32-bit signed integers, kept as [Z].
    - An operation of the C++ standard library outside its precondition
      ([operator[]] out of range, [back]/[pop_back] on an empty list, [%] or
      [/] by zero) is the outcome [UB]. *)

From stdpp Require Import base list gmap strings.
From Stdlib Require Import ZArith Lia.

Open Scope Z_scope.

(** ** Machine integers *)

Definition SIZE_MODULUS : Z := 2 ^ 64.

(** Arithmetic on [size_t] is modulo [2^64]. *)
Definition wrap_size (z : Z) : Z := z mod SIZE_MODULUS.

(** [static_cast<frame_id_t>] of a [size_t]: two's complement on 32 bits. *)
Definition to_frame_id (z : Z) : Z := (z + 2 ^ 31) mod 2 ^ 32 - 2 ^ 31.

(** [std::list::size()] as a [size_t]. *)
Definition lsize {A} (l : list A) : Z := Z.of_nat (length l).

(** ** The CLOCK replacer *)

Module Clock.

(** The members of [class ClockReplacer] (clock_replacer.h).  [pinned_ !! i]
    is true when frame [i] is tracked by the replacer, that is, a candidate
    for replacement. *)
Record ClockReplacer : Type := mkClock {
  num_pages_ : Z;
  clock_hand_ : Z;
  reference_bits_ : list bool;
  pinned_ : list bool;
  current_size_ : Z
}.

(** What a member function does: it returns [a] in state [s], or runs into
    undefined behaviour, or (for the model of an unbounded loop) needs more
    than the given number of iterations. *)
Inductive outcome (A : Type) : Type :=
| Return (a : A) (s : ClockReplacer)
| UB
| OutOfFuel.
Arguments Return {A} a s.
Arguments UB {A}.
Arguments OutOfFuel {A}.

(** [v[i]] of a [std::vector<bool>]; [None] when [i] is out of range. *)
Definition vec_get (v : list bool) (i : Z) : option bool :=
  if decide (0 <= i) then v !! Z.to_nat i else None.

(** [v[i] = b], used only after [vec_get v i] succeeded. *)
Definition vec_set (v : list bool) (i : Z) (b : bool) : list bool :=
  <[Z.to_nat i := b]> v.

(** [ClockReplacer::ClockReplacer(size_t num_pages)]. *)
Definition new (num_pages : Z) : ClockReplacer :=
  {| num_pages_ := num_pages;
     clock_hand_ := 0;
     reference_bits_ := replicate (Z.to_nat num_pages) false;
     pinned_ := replicate (Z.to_nat num_pages) false;
     current_size_ := 0 |}.

(** [(clock_hand_ + 1) % num_pages_]. *)
Definition next_hand (s : ClockReplacer) : Z :=
  wrap_size (clock_hand_ s + 1) mod num_pages_ s.

(** One iteration of the scanning loop of [Victim]; the body is the same in
    both revisions of the file. *)
Inductive step : Type :=
| Skip (s : ClockReplacer)
| Found (frame_id : Z) (s : ClockReplacer)
| StepUB.

Definition scan_step (s : ClockReplacer) : step :=
  if decide (num_pages_ s = 0) then StepUB else
  match vec_get (pinned_ s) (clock_hand_ s) with
  | None => StepUB
  | Some false =>
      (* not a candidate: skip it *)
      Skip {| num_pages_ := num_pages_ s;
              clock_hand_ := next_hand s;
              reference_bits_ := reference_bits_ s;
              pinned_ := pinned_ s;
              current_size_ := current_size_ s |}
  | Some true =>
      match vec_get (reference_bits_ s) (clock_hand_ s) with
      | None => StepUB
      | Some true =>
          (* second chance *)
          Skip {| num_pages_ := num_pages_ s;
                  clock_hand_ := next_hand s;
                  reference_bits_ := vec_set (reference_bits_ s) (clock_hand_ s) false;
                  pinned_ := pinned_ s;
                  current_size_ := current_size_ s |}
      | Some false =>
          (* found victim *)
          Found (to_frame_id (clock_hand_ s))
                {| num_pages_ := num_pages_ s;
                   clock_hand_ := next_hand s;
                   reference_bits_ := vec_set (reference_bits_ s) (clock_hand_ s) false;
                   pinned_ := vec_set (pinned_ s) (clock_hand_ s) false;
                   current_size_ := wrap_size (current_size_ s - 1) |}
      end
  end.

(** The revision with [while (true)] (src/unnamed/part_001). *)
Module Loop.

Fixpoint victim_loop (fuel : nat) (s : ClockReplacer) : outcome (option Z) :=
  match fuel with
  | O => OutOfFuel
  | S fuel' =>
      match scan_step s with
      | Skip s' => victim_loop fuel' s'
      | Found f s' => Return (Some f) s'
      | StepUB => UB
      end
  end.

(** [ClockReplacer::Victim]; [Some f] stands for [*frame_id = f; return true]
    and [None] for [return false]. *)
Definition Victim (fuel : nat) (s : ClockReplacer) : outcome (option Z) :=
  if decide (current_size_ s = 0) then Return None s
  else victim_loop fuel s.

End Loop.

(** The revision with [while (scanned < num_pages_)]
    (src/buffer/clock_replacer.cpp). *)
Module Scanned.

Fixpoint victim_scan (fuel : nat) (scanned : Z) (s : ClockReplacer)
  : outcome (option Z) :=
  if decide (scanned < num_pages_ s) then
    match fuel with
    | O => OutOfFuel
    | S fuel' =>
        match scan_step s with
        | Skip s' => victim_scan fuel' (wrap_size (scanned + 1)) s'
        | Found f s' => Return (Some f) s'
        | StepUB => UB
        end
    end
  else Return None s.

(** [ClockReplacer::Victim]; the loop runs at most [num_pages_] times. *)
Definition Victim (s : ClockReplacer) : outcome (option Z) :=
  if decide (current_size_ s = 0) then Return None s
  else victim_scan (Z.to_nat (num_pages_ s)) 0 s.

End Scanned.

(** [ClockReplacer::Pin]. *)
Definition Pin (frame_id : Z) (s : ClockReplacer) : outcome unit :=
  if decide (frame_id < 0 \/ num_pages_ s <= frame_id) then Return tt s
  else
    match vec_get (pinned_ s) frame_id with
    | None => UB
    | Some true =>
        Return tt
          {| num_pages_ := num_pages_ s;
             clock_hand_ := clock_hand_ s;
             reference_bits_ := vec_set (reference_bits_ s) frame_id false;
             pinned_ := vec_set (pinned_ s) frame_id false;
             current_size_ :=
               if decide (0 < current_size_ s)
               then wrap_size (current_size_ s - 1)
               else current_size_ s |}
    | Some false => Return tt s
    end.

(** [ClockReplacer::Unpin]. *)
Definition Unpin (frame_id : Z) (s : ClockReplacer) : outcome unit :=
  if decide (frame_id < 0 \/ num_pages_ s <= frame_id) then Return tt s
  else
    match vec_get (pinned_ s) frame_id with
    | None => UB
    | Some false =>
        Return tt
          {| num_pages_ := num_pages_ s;
             clock_hand_ := clock_hand_ s;
             reference_bits_ := vec_set (reference_bits_ s) frame_id true;
             pinned_ := vec_set (pinned_ s) frame_id true;
             current_size_ := wrap_size (current_size_ s + 1) |}
    | Some true => Return tt s
    end.

(** [ClockReplacer::Size]. *)
Definition Size (s : ClockReplacer) : outcome Z :=
  Return (current_size_ s) s.

(** Number of [true] entries of a bit vector. *)
Fixpoint popcount (v : list bool) : Z :=
  match v with
  | [] => 0
  | b :: v' => (if b then 1 else 0) + popcount v'
  end.

(** Frame [i] is a candidate of the replacer. *)
Definition tracked (s : ClockReplacer) (i : Z) : Prop :=
  vec_get (pinned_ s) i = Some true.

(** Frame [i] is a candidate whose reference bit is clear: the hand selects
    it when it reaches it. *)
Definition ready (s : ClockReplacer) (i : Z) : Prop :=
  vec_get (pinned_ s) i = Some true /\ vec_get (reference_bits_ s) i = Some false.

#[global] Instance tracked_dec s i : Decision (tracked s i).
Proof. unfold tracked. apply _. Defined.

#[global] Instance ready_dec s i : Decision (ready s i).
Proof. unfold ready. apply _. Defined.

(** The representation invariant of the replacer.  A replacer built for no
    page at all keeps its hand at 0. *)
Record inv (s : ClockReplacer) : Prop := mkInv {
  inv_pages : 0 <= num_pages_ s < SIZE_MODULUS;
  inv_pinned : lsize (pinned_ s) = num_pages_ s;
  inv_refs : lsize (reference_bits_ s) = num_pages_ s;
  inv_hand : 0 <= clock_hand_ s /\
             (clock_hand_ s < num_pages_ s \/ (num_pages_ s = 0 /\ clock_hand_ s = 0));
  inv_size : current_size_ s = popcount (pinned_ s)
}.

(** The states a replacer for [N] pages goes through. *)
Inductive reachable (N : Z) : ClockReplacer -> Prop :=
| reach_new : reachable N (new N)
| reach_Pin s f s' :
    reachable N s -> Pin f s = Return tt s' -> reachable N s'
| reach_Unpin s f s' :
    reachable N s -> Unpin f s = Return tt s' -> reachable N s'
| reach_Victim_loop s fuel r s' :
    reachable N s -> Loop.Victim fuel s = Return r s' -> reachable N s'
| reach_Victim_scanned s r s' :
    reachable N s -> Scanned.Victim s = Return r s' -> reachable N s'
| reach_Size s n s' :
    reachable N s -> Size s = Return n s' -> reachable N s'.

End Clock.

(** ** The ARC replacer *)

Module Arc.

(** Modelled from the spec: [enum class ArcStatus] of arc_replacer.h, which
    is not part of the sources at hand; the four regions T1, T2, B1, B2 under
    the names the code uses for them. *)
Inductive ArcStatus : Type := MRU | MFU | MRU_GHOST | MFU_GHOST.

#[global] Instance ArcStatus_eq_dec : EqDecision ArcStatus.
Proof. solve_decision. Defined.

(** Modelled from the spec: [struct FrameStatus] of arc_replacer.h, built by
    [FrameStatus(page_id, frame_id, evictable, arc_status)].  Its handles
    [list_iter_] and [ghost_iter_] designate the node of the entry in its
    list; a node is identified here by the value it holds, and
    [list.erase(handle)] is [erase_first] of that value: the resident lists
    hold each frame once, and the handle kept in [ghost_map_] is the one of
    the entry pushed last, which is the first one from the front. *)
Record FrameStatus : Type := mkStatus {
  page_id_ : Z;
  frame_id_ : Z;
  evictable_ : bool;
  arc_status_ : ArcStatus
}.

(** Modelled from the spec: the data members of [class ArcReplacer]
    (arc_replacer.h).  The front of a list is its MRU end.  The counters are
    [size_t], starting at 0. *)
Record ArcReplacer : Type := mkArc {
  mru_ : list Z;
  mfu_ : list Z;
  mru_ghost_ : list Z;
  mfu_ghost_ : list Z;
  alive_map_ : gmap Z FrameStatus;
  ghost_map_ : gmap Z FrameStatus;
  curr_size_ : Z;
  mru_target_size_ : Z;
  replacer_size_ : Z
}.

(** What a member function does: it returns, throws [std::runtime_error]
    (the state is the one at the [throw]), or has undefined behaviour. *)
Inductive outcome (A : Type) : Type :=
| Return (a : A) (s : ArcReplacer)
| Throw (msg : string) (s : ArcReplacer)
| UB.
Arguments Return {A} a s.
Arguments Throw {A} msg s.
Arguments UB {A}.

(** Assignments to one member. *)
Definition set_mru (l : list Z) (s : ArcReplacer) : ArcReplacer :=
  mkArc l (mfu_ s) (mru_ghost_ s) (mfu_ghost_ s) (alive_map_ s) (ghost_map_ s)
        (curr_size_ s) (mru_target_size_ s) (replacer_size_ s).
Definition set_mfu (l : list Z) (s : ArcReplacer) : ArcReplacer :=
  mkArc (mru_ s) l (mru_ghost_ s) (mfu_ghost_ s) (alive_map_ s) (ghost_map_ s)
        (curr_size_ s) (mru_target_size_ s) (replacer_size_ s).
Definition set_mru_ghost (l : list Z) (s : ArcReplacer) : ArcReplacer :=
  mkArc (mru_ s) (mfu_ s) l (mfu_ghost_ s) (alive_map_ s) (ghost_map_ s)
        (curr_size_ s) (mru_target_size_ s) (replacer_size_ s).
Definition set_mfu_ghost (l : list Z) (s : ArcReplacer) : ArcReplacer :=
  mkArc (mru_ s) (mfu_ s) (mru_ghost_ s) l (alive_map_ s) (ghost_map_ s)
        (curr_size_ s) (mru_target_size_ s) (replacer_size_ s).
Definition set_alive (m : gmap Z FrameStatus) (s : ArcReplacer) : ArcReplacer :=
  mkArc (mru_ s) (mfu_ s) (mru_ghost_ s) (mfu_ghost_ s) m (ghost_map_ s)
        (curr_size_ s) (mru_target_size_ s) (replacer_size_ s).
Definition set_ghost (m : gmap Z FrameStatus) (s : ArcReplacer) : ArcReplacer :=
  mkArc (mru_ s) (mfu_ s) (mru_ghost_ s) (mfu_ghost_ s) (alive_map_ s) m
        (curr_size_ s) (mru_target_size_ s) (replacer_size_ s).
Definition set_size (n : Z) (s : ArcReplacer) : ArcReplacer :=
  mkArc (mru_ s) (mfu_ s) (mru_ghost_ s) (mfu_ghost_ s) (alive_map_ s) (ghost_map_ s)
        n (mru_target_size_ s) (replacer_size_ s).
Definition set_target (n : Z) (s : ArcReplacer) : ArcReplacer :=
  mkArc (mru_ s) (mfu_ s) (mru_ghost_ s) (mfu_ghost_ s) (alive_map_ s) (ghost_map_ s)
        (curr_size_ s) n (replacer_size_ s).

(** [ArcReplacer::ArcReplacer(size_t num_frames)]. *)
Definition new (num_frames : Z) : ArcReplacer :=
  mkArc [] [] [] [] ∅ ∅ 0 0 num_frames.

(** [l.erase(handle)] for the handle of the entry holding [x]. *)
Fixpoint erase_first (x : Z) (l : list Z) : list Z :=
  match l with
  | [] => []
  | y :: l' => if decide (x = y) then l' else y :: erase_first x l'
  end.

(** The two pairs of lists [EvictInternal] is called on, passed by
    reference in the source. *)
Inductive side : Type := Recent | Frequent.

Definition resident (d : side) (s : ArcReplacer) : list Z :=
  match d with Recent => mru_ s | Frequent => mfu_ s end.
Definition set_resident (d : side) (l : list Z) (s : ArcReplacer) : ArcReplacer :=
  match d with Recent => set_mru l s | Frequent => set_mfu l s end.
Definition history (d : side) (s : ArcReplacer) : list Z :=
  match d with Recent => mru_ghost_ s | Frequent => mfu_ghost_ s end.
Definition set_history (d : side) (l : list Z) (s : ArcReplacer) : ArcReplacer :=
  match d with Recent => set_mru_ghost l s | Frequent => set_mfu_ghost l s end.

(** The loop of [EvictInternal] over [rbegin .. rend]: [r] is the list read
    from its back.  The result is the entries skipped before the victim, the
    victim with its status, and the entries not reached, all in the order of
    the scan. *)
Fixpoint find_victim (alive : gmap Z FrameStatus) (r : list Z)
  : option (list Z * (Z * FrameStatus) * list Z) :=
  match r with
  | [] => None
  | frame_id :: r' =>
      let skip :=
        match find_victim alive r' with
        | Some (skipped, v, rest) => Some (frame_id :: skipped, v, rest)
        | None => None
        end in
      match alive !! frame_id with
      | Some frame_status =>
          if evictable_ frame_status
          then Some ([], (frame_id, frame_status), r')
          else skip
      | None => skip
      end
  end.

(** [ArcReplacer::EvictInternal(from_list, ghost_status, to_ghost_list)],
    with [from_list] and [to_ghost_list] the lists of side [d]. *)
Definition EvictInternal (d : side) (ghost_status : ArcStatus) (s : ArcReplacer)
  : option Z * ArcReplacer :=
  match find_victim (alive_map_ s) (rev (resident d s)) with
  | Some (skipped, (frame_id, frame_status), rest) =>
      let s1 := set_resident d (rev (skipped ++ rest)) s in
      let s2 := set_history d (page_id_ frame_status :: history d s1) s1 in
      let s3 := set_ghost
                  (<[page_id_ frame_status :=
                       mkStatus (page_id_ frame_status) frame_id false ghost_status]>
                     (ghost_map_ s2)) s2 in
      let s4 := set_alive (delete frame_id (alive_map_ s3)) s3 in
      (Some frame_id, set_size (wrap_size (curr_size_ s4 - 1)) s4)
  | None => (None, s)
  end.

(** [ArcReplacer::Evict]. *)
Definition Evict (s : ArcReplacer) : option Z * ArcReplacer :=
  if decide (lsize (mru_ s) < mru_target_size_ s) then
    match EvictInternal Frequent MFU_GHOST s with
    | (Some f, s') => (Some f, s')
    | (None, s') => EvictInternal Recent MRU_GHOST s'
    end
  else
    match EvictInternal Recent MRU_GHOST s with
    | (Some f, s') => (Some f, s')
    | (None, s') => EvictInternal Frequent MFU_GHOST s'
    end.

(** The tail common to every branch that takes a new frame in: [lst.push_front(frame_id)], a new
    [FrameStatus] in [alive_map_], [curr_size_++]. *)
Definition push_new_frame (d : side) (frame_id page_id : Z) (s : ArcReplacer)
  : ArcReplacer :=
  let s1 := set_resident d (frame_id :: resident d s) s in
  let s2 := set_alive
              (<[frame_id :=
                   mkStatus page_id frame_id true
                            (match d with Recent => MRU | Frequent => MFU end)]>
                 (alive_map_ s1)) s1 in
  set_size (wrap_size (curr_size_ s2 + 1)) s2.

(** [cond ? 1 : a / b] of the two ghost-hit branches; [None] is a division
    by zero. *)
Definition adapt_delta (hit other : Z) : option Z :=
  if decide (hit >= other) then Some 1
  else if decide (hit = 0) then None
  else Some (other / hit).

(** [ArcReplacer::RecordAccess]. *)
Definition RecordAccess (frame_id page_id : Z) (s : ArcReplacer) : outcome unit :=
  match alive_map_ s !! frame_id with
  | Some frame_status =>
      (* case 1: hit in mru_ or mfu_ *)
      match arc_status_ frame_status with
      | MRU =>
          let s1 := set_mru (erase_first frame_id (mru_ s)) s in
          let s2 := set_mfu (frame_id :: mfu_ s1) s1 in
          Return tt
            (set_alive
               (<[frame_id :=
                    mkStatus (page_id_ frame_status) (frame_id_ frame_status)
                             (evictable_ frame_status) MFU]> (alive_map_ s2)) s2)
      | MFU =>
          Return tt (set_mfu (frame_id :: erase_first frame_id (mfu_ s)) s)
      | _ => Return tt s
      end
  | None =>
      match ghost_map_ s !! page_id with
      | Some frame_status =>
          match arc_status_ frame_status with
          | MRU_GHOST =>
              match adapt_delta (lsize (mru_ghost_ s)) (lsize (mfu_ghost_ s)) with
              | None => UB
              | Some delta =>
                  let s1 := set_target (wrap_size (mru_target_size_ s + delta)) s in
                  let s2 := set_mru_ghost
                              (erase_first (page_id_ frame_status) (mru_ghost_ s1)) s1 in
                  let s3 := set_ghost (delete page_id (ghost_map_ s2)) s2 in
                  Return tt (push_new_frame Frequent frame_id page_id s3)
              end
          | MFU_GHOST =>
              match adapt_delta (lsize (mfu_ghost_ s)) (lsize (mru_ghost_ s)) with
              | None => UB
              | Some delta =>
                  let s1 := set_target (wrap_size (mru_target_size_ s - delta)) s in
                  let s2 := set_mfu_ghost
                              (erase_first (page_id_ frame_status) (mfu_ghost_ s1)) s1 in
                  let s3 := set_ghost (delete page_id (ghost_map_ s2)) s2 in
                  Return tt (push_new_frame Frequent frame_id page_id s3)
              end
          | _ => Return tt s
          end
      | None =>
          (* case 4: miss all lists *)
          if decide (wrap_size (lsize (mru_ s) + lsize (mru_ghost_ s)) = replacer_size_ s) then
            match last (mru_ghost_ s) with
            | None => UB
            | Some last_page_id =>
                let s1 := set_mru_ghost (removelast (mru_ghost_ s)) s in
                let s2 := set_ghost (delete last_page_id (ghost_map_ s1)) s1 in
                Return tt (push_new_frame Recent frame_id page_id s2)
            end
          else if decide (wrap_size (lsize (mru_ s) + lsize (mfu_ s)
                                     + lsize (mru_ghost_ s) + lsize (mfu_ghost_ s))
                          = wrap_size (2 * replacer_size_ s)) then
            match last (mfu_ghost_ s) with
            | None => UB
            | Some last_page_id =>
                let s1 := set_mfu_ghost (removelast (mfu_ghost_ s)) s in
                let s2 := set_ghost (delete last_page_id (ghost_map_ s1)) s1 in
                Return tt (push_new_frame Recent frame_id page_id s2)
            end
          else Return tt (push_new_frame Recent frame_id page_id s)
      end
  end.

(** [ArcReplacer::SetEvictable]. *)
Definition SetEvictable (frame_id : Z) (set_evictable : bool) (s : ArcReplacer)
  : outcome unit :=
  match alive_map_ s !! frame_id with
  | None => Throw "Frame id is invalid" s
  | Some frame_status =>
      if decide (evictable_ frame_status = set_evictable) then Return tt s
      else
        let s1 := set_alive
                    (<[frame_id :=
                         mkStatus (page_id_ frame_status) (frame_id_ frame_status)
                                  set_evictable (arc_status_ frame_status)]>
                       (alive_map_ s)) s in
        Return tt
          (set_size (if set_evictable
                     then wrap_size (curr_size_ s1 + 1)
                     else wrap_size (curr_size_ s1 - 1)) s1)
  end.

(** [ArcReplacer::Remove]. *)
Definition Remove (frame_id : Z) (s : ArcReplacer) : outcome unit :=
  match alive_map_ s !! frame_id with
  | None => Return tt s
  | Some frame_status =>
      if evictable_ frame_status then
        let s1 := match arc_status_ frame_status with
                  | MRU => set_mru (erase_first frame_id (mru_ s)) s
                  | MFU => set_mfu (erase_first frame_id (mfu_ s)) s
                  | _ => s
                  end in
        let s2 := set_alive (delete frame_id (alive_map_ s1)) s1 in
        Return tt (set_size (wrap_size (curr_size_ s2 - 1)) s2)
      else Throw "Cannot remove a non-evictable frame" s
  end.

(** [ArcReplacer::Size]. *)
Definition Size (s : ArcReplacer) : Z * ArcReplacer := (curr_size_ s, s).

(** [alive_map_[f]->evictable_], false for a frame that is not resident. *)
Definition is_evictable (alive : gmap Z FrameStatus) (f : Z) : bool :=
  match alive !! f with
  | Some frame_status => evictable_ frame_status
  | None => false
  end.

(** The region recorded for a resident frame. *)
Definition region (alive : gmap Z FrameStatus) (f : Z) : option ArcStatus :=
  arc_status_ <$> alive !! f.

(** Number of evictable entries of a list of frames. *)
Fixpoint count_evictable (alive : gmap Z FrameStatus) (l : list Z) : Z :=
  match l with
  | [] => 0
  | f :: l' => (if is_evictable alive f then 1 else 0) + count_evictable alive l'
  end.

Definition has_evictable (alive : gmap Z FrameStatus) (l : list Z) : Prop :=
  exists f, f ∈ l /\ is_evictable alive f = true.

(** [f] is the first evictable entry of [l] counted from its LRU end (the
    back), and [l'] is [l] without that entry. *)
Definition lru_victim (alive : gmap Z FrameStatus) (l : list Z) (f : Z) (l' : list Z)
  : Prop :=
  exists newer older,
    l = newer ++ f :: older /\ l' = newer ++ older /\
    is_evictable alive f = true /\
    Forall (fun g => is_evictable alive g = false) older.

Definition other_side (d : side) : side :=
  match d with Recent => Frequent | Frequent => Recent end.

Definition alive_region (d : side) : ArcStatus :=
  match d with Recent => MRU | Frequent => MFU end.

Definition ghost_region (d : side) : ArcStatus :=
  match d with Recent => MRU_GHOST | Frequent => MFU_GHOST end.

(** The range of [frame_id_t]. *)
Definition valid_frame (f : Z) : Prop := - 2 ^ 31 <= f < 2 ^ 31.

(** The representation invariant on the resident side: the two lists hold
    the keys of [alive_map_], each once and in the list its status names, and
    [curr_size_] counts the evictable ones. *)
Record inv (s : ArcReplacer) : Prop := mkInv {
  inv_nodup : NoDup (mru_ s ++ mfu_ s);
  inv_region : forall d f,
    f ∈ resident d s <-> region (alive_map_ s) f = Some (alive_region d);
  inv_alive : forall f, is_Some (alive_map_ s !! f) -> f ∈ mru_ s ++ mfu_ s;
  inv_frames : forall f, f ∈ mru_ s ++ mfu_ s -> valid_frame f;
  inv_size : curr_size_ s = count_evictable (alive_map_ s) (mru_ s ++ mfu_ s)
}.

(** The states a replacer for [N] frames goes through.  An exception leaves
    the replacer as it is at the [throw]. *)
Inductive reachable (N : Z) : ArcReplacer -> Prop :=
| reach_new : reachable N (new N)
| reach_RecordAccess s f pg s' :
    reachable N s -> valid_frame f ->
    RecordAccess f pg s = Return tt s' -> reachable N s'
| reach_SetEvictable s f v s' :
    reachable N s -> SetEvictable f v s = Return tt s' -> reachable N s'
| reach_Remove s f s' :
    reachable N s -> Remove f s = Return tt s' -> reachable N s'
| reach_Evict s r s' :
    reachable N s -> Evict s = (r, s') -> reachable N s'
| reach_Throw_SetEvictable s f v msg s' :
    reachable N s -> SetEvictable f v s = Throw msg s' -> reachable N s'
| reach_Throw_Remove s f msg s' :
    reachable N s -> Remove f s = Throw msg s' -> reachable N s'.

(** Runs a sequence of calls, for the scenarios. *)
Inductive call : Type :=
| CallRecordAccess (frame_id page_id : Z)
| CallSetEvictable (frame_id : Z) (set_evictable : bool)
| CallRemove (frame_id : Z)
| CallEvict.

Definition do_call (c : call) (s : ArcReplacer) : outcome unit :=
  match c with
  | CallRecordAccess f pg => RecordAccess f pg s
  | CallSetEvictable f v => SetEvictable f v s
  | CallRemove f => Remove f s
  | CallEvict => Return tt (Evict s).2
  end.

Fixpoint do_calls (cs : list call) (s : ArcReplacer) : outcome unit :=
  match cs with
  | [] => Return tt s
  | c :: cs' =>
      match do_call c s with
      | Return _ s' => do_calls cs' s'
      | Throw msg s' => Throw msg s'
      | UB => UB
      end
  end.

End Arc.

(** ** The point query of the B+ tree *)

Module BPlusTree.

Section GetValue.

(** The template arguments of [BPLUSTREE_TYPE]: keys, values and the
    comparator, which returns an [int]. *)
Variables KeyType ValueType : Type.
Variable comparator_ : KeyType -> KeyType -> Z.

(** The pages, whose classes (b_plus_tree_page.h and the headers of the
    internal and leaf pages) are not among the sources: a page is read
    through the accessors the code calls.  [InternalValueAt] gives a child
    page id, [LeafValueAt] a value. *)
Variable Page : Type.
Variable IsLeafPage : Page -> bool.
Variable GetSize : Page -> Z.
Variable InternalKeyAt : Page -> Z -> KeyType.
Variable InternalValueAt : Page -> Z -> Z.
Variable LeafKeyAt : Page -> Z -> KeyType.
Variable LeafValueAt : Page -> Z -> ValueType.

(** [bpm_->ReadPage(page_id)]: the page the buffer pool holds under an id. *)
Variable ReadPage : Z -> Page.

(** [INVALID_PAGE_ID] of common/config.h. *)
Variable INVALID_PAGE_ID : Z.

(** The loop [for (int i = 1; i < size; i++)] of [GetValue] over an internal
    page, [todo] being the values of [i] still to come and [index] the
    variable of that name. *)
Fixpoint child_scan (page : Page) (key : KeyType) (todo : list Z) (index : Z) : Z :=
  match todo with
  | [] => index
  | i :: todo' =>
      if decide (comparator_ key (InternalKeyAt page i) < 0) then i - 1
      else child_scan page key todo' i
  end.

Definition child_index (page : Page) (key : KeyType) : Z :=
  child_scan page key (seqZ 1 (GetSize page - 1)) 0.

(** The loop [for (int i = 0; i < size; i++)] over the leaf page. *)
Fixpoint leaf_scan (page : Page) (key : KeyType) (todo : list Z) : option ValueType :=
  match todo with
  | [] => None
  | i :: todo' =>
      if decide (comparator_ (LeafKeyAt page i) key = 0)
      then Some (LeafValueAt page i)
      else leaf_scan page key todo'
  end.

Definition leaf_lookup (page : Page) (key : KeyType) : option ValueType :=
  leaf_scan page key (seqZ 0 (GetSize page)).

(** The loop [while (!page->IsLeafPage())]; [None] when the leaf is not
    reached within [fuel] pages. *)
Fixpoint descend (fuel : nat) (key : KeyType) (page : Page) : option Page :=
  if IsLeafPage page then Some page
  else
    match fuel with
    | O => None
    | S fuel' =>
        descend fuel' key (ReadPage (InternalValueAt page (child_index page key)))
    end.

(** [BPlusTree::GetValue(key, result)] on a tree whose header page holds
    [root_page_id]: the value returned and the vector [result] afterwards. *)
Definition GetValue (fuel : nat) (root_page_id : Z) (key : KeyType)
           (result : list ValueType) : option (bool * list ValueType) :=
  if decide (root_page_id = INVALID_PAGE_ID) then Some (false, result)
  else
    match descend fuel key (ReadPage root_page_id) with
    | None => None
    | Some leaf =>
        match leaf_lookup leaf key with
        | Some v => Some (true, result ++ [v])
        | None => Some (false, result)
        end
    end.

(** [BPlusTree::IsEmpty]. *)
Definition IsEmpty (root_page_id : Z) : bool :=
  bool_decide (root_page_id = INVALID_PAGE_ID).

End GetValue.

Arguments child_scan {KeyType} comparator_ {Page} InternalKeyAt page key todo index.
Arguments child_index {KeyType} comparator_ {Page} GetSize InternalKeyAt page key.
Arguments leaf_scan {KeyType ValueType} comparator_ {Page} LeafKeyAt LeafValueAt
  page key todo.
Arguments leaf_lookup {KeyType ValueType} comparator_ {Page} GetSize LeafKeyAt
  LeafValueAt page key.
Arguments descend {KeyType} comparator_ {Page} IsLeafPage GetSize InternalKeyAt
  InternalValueAt ReadPage fuel key page.
Arguments GetValue {KeyType ValueType} comparator_ {Page} IsLeafPage GetSize
  InternalKeyAt InternalValueAt LeafKeyAt LeafValueAt ReadPage INVALID_PAGE_ID
  fuel root_page_id key result.

End BPlusTree.

(** ** Further invariants *)

(** A reference bit is set only for a frame the replacer tracks: every
    assignment that clears [pinned_[i]] clears [reference_bits_[i]] too. *)
Definition clock_refs_tracked (s : Clock.ClockReplacer) : Prop :=
  forall i, Clock.vec_get (Clock.reference_bits_ s) i = Some true -> Clock.tracked s i.

(** Every entry of [ghost_map_] is filed under its own page, carries a ghost
    region, and its page is in the ghost list of that region. *)
Definition ghost_entries (s : Arc.ArcReplacer) : Prop :=
  forall p st, Arc.ghost_map_ s !! p = Some st ->
    Arc.page_id_ st = p /\
    exists d, Arc.arc_status_ st = Arc.ghost_region d /\ p ∈ Arc.history d s.

(** The bounds case 4 of [RecordAccess] keeps: |T1| + |B1| <= N and
    |T1| + |T2| + |B1| + |B2| <= 2N. *)
Record arc_capacity (s : Arc.ArcReplacer) : Prop := mkCapacity {
  cap_recent :
    lsize (Arc.mru_ s) + lsize (Arc.mru_ghost_ s) <= Arc.replacer_size_ s;
  cap_total :
    lsize (Arc.mru_ s) + lsize (Arc.mfu_ s)
    + lsize (Arc.mru_ghost_ s) + lsize (Arc.mfu_ghost_ s) <= 2 * Arc.replacer_size_ s;
  cap_ghost : ghost_entries s
}.


(** ** States of the scenarios *)

(** CLOCK for three pages after [Unpin(0)], [Unpin(1)], [Unpin(2)]. *)
Definition clock_three_unpinned : Clock.ClockReplacer :=
  Clock.mkClock 3 0 [true; true; true] [true; true; true] 3.

(** CLOCK for one page after [Unpin(0)]. *)
Definition clock_one_unpinned : Clock.ClockReplacer :=
  Clock.mkClock 1 0 [true] [true] 1.

(** CLOCK for seven pages after [Unpin] of the frames 1 to 6. *)
Definition clock_six_of_seven : Clock.ClockReplacer :=
  Clock.mkClock 7 0 [false; true; true; true; true; true; true]
                    [false; true; true; true; true; true; true] 6.

(** ARC for four frames after [RecordAccess(0, 100)]. *)
Definition arc_one_frame : Arc.ArcReplacer :=
  Arc.mkArc [0] [] [] [] (<[0 := Arc.mkStatus 100 0 true Arc.MRU]> ∅) ∅ 1 0 4.

(** The same replacer after [Evict], which returns frame 0. *)
Definition arc_one_ghost : Arc.ArcReplacer :=
  Arc.mkArc [] [] [100] [] (delete 0 (<[0 := Arc.mkStatus 100 0 true Arc.MRU]> ∅))
            (<[100 := Arc.mkStatus 100 0 false Arc.MRU_GHOST]> ∅) 0 0 4.


(** ARC for two frames after [RecordAccess(0, 10)] and [RecordAccess(1, 11)]. *)
Definition arc_two_frames : Arc.ArcReplacer :=
  Arc.mkArc [1; 0] [] [] []
            (<[1 := Arc.mkStatus 11 1 true Arc.MRU]>
               (<[0 := Arc.mkStatus 10 0 true Arc.MRU]> ∅)) ∅ 2 0 2.

(** A B+ tree of height two over integer keys, for the scenarios: the root
    (page 1) has the children 2, 3, 4, separated by the keys 10 and 20. *)
Inductive sample_page : Type :=
| SampleLeaf (entries : list (Z * Z))
| SampleInternal (keys children : list Z).

Definition sample_is_leaf (p : sample_page) : bool :=
  match p with SampleLeaf _ => true | SampleInternal _ _ => false end.

Definition sample_size (p : sample_page) : Z :=
  match p with
  | SampleLeaf entries => lsize entries
  | SampleInternal _ children => lsize children
  end.

Definition sample_key_at (p : sample_page) (i : Z) : Z :=
  match p with
  | SampleLeaf entries => (nth (Z.to_nat i) entries (0, 0)).1
  | SampleInternal keys _ => nth (Z.to_nat i) keys 0
  end.

Definition sample_child_at (p : sample_page) (i : Z) : Z :=
  match p with
  | SampleLeaf _ => 0
  | SampleInternal _ children => nth (Z.to_nat i) children 0
  end.

Definition sample_value_at (p : sample_page) (i : Z) : Z :=
  match p with
  | SampleLeaf entries => (nth (Z.to_nat i) entries (0, 0)).2
  | SampleInternal _ _ => 0
  end.

Definition sample_read (page_id : Z) : sample_page :=
  if decide (page_id = 1) then SampleInternal [0; 10; 20] [2; 3; 4]
  else if decide (page_id = 2) then SampleLeaf [(1, 100); (5, 500)]
  else if decide (page_id = 3) then SampleLeaf [(10, 1000); (15, 1500)]
  else if decide (page_id = 4) then SampleLeaf [(20, 2000)]
  else SampleLeaf [].

(** The height of a page of the sample tree: 0 for a leaf, 1 for the root. *)
Definition sample_height (p : sample_page) : nat :=
  if sample_is_leaf p then 0%nat else 1%nat.

Definition sample_compare (a b : Z) : Z :=
  match a ?= b with Lt => -1 | Eq => 0 | Gt => 1 end.

Definition sample_get (root key : Z) : option (bool * list Z) :=
  BPlusTree.GetValue sample_compare sample_is_leaf sample_size sample_key_at
    sample_child_at sample_key_at sample_value_at sample_read (-1) 4 root key [].

(** Splits a conjunction into its parts, and nothing else. *)
Ltac split_conj := repeat match goal with |- _ /\ _ => split end.

(** ** Facts on machine integers *)

Lemma wrap_size_small z : 0 <= z < SIZE_MODULUS -> wrap_size z = z.
Proof. intros H. unfold wrap_size. apply Z.mod_small. exact H. Qed.

(** ** Facts on the CLOCK replacer *)

Section ClockFacts.
Import Clock.

Lemma popcount_bounds v : 0 <= popcount v <= lsize v.
Proof.
  unfold lsize. induction v as [|b v IH]; simpl popcount; simpl length; [lia|].
  destruct b; lia.
Qed.

Lemma popcount_replicate n : popcount (replicate n false) = 0.
Proof. induction n as [|n IH]; simpl; lia. Qed.

Lemma vec_get_in_range v i :
  0 <= i < lsize v -> exists b, vec_get v i = Some b.
Proof.
  intros [H0 H1]. unfold vec_get, lsize in *.
  destruct (decide (0 <= i)) as [_|]; [|lia].
  destruct (lookup_lt_is_Some_2 v (Z.to_nat i)) as [b Hb]; [lia|].
  exists b. exact Hb.
Qed.

Lemma vec_get_range v i b : vec_get v i = Some b -> 0 <= i < lsize v.
Proof.
  unfold vec_get, lsize. destruct (decide (0 <= i)); [|discriminate].
  intros H. apply lookup_lt_Some in H. lia.
Qed.

Lemma lsize_vec_set v i b : lsize (vec_set v i b) = lsize v.
Proof. unfold lsize, vec_set. rewrite length_insert. reflexivity. Qed.

Lemma vec_get_set_eq v i b b0 :
  vec_get v i = Some b0 -> vec_get (vec_set v i b) i = Some b.
Proof.
  unfold vec_get, vec_set. destruct (decide (0 <= i)); [|discriminate].
  intros H. apply list_lookup_insert_eq. eapply lookup_lt_Some. exact H.
Qed.

Lemma vec_get_set_ne v i j b :
  0 <= i -> i <> j -> vec_get (vec_set v i b) j = vec_get v j.
Proof.
  intros Hi Hne. unfold vec_get, vec_set.
  destruct (decide (0 <= j)); [|reflexivity].
  apply list_lookup_insert_ne. lia.
Qed.

Lemma popcount_insert v : forall n b0 b,
  v !! n = Some b0 ->
  popcount (<[n := b]> v) = popcount v - Z.b2z b0 + Z.b2z b.
Proof.
  induction v as [|x v IH]; intros n b0 b H; [discriminate|].
  destruct n as [|n]; simpl in *.
  - injection H as ->. destruct b0, b; simpl; lia.
  - rewrite (IH n b0 b H). destruct x, b0, b; simpl; lia.
Qed.

Lemma popcount_vec_set v i b0 b :
  vec_get v i = Some b0 ->
  popcount (vec_set v i b) = popcount v - Z.b2z b0 + Z.b2z b.
Proof.
  unfold vec_get, vec_set. destruct (decide (0 <= i)); [|discriminate].
  apply popcount_insert.
Qed.

Lemma next_hand_eq s :
  inv s -> 0 < num_pages_ s ->
  next_hand s = (clock_hand_ s + 1) mod num_pages_ s.
Proof.
  intros [Hn _ _ Hh _] Hpos. unfold next_hand.
  rewrite wrap_size_small; [reflexivity|]. unfold SIZE_MODULUS in *. lia.
Qed.

Lemma next_hand_range s :
  inv s -> 0 < num_pages_ s -> 0 <= next_hand s < num_pages_ s.
Proof.
  intros Hi Hpos. rewrite next_hand_eq by assumption.
  apply Z.mod_pos_bound. exact Hpos.
Qed.

Lemma clock_new_inv N : 0 <= N < SIZE_MODULUS -> inv (new N).
Proof.
  intros HN. constructor; simpl.
  - exact HN.
  - unfold lsize. rewrite length_replicate. lia.
  - unfold lsize. rewrite length_replicate. lia.
  - lia.
  - rewrite popcount_replicate. reflexivity.
Qed.

(** One iteration of the scan keeps the invariant, and never leaves the
    bounds of the two vectors once the replacer holds a page. *)
Lemma scan_step_inv s :
  inv s -> 0 < num_pages_ s ->
  match scan_step s with
  | Skip s' =>
      inv s' /\ num_pages_ s' = num_pages_ s /\
      clock_hand_ s' = (clock_hand_ s + 1) mod num_pages_ s /\
      pinned_ s' = pinned_ s /\ current_size_ s' = current_size_ s /\
      ~ ready s (clock_hand_ s) /\
      ((~ tracked s (clock_hand_ s) /\ reference_bits_ s' = reference_bits_ s) \/
       (tracked s (clock_hand_ s) /\
        reference_bits_ s' = vec_set (reference_bits_ s) (clock_hand_ s) false))
  | Found f s' =>
      inv s' /\ num_pages_ s' = num_pages_ s /\
      f = to_frame_id (clock_hand_ s) /\ ready s (clock_hand_ s) /\
      clock_hand_ s' = (clock_hand_ s + 1) mod num_pages_ s /\
      pinned_ s' = vec_set (pinned_ s) (clock_hand_ s) false /\
      reference_bits_ s' = vec_set (reference_bits_ s) (clock_hand_ s) false /\
      current_size_ s' = current_size_ s - 1
  | StepUB => False
  end.
Proof.
  intros Hi Hpos. pose proof (next_hand_range s Hi Hpos) as Hnh.
  pose proof (next_hand_eq s Hi Hpos) as Hne.
  destruct Hi as [Hn Hp Hr Hh Hs].
  unfold scan_step. destruct (decide (num_pages_ s = 0)) as [|_]; [lia|].
  destruct (vec_get_in_range (pinned_ s) (clock_hand_ s)) as [bp Hbp]; [lia|].
  destruct (vec_get_in_range (reference_bits_ s) (clock_hand_ s)) as [br Hbr]; [lia|].
  rewrite Hbp. destruct bp.
  - rewrite Hbr. destruct br.
    + repeat split; simpl; try assumption; try lia.
      * rewrite lsize_vec_set. exact Hr.
      * unfold ready. rewrite Hbr. intros [_ ?]. discriminate.
      * right. split; [exact Hbp | reflexivity].
    + pose proof (popcount_vec_set _ _ _ false Hbp) as Hpc. simpl in Hpc.
      pose proof (popcount_bounds (vec_set (pinned_ s) (clock_hand_ s) false)) as Hb.
      rewrite lsize_vec_set in Hb.
      assert (wrap_size (current_size_ s - 1) = current_size_ s - 1) as Hw.
      { apply wrap_size_small. unfold SIZE_MODULUS in *. lia. }
      repeat split; simpl; try assumption; try lia.
      * rewrite lsize_vec_set. exact Hp.
      * rewrite lsize_vec_set. exact Hr.
  - repeat split; simpl; try assumption; try lia.
    + unfold ready. rewrite Hbp. intros [? _]. discriminate.
    + left. split; [|reflexivity]. unfold tracked. rewrite Hbp. discriminate.
Qed.

Lemma victim_loop_inv fuel : forall s r s',
  inv s -> 0 < num_pages_ s ->
  Loop.victim_loop fuel s = Return r s' ->
  inv s' /\ num_pages_ s' = num_pages_ s.
Proof.
  induction fuel as [|fuel IH]; intros s r s' Hi Hpos H; simpl in H; [discriminate|].
  pose proof (scan_step_inv s Hi Hpos) as Hstep.
  destruct (scan_step s) as [s1|f s1|]; [| |contradiction].
  - destruct Hstep as (Hi1 & HN & _).
    destruct (IH s1 r s' Hi1 ltac:(lia) H) as [? ?]. split; [assumption|lia].
  - injection H as _ <-. destruct Hstep as (? & ? & _). split; assumption.
Qed.

Lemma victim_scan_inv fuel : forall scanned s r s',
  inv s -> 0 < num_pages_ s ->
  Scanned.victim_scan fuel scanned s = Return r s' ->
  inv s' /\ num_pages_ s' = num_pages_ s.
Proof.
  induction fuel as [|fuel IH]; intros scanned s r s' Hi Hpos H; simpl in H.
  - destruct (decide (scanned < num_pages_ s)); [discriminate|].
    injection H as _ <-. split; [assumption|reflexivity].
  - destruct (decide (scanned < num_pages_ s)).
    + pose proof (scan_step_inv s Hi Hpos) as Hstep.
      destruct (scan_step s) as [s1|f s1|]; [| |contradiction].
      * destruct Hstep as (Hi1 & HN & _).
        destruct (IH _ s1 r s' Hi1 ltac:(lia) H) as [? ?]. split; [assumption|lia].
      * injection H as _ <-. destruct Hstep as (? & ? & _). split; assumption.
    + injection H as _ <-. split; [assumption|reflexivity].
Qed.

Lemma scan_step_pages s s' : scan_step s = Skip s' -> num_pages_ s' = num_pages_ s.
Proof.
  unfold scan_step. destruct (decide (num_pages_ s = 0)); [discriminate|].
  destruct (vec_get (pinned_ s) (clock_hand_ s)) as [[|]|]; try discriminate.
  - destruct (vec_get (reference_bits_ s) (clock_hand_ s)) as [[|]|]; try discriminate.
    intros H. injection H as <-. reflexivity.
  - intros H. injection H as <-. reflexivity.
Qed.

(** The bounded scan needs no more iterations than [num_pages_ - scanned]:
    the fuel [Scanned.Victim] gives it is never used up. *)
Lemma victim_scan_fuel fuel : forall scanned s,
  0 <= scanned -> num_pages_ s < SIZE_MODULUS ->
  num_pages_ s - scanned <= Z.of_nat fuel ->
  Scanned.victim_scan fuel scanned s <> OutOfFuel.
Proof.
  induction fuel as [|fuel IH]; intros scanned s Hsc HN Hf; simpl.
  - destruct (decide (scanned < num_pages_ s)); [lia|discriminate].
  - destruct (decide (scanned < num_pages_ s)); [|discriminate].
    destruct (scan_step s) as [s1| |] eqn:E; try discriminate.
    apply scan_step_pages in E.
    rewrite wrap_size_small by (unfold SIZE_MODULUS in *; lia).
    apply IH; rewrite ?E; lia.
Qed.

Lemma Scanned_Victim_fuel s :
  num_pages_ s < SIZE_MODULUS -> Scanned.Victim s <> OutOfFuel.
Proof.
  intros HN. unfold Scanned.Victim. destruct (decide (current_size_ s = 0)); [discriminate|].
  apply victim_scan_fuel; lia.
Qed.

(** A replacer that counts a candidate was built for at least one page. *)
Lemma inv_size_pos s : inv s -> current_size_ s <> 0 -> 0 < num_pages_ s.
Proof.
  intros [Hn Hp _ _ Hs] Hne. pose proof (popcount_bounds (pinned_ s)). lia.
Qed.

Lemma Pin_inv f s :
  inv s -> exists s', Pin f s = Return tt s' /\ inv s' /\ num_pages_ s' = num_pages_ s.
Proof.
  intros Hi. unfold Pin.
  destruct (decide (f < 0 \/ num_pages_ s <= f)) as [|Hr]; [eauto|].
  destruct Hi as [Hn Hp Hrf Hh Hs].
  destruct (vec_get_in_range (pinned_ s) f) as [b Hb]; [lia|].
  rewrite Hb. destruct b; [|eexists; split; [reflexivity|split; [by constructor|reflexivity]]].
  eexists. split; [reflexivity|]. split; [|reflexivity].
  pose proof (popcount_vec_set _ _ _ false Hb) as Hpc. simpl in Hpc.
  pose proof (popcount_bounds (vec_set (pinned_ s) f false)) as Hbd.
  rewrite lsize_vec_set in Hbd.
  constructor; simpl; try assumption.
  - rewrite lsize_vec_set. exact Hp.
  - rewrite lsize_vec_set. exact Hrf.
  - destruct (decide (0 < current_size_ s)); [|lia].
    rewrite wrap_size_small; unfold SIZE_MODULUS in *; lia.
Qed.

Lemma Unpin_inv f s :
  inv s -> exists s', Unpin f s = Return tt s' /\ inv s' /\ num_pages_ s' = num_pages_ s.
Proof.
  intros Hi. unfold Unpin.
  destruct (decide (f < 0 \/ num_pages_ s <= f)) as [|Hr]; [eauto|].
  destruct Hi as [Hn Hp Hrf Hh Hs].
  destruct (vec_get_in_range (pinned_ s) f) as [b Hb]; [lia|].
  rewrite Hb. destruct b; [eexists; split; [reflexivity|split; [by constructor|reflexivity]]|].
  eexists. split; [reflexivity|]. split; [|reflexivity].
  pose proof (popcount_vec_set _ _ _ true Hb) as Hpc. simpl in Hpc.
  pose proof (popcount_bounds (vec_set (pinned_ s) f true)) as Hbd.
  rewrite lsize_vec_set in Hbd.
  constructor; simpl; try assumption.
  - rewrite lsize_vec_set. exact Hp.
  - rewrite lsize_vec_set. exact Hrf.
  - rewrite wrap_size_small; unfold SIZE_MODULUS in *; lia.
Qed.

Lemma clock_reachable_inv N s :
  0 <= N < SIZE_MODULUS -> reachable N s -> inv s /\ num_pages_ s = N.
Proof.
  intros HN Hr. induction Hr as [|s f s' _ [IH IHN] H|s f s' _ [IH IHN] H
                                |s fuel r s' _ [IH IHN] H|s r s' _ [IH IHN] H
                                |s n s' _ [IH IHN] H].
  - split; [apply clock_new_inv; exact HN | reflexivity].
  - destruct (Pin_inv f s IH) as (s1 & H1 & Hi1 & HN1).
    rewrite H1 in H. injection H as <-. split; [assumption|lia].
  - destruct (Unpin_inv f s IH) as (s1 & H1 & Hi1 & HN1).
    rewrite H1 in H. injection H as <-. split; [assumption|lia].
  - unfold Loop.Victim in H. destruct (decide (current_size_ s = 0)) as [|Hne].
    + injection H as _ <-. split; assumption.
    + pose proof (inv_size_pos s IH Hne) as Hpos.
      destruct (victim_loop_inv _ _ _ _ IH Hpos H). split; [assumption|lia].
  - unfold Scanned.Victim in H. destruct (decide (current_size_ s = 0)) as [|Hne].
    + injection H as _ <-. split; assumption.
    + pose proof (inv_size_pos s IH Hne) as Hpos.
      destruct (victim_scan_inv _ _ _ _ _ IH Hpos H). split; [assumption|lia].
  - unfold Size in H. injection H as _ <-. split; assumption.
Qed.

(** *** The hand finds a victim within two rotations *)

(** The slot the hand points at after [d] advancements. *)
Local Abbreviation slot s d := ((clock_hand_ s + Z.of_nat d) mod num_pages_ s).

Lemma mod_shift_cases h j N :
  0 <= h < N -> 0 <= j < N ->
  (h + j) mod N = h + j \/ (h + j) mod N = h + j - N.
Proof.
  intros Hh Hj. destruct (decide (h + j < N)) as [Hlt|Hge].
  - left. apply Z.mod_small. lia.
  - right. symmetry. apply (Z.mod_unique_pos _ _ 1). lia. lia.
Qed.

Lemma mod_shift_ne h j N : 0 <= h < N -> 0 < j < N -> (h + j) mod N <> h.
Proof.
  intros Hh Hj. destruct (mod_shift_cases h j N) as [->| ->]; lia.
Qed.

Lemma mod_shift_succ h (j : nat) N :
  ((h + 1) mod N + Z.of_nat j) mod N = (h + Z.of_nat (S j)) mod N.
Proof. rewrite Zplus_mod_idemp_l. f_equal. lia. Qed.

Lemma mod_shift_reach h i N :
  0 <= h < N -> 0 <= i < N ->
  exists d : nat, (d < Z.to_nat N)%nat /\ (h + Z.of_nat d) mod N = i.
Proof.
  intros Hh Hi. exists (Z.to_nat ((i - h) mod N)).
  pose proof (Z.mod_pos_bound (i - h) N ltac:(lia)) as Hb.
  split; [lia|]. rewrite Z2Nat.id by lia.
  rewrite Zplus_mod_idemp_r. replace (h + (i - h)) with i by lia.
  apply Z.mod_small. lia.
Qed.

(** Bounded search for the least number with a decidable property. *)
Lemma least_below (P : nat -> Prop) (dec : forall n, Decision (P n)) (n : nat) :
  (forall j, (j < n)%nat -> ~ P j) \/
  (exists d, (d < n)%nat /\ P d /\ forall j, (j < d)%nat -> ~ P j).
Proof.
  induction n as [|n [IH|IH]].
  - left. intros j Hj. lia.
  - destruct (dec n) as [Hn|Hn].
    + right. exists n. split; [lia|]. split; assumption.
    + left. intros j Hj. destruct (decide (j = n)) as [->|]; [assumption|].
      apply IH. lia.
  - right. destruct IH as (d & Hd & HP & Hl). exists d. split; [lia|]. split; assumption.
Qed.

Lemma popcount_pos_lookup v : 0 < popcount v -> exists n, v !! n = Some true.
Proof.
  induction v as [|b v IH]; simpl; [lia|]. intros H. destruct b.
  - exists 0%nat. reflexivity.
  - destruct IH as [n Hn]; [lia|]. exists (S n). exact Hn.
Qed.

Lemma inv_tracked_exists s :
  inv s -> current_size_ s <> 0 ->
  exists i, 0 <= i < num_pages_ s /\ tracked s i.
Proof.
  intros Hi Hne. destruct Hi as [Hn Hp _ _ Hs].
  pose proof (popcount_bounds (pinned_ s)) as Hb.
  destruct (popcount_pos_lookup (pinned_ s)) as [n Hlk]; [lia|].
  pose proof (lookup_lt_Some _ _ _ Hlk) as Hlt. unfold lsize in Hp.
  exists (Z.of_nat n). split; [lia|].
  unfold tracked, vec_get. destruct (decide (0 <= Z.of_nat n)); [|lia].
  rewrite Nat2Z.id. exact Hlk.
Qed.

(** The hand passes over [n] slots none of which holds a ready candidate: no
    victim is chosen, the candidates stay, and the reference bit of every
    candidate passed over is cleared. *)
Lemma sweep (n : nat) : forall s,
  inv s -> 0 < num_pages_ s -> Z.of_nat n <= num_pages_ s ->
  (forall j, (j < n)%nat -> ~ ready s (slot s j)) ->
  exists s1,
    (forall k, Loop.victim_loop (n + k) s = Loop.victim_loop k s1) /\
    (forall k sc, 0 <= sc -> sc + Z.of_nat n <= num_pages_ s ->
       Scanned.victim_scan (n + k) sc s = Scanned.victim_scan k (sc + Z.of_nat n) s1) /\
    inv s1 /\ num_pages_ s1 = num_pages_ s /\
    pinned_ s1 = pinned_ s /\ current_size_ s1 = current_size_ s /\
    clock_hand_ s1 = slot s n /\
    (forall j, (j < n)%nat -> tracked s (slot s j) ->
               vec_get (reference_bits_ s1) (slot s j) = Some false) /\
    (forall i, vec_get (reference_bits_ s1) i = vec_get (reference_bits_ s) i \/
               vec_get (reference_bits_ s1) i = Some false).
Proof.
  induction n as [|n IH]; intros s Hi Hpos Hn Hnr.
  - exists s. assert (0 <= clock_hand_ s < num_pages_ s) as Hh.
    { destruct Hi as [_ _ _ Hh _]. lia. }
    split_conj; try assumption; try reflexivity.
    + intros k sc _ _. simpl. f_equal. lia.
    + simpl. rewrite Z.add_0_r. symmetry. apply Z.mod_small. exact Hh.
    + intros j Hj. lia.
    + intros i. left. reflexivity.
  - assert (0 <= clock_hand_ s < num_pages_ s) as Hh.
    { destruct Hi as [_ _ _ Hh _]. lia. }
    assert (slot s 0 = clock_hand_ s) as Hs0.
    { simpl. rewrite Z.add_0_r. apply Z.mod_small. exact Hh. }
    pose proof (scan_step_inv s Hi Hpos) as Hstep.
    destruct (scan_step s) as [s'|f s'|] eqn:Estep; [| |contradiction].
    2:{ destruct Hstep as (_ & _ & _ & Hrd & _). exfalso.
        apply (Hnr 0%nat); [lia|]. rewrite Hs0. exact Hrd. }
    destruct Hstep as (Hi' & HN' & Hh' & Hp' & Hsz' & _ & Hrefs).
    assert (forall j : nat, slot s' j = slot s (S j)) as Hslot.
    { intros j. rewrite HN', Hh'. apply mod_shift_succ. }
    assert (forall i, i <> clock_hand_ s ->
              vec_get (reference_bits_ s') i = vec_get (reference_bits_ s) i) as Hother.
    { intros i Hne. destruct Hrefs as [[_ ->]|[_ ->]]; [reflexivity|].
      apply vec_get_set_ne; lia. }
    destruct (IH s' Hi') as (s1 & Hloop & Hscan & Hi1 & HN1 & Hp1 & Hsz1 & Hh1 & Hclr & Hmono).
    + lia.
    + lia.
    + intros j Hj. rewrite Hslot. intros [Hrd1 Hrd2]. apply (Hnr (S j)); [lia|].
      split; [rewrite <- Hp'; exact Hrd1|].
      rewrite <- Hother; [exact Hrd2|]. apply mod_shift_ne; lia.
    + exists s1. split_conj.
      * intros k. simpl. rewrite Estep. apply Hloop.
      * intros k sc Hsc0 Hsc. simpl.
        destruct (decide (sc < num_pages_ s)); [|lia]. rewrite Estep.
        rewrite wrap_size_small.
        2:{ destruct Hi as [HNb _ _ _ _]. lia. }
        rewrite Hscan by lia. f_equal. lia.
      * exact Hi1.
      * lia.
      * congruence.
      * lia.
      * rewrite Hh1. apply Hslot.
      * intros j Hj Htr. destruct j as [|j].
        -- rewrite Hs0 in *.
           destruct Hrefs as [[Hnt _]|[_ Hset]]; [contradiction|].
           assert (vec_get (reference_bits_ s') (clock_hand_ s) = Some false) as Hc.
           { rewrite Hset. destruct Hi as [_ _ Hr _ _].
             destruct (vec_get_in_range (reference_bits_ s) (clock_hand_ s)) as [b Hb]; [lia|].
             eapply vec_get_set_eq. exact Hb. }
           destruct (Hmono (clock_hand_ s)) as [Hm|Hm]; [rewrite Hm; exact Hc|exact Hm].
        -- rewrite <- Hslot. apply Hclr; [lia|].
           unfold tracked. rewrite Hp'. rewrite Hslot. exact Htr.
      * intros i. destruct (Hmono i) as [Hm|Hm]; [|right; exact Hm].
        rewrite Hm. destruct (decide (i = clock_hand_ s)) as [->|Hne].
        -- destruct Hrefs as [[_ ->]|[_ ->]]; [left; reflexivity|].
           right. destruct Hi as [_ _ Hr _ _].
           destruct (vec_get_in_range (reference_bits_ s) (clock_hand_ s)) as [b Hb]; [lia|].
           eapply vec_get_set_eq. exact Hb.
        -- left. apply Hother. exact Hne.
Qed.

(** The hand reaches the first ready candidate, [d] slots ahead, and selects
    it at its advancement number [d + 1]. *)
Lemma select (d : nat) : forall s,
  inv s -> 0 < num_pages_ s -> Z.of_nat d < num_pages_ s ->
  ready s (slot s d) ->
  (forall j, (j < d)%nat -> ~ ready s (slot s j)) ->
  exists s',
    (forall k, Loop.victim_loop (S d + k) s =
               Return (Some (to_frame_id (slot s d))) s') /\
    Loop.victim_loop d s = OutOfFuel /\
    inv s' /\ num_pages_ s' = num_pages_ s /\
    current_size_ s' = current_size_ s - 1 /\
    pinned_ s' = vec_set (pinned_ s) (slot s d) false.
Proof.
  intros s Hi Hpos Hd Hrd Hnr.
  destruct (sweep d s Hi Hpos ltac:(lia) Hnr)
    as (s1 & Hloop & _ & Hi1 & HN1 & Hp1 & Hsz1 & Hh1 & _ & Hmono).
  pose proof (scan_step_inv s1 Hi1 ltac:(lia)) as Hstep.
  assert (ready s1 (clock_hand_ s1)) as Hrd1.
  { rewrite Hh1. destruct Hrd as [Ha Hb]. split; [rewrite Hp1; exact Ha|].
    destruct (Hmono (slot s d)) as [Hm|Hm]; [rewrite Hm; exact Hb|exact Hm]. }
  destruct (scan_step s1) as [s'|f s'|] eqn:Estep; [| |contradiction].
  { destruct Hstep as (_ & _ & _ & _ & _ & Hnrd & _). contradiction. }
  destruct Hstep as (Hi' & HN' & Hf & _ & _ & Hp' & _ & Hsz').
  exists s'. split_conj.
  - intros k. replace (S d + k)%nat with (d + S k)%nat by lia.
    rewrite Hloop. simpl. rewrite Estep. rewrite Hf, Hh1. reflexivity.
  - replace d with (d + 0)%nat at 1 by lia. rewrite Hloop. reflexivity.
  - exact Hi'.
  - lia.
  - lia.
  - rewrite Hp', Hp1, Hh1. reflexivity.
Qed.

Lemma slot_full_turn s :
  inv s -> 0 < num_pages_ s -> slot s (Z.to_nat (num_pages_ s)) = clock_hand_ s.
Proof.
  intros [_ _ _ Hh _] Hpos. rewrite Z2Nat.id by lia.
  rewrite <- (Z.mul_1_l (num_pages_ s)) at 1. rewrite Z.mod_add by lia.
  apply Z.mod_small. lia.
Qed.

(** When no candidate is ready, the first rotation only clears reference
    bits and brings the hand back to where it was; the second rotation
    selects the first candidate met.  The scan that stops after [num_pages_]
    slots gives up at the end of the first rotation. *)
Lemma two_rotations s :
  inv s -> current_size_ s <> 0 ->
  (forall j, (j < Z.to_nat (num_pages_ s))%nat -> ~ ready s (slot s j)) ->
  exists s_mid (d : nat) s',
    (forall k, Loop.victim_loop (Z.to_nat (num_pages_ s) + k) s = Loop.victim_loop k s_mid) /\
    Scanned.Victim s = Return None s_mid /\
    inv s_mid /\ num_pages_ s_mid = num_pages_ s /\
    clock_hand_ s_mid = clock_hand_ s /\ pinned_ s_mid = pinned_ s /\
    current_size_ s_mid = current_size_ s /\
    (forall i, tracked s i -> vec_get (reference_bits_ s_mid) i = Some false) /\
    Z.of_nat d < num_pages_ s /\ tracked s (slot s d) /\
    (forall j, (j < d)%nat -> ~ tracked s (slot s j)) /\
    (forall k, Loop.victim_loop (S d + k) s_mid =
               Return (Some (to_frame_id (slot s d))) s') /\
    Loop.victim_loop d s_mid = OutOfFuel /\
    inv s' /\ num_pages_ s' = num_pages_ s /\
    current_size_ s' = current_size_ s - 1.
Proof.
  intros Hi Hne Hnr. pose proof (inv_size_pos s Hi Hne) as Hpos.
  assert (0 <= clock_hand_ s < num_pages_ s) as Hh.
  { destruct Hi as [_ _ _ Hh _]. lia. }
  destruct (sweep (Z.to_nat (num_pages_ s)) s Hi Hpos ltac:(lia) Hnr)
    as (sm & Hloop & Hscan & Him & HNm & Hpm & Hszm & Hhm & Hclr & _).
  rewrite slot_full_turn in Hhm by assumption.
  assert (forall j : nat, slot sm j = slot s j) as Hslot.
  { intros j. rewrite HNm, Hhm. reflexivity. }
  assert (forall i, tracked s i -> vec_get (reference_bits_ sm) i = Some false) as Hclr'.
  { intros i Hti. pose proof (vec_get_range _ _ _ Hti) as Hr.
    destruct Hi as [_ Hp _ _ _]. rewrite Hp in Hr.
    destruct (mod_shift_reach (clock_hand_ s) i (num_pages_ s) Hh Hr) as (d0 & Hd0 & Hsl).
    rewrite <- Hsl. apply Hclr; [exact Hd0|]. rewrite Hsl. exact Hti. }
  destruct (least_below (fun d => tracked s (slot s d)) _ (Z.to_nat (num_pages_ s)))
    as [Hnone|(d & Hd & Htd & Hleast)].
  { exfalso. destruct (inv_tracked_exists s Hi Hne) as (i & Hr & Hti).
    destruct (mod_shift_reach (clock_hand_ s) i (num_pages_ s) Hh Hr) as (d0 & Hd0 & Hsl).
    apply (Hnone d0 Hd0). rewrite Hsl. exact Hti. }
  destruct (select d sm Him ltac:(lia) ltac:(lia)) as (s' & Hsel & Hfuel & Hi' & HN' & Hsz' & _).
  { rewrite Hslot. split; [rewrite Hpm; exact Htd | apply Hclr'; exact Htd]. }
  { intros j Hj. rewrite Hslot. intros [Htj _]. apply (Hleast j Hj).
    unfold tracked. rewrite <- Hpm. exact Htj. }
  exists sm, d, s'. split_conj; try assumption; try lia.
  - unfold Scanned.Victim. destruct (decide (current_size_ s = 0)); [contradiction|].
    replace (Z.to_nat (num_pages_ s)) with (Z.to_nat (num_pages_ s) + 0)%nat at 1 by lia.
    rewrite Hscan by lia. simpl.
    destruct (decide (0 + Z.of_nat (Z.to_nat (num_pages_ s)) < num_pages_ sm)); [lia|].
    reflexivity.
  - intros k. rewrite Hsel. rewrite Hslot. reflexivity.
Qed.

(** [Victim] of the revision with [while (true)]: a replacer that holds a
    candidate returns one after at most [2 * num_pages_] advancements of the
    hand ([n] of them exactly). *)
Lemma loop_victim_within_two_rotations s :
  inv s -> current_size_ s <> 0 ->
  exists (n : nat) f s',
    (0 < n <= 2 * Z.to_nat (num_pages_ s))%nat /\
    (forall fuel, (n <= fuel)%nat -> Loop.Victim fuel s = Return (Some f) s') /\
    (forall fuel, (fuel < n)%nat -> Loop.Victim fuel s = OutOfFuel) /\
    inv s' /\ num_pages_ s' = num_pages_ s /\
    current_size_ s' = current_size_ s - 1.
Proof.
  intros Hi Hne. pose proof (inv_size_pos s Hi Hne) as Hpos.
  assert (forall n s0, Loop.victim_loop n s0 = OutOfFuel ->
            forall m, (m <= n)%nat -> Loop.victim_loop m s0 = OutOfFuel) as Hdown.
  { induction n as [|n IH]; intros s0 H m Hm.
    - replace m with 0%nat by lia. reflexivity.
    - destruct m as [|m]; [reflexivity|]. simpl in *.
      destruct (scan_step s0); try discriminate. apply (IH _ H). lia. }
  unfold Loop.Victim. destruct (decide (current_size_ s = 0)); [contradiction|].
  destruct (least_below (fun d => ready s (slot s d)) _ (Z.to_nat (num_pages_ s)))
    as [Hnone|(d & Hd & Hrd & Hleast)].
  - destruct (two_rotations s Hi Hne Hnone)
      as (sm & d & s' & Hloop & _ & _ & _ & _ & _ & _ & _ & Hd & _ & _ & Hsel & Hfuel & Hi' & HN' & Hsz').
    exists (Z.to_nat (num_pages_ s) + S d)%nat, (to_frame_id (slot s d)), s'.
    split_conj; try assumption; try lia.
    + intros fuel Hf.
      replace fuel with (Z.to_nat (num_pages_ s) + (S d + (fuel - Z.to_nat (num_pages_ s) - S d)))%nat by lia.
      rewrite Hloop. apply Hsel.
    + intros fuel Hf. apply (Hdown (Z.to_nat (num_pages_ s) + d)%nat); [|lia].
      rewrite Hloop. exact Hfuel.
  - destruct (select d s Hi Hpos ltac:(lia) Hrd Hleast) as (s' & Hsel & Hfuel & Hi' & HN' & Hsz' & _).
    exists (S d), (to_frame_id (slot s d)), s'.
    split_conj; try assumption; try lia.
    + intros fuel Hf. replace fuel with (S d + (fuel - S d))%nat by lia. apply Hsel.
    + intros fuel Hf. apply (Hdown d); [exact Hfuel|lia].
Qed.

(** C9, as the code has it: in every state the replacer goes through, the
    size is the number of tracked frames, which [Size] returns, and the hand
    is in [0, N) when the replacer was built for N > 0 pages; a replacer
    built for no page keeps its hand at 0. *)
Theorem C9_clock_invariant (N : Z) (s : ClockReplacer) :
  0 <= N < SIZE_MODULUS -> reachable N s ->
  current_size_ s = popcount (pinned_ s) /\
  Size s = Return (popcount (pinned_ s)) s /\
  num_pages_ s = N /\
  (0 < N -> 0 <= clock_hand_ s < N) /\
  (N = 0 -> clock_hand_ s = 0).
Proof.
  intros HN Hr. destruct (clock_reachable_inv N s HN Hr) as [[_ _ _ Hh Hs] HNs].
  unfold Size. rewrite Hs. split_conj; try reflexivity; try assumption; lia.
Qed.

Lemma C9_clock_invariant_witness :
  0 <= 3 < SIZE_MODULUS /\
  reachable 3 clock_three_unpinned /\
  (current_size_ clock_three_unpinned = popcount (pinned_ clock_three_unpinned) /\
   Size clock_three_unpinned =
     Return (popcount (pinned_ clock_three_unpinned)) clock_three_unpinned /\
   num_pages_ clock_three_unpinned = 3 /\
   (0 < 3 -> 0 <= clock_hand_ clock_three_unpinned < 3) /\
   (3 = 0 -> clock_hand_ clock_three_unpinned = 0)).
Proof.
  assert (0 <= 3 < SIZE_MODULUS) as HN by (unfold SIZE_MODULUS; lia).
  assert (reachable 3 clock_three_unpinned) as Hr.
  { apply (reach_Unpin 3 (mkClock 3 0 [true; true; false] [true; true; false] 2) 2);
      [|reflexivity].
    apply (reach_Unpin 3 (mkClock 3 0 [true; false; false] [true; false; false] 1) 1);
      [|reflexivity].
    apply (reach_Unpin 3 (new 3) 0); [|reflexivity].
    apply reach_new. }
  split; [exact HN|]. split; [exact Hr|].
  apply (C9_clock_invariant 3 clock_three_unpinned HN Hr).
Defined.

(** C9 as stated fails for a replacer built for no page: its hand is 0,
    which is not in the empty range [0, 0). *)
Lemma C9_counterexample_no_page :
  0 <= 0 < SIZE_MODULUS /\ reachable 0 (new 0) /\
  ~ (0 <= clock_hand_ (new 0) < 0).
Proof.
  split; [unfold SIZE_MODULUS; lia|]. split; [apply reach_new|]. simpl. lia.
Qed.

(** C3: in the revision that stops the scan after [num_pages_] slots, a
    replacer whose candidates all have their reference bit set returns no
    victim although its size is positive: the one rotation it makes only
    clears the bits.  So it is right after [Unpin], for one page and in the
    first scenario of CLOCK (seven pages, frames 1 to 6 unpinned), where the
    revision with the unbounded loop returns frame 0 and frame 1. *)
Theorem C3_scanned_victim_gives_up :
  Unpin 0 (new 1) = Return tt clock_one_unpinned /\
  current_size_ clock_one_unpinned = 1 /\
  Scanned.Victim clock_one_unpinned = Return None (mkClock 1 0 [false] [true] 1) /\
  Loop.Victim 2 clock_one_unpinned = Return (Some 0) (mkClock 1 0 [false] [false] 0) /\
  current_size_ clock_six_of_seven = 6 /\
  Scanned.Victim clock_six_of_seven =
    Return None (mkClock 7 0 [false; false; false; false; false; false; false]
                           [false; true; true; true; true; true; true] 6) /\
  Loop.Victim 14 clock_six_of_seven =
    Return (Some 1) (mkClock 7 2 [false; false; false; false; false; false; false]
                               [false; false; true; true; true; true; true] 5).
Proof. vm_compute. split_conj; reflexivity. Qed.

(** The same for every state: when no candidate has a clear reference bit,
    the bounded scan returns nothing and leaves a replacer of the same
    size. *)
Lemma scanned_victim_all_referenced s :
  inv s -> current_size_ s <> 0 ->
  (forall i, tracked s i -> vec_get (reference_bits_ s) i = Some true) ->
  exists s', Scanned.Victim s = Return None s' /\
             current_size_ s' = current_size_ s /\ pinned_ s' = pinned_ s.
Proof.
  intros Hi Hne Hall.
  destruct (two_rotations s Hi Hne) as (sm & d & s' & _ & Hsc & _ & _ & _ & Hp & Hsz & _).
  { intros j _ [Ht Hr]. rewrite (Hall _ Ht) in Hr. discriminate. }
  exists sm. split_conj; assumption.
Qed.

(** *** Unpin and Pin *)

Lemma tracked_in_range s f : inv s -> tracked s f -> 0 <= f < num_pages_ s.
Proof.
  intros [_ Hp _ _ _] Ht. apply vec_get_range in Ht. lia.
Qed.

(** X1: [Unpin] always returns.  For a frame id in range that is not
    tracked it sets the tracked bit and the reference bit of that frame and
    adds one to the size; for a frame id out of range, and for a frame that is
    tracked already, it changes nothing (the reference bit of a tracked frame
    is not set again); a second [Unpin] of the same frame changes nothing. *)
Theorem X1_clock_unpin (s : ClockReplacer) (f : Z) :
  inv s ->
  exists s',
    Unpin f s = Return tt s' /\ inv s' /\
    Unpin f s' = Return tt s' /\
    clock_hand_ s' = clock_hand_ s /\ num_pages_ s' = num_pages_ s /\
    if decide (0 <= f < num_pages_ s /\ ~ tracked s f) then
      tracked s' f /\ vec_get (reference_bits_ s') f = Some true /\
      current_size_ s' = current_size_ s + 1 /\
      (forall i, i <> f ->
         vec_get (pinned_ s') i = vec_get (pinned_ s) i /\
         vec_get (reference_bits_ s') i = vec_get (reference_bits_ s) i)
    else s' = s.
Proof.
  intros Hi. destruct (Unpin_inv f s Hi) as (s' & HU & Hi' & HN).
  exists s'. split; [exact HU|]. split; [exact Hi'|].
  unfold Unpin in HU |- *. rewrite HN.
  destruct (decide (f < 0 \/ num_pages_ s <= f)) as [Hout|Hin].
  { injection HU as <-. split; [reflexivity|]. split; [reflexivity|]. split; [reflexivity|].
    destruct (decide _) as [[? _]|]; [lia|reflexivity]. }
  destruct (vec_get (pinned_ s) f) as [[|]|] eqn:Hb; try discriminate.
  - injection HU as <-. rewrite Hb. split; [reflexivity|]. split; [reflexivity|].
    split; [reflexivity|].
    destruct (decide _) as [[_ Hnt]|]; [contradiction|reflexivity].
  - injection HU as <-. simpl.
    rewrite (vec_get_set_eq _ _ true _ Hb).
    split; [reflexivity|]. split; [reflexivity|]. split; [reflexivity|].
    destruct (decide _) as [_|Hno].
    2:{ exfalso. apply Hno. split; [lia|]. unfold tracked. rewrite Hb. discriminate. }
    destruct Hi as [HNb Hp Hr _ Hs].
    destruct (vec_get_in_range (reference_bits_ s) f) as [br Hbr]; [lia|].
    pose proof (popcount_bounds (pinned_ s)).
    pose proof (popcount_vec_set _ _ _ true Hb) as Hpc. simpl in Hpc.
    pose proof (popcount_bounds (vec_set (pinned_ s) f true)) as Hbd.
    rewrite lsize_vec_set in Hbd.
    split_conj.
    + unfold tracked. simpl. eapply vec_get_set_eq. exact Hb.
    + eapply vec_get_set_eq. exact Hbr.
    + apply wrap_size_small. unfold SIZE_MODULUS in *. lia.
    + intros i Hne. split; apply vec_get_set_ne; lia.
Qed.

(** X2: [Pin] always returns.  For a tracked frame it clears the tracked
    bit and the reference bit of that frame and takes one off the size; for a
    frame id out of range, and for a frame that is not tracked, it changes
    nothing; a second [Pin] of the same frame changes nothing. *)
Theorem X2_clock_pin (s : ClockReplacer) (f : Z) :
  inv s ->
  exists s',
    Pin f s = Return tt s' /\ inv s' /\
    Pin f s' = Return tt s' /\
    clock_hand_ s' = clock_hand_ s /\ num_pages_ s' = num_pages_ s /\
    if decide (tracked s f) then
      vec_get (pinned_ s') f = Some false /\
      vec_get (reference_bits_ s') f = Some false /\
      current_size_ s' = current_size_ s - 1 /\
      (forall i, i <> f ->
         vec_get (pinned_ s') i = vec_get (pinned_ s) i /\
         vec_get (reference_bits_ s') i = vec_get (reference_bits_ s) i)
    else s' = s.
Proof.
  intros Hi. destruct (Pin_inv f s Hi) as (s' & HP & Hi' & HN).
  exists s'. split; [exact HP|]. split; [exact Hi'|].
  unfold Pin in HP |- *. rewrite HN.
  destruct (decide (f < 0 \/ num_pages_ s <= f)) as [Hout|Hin].
  { injection HP as <-. split; [reflexivity|]. split; [reflexivity|]. split; [reflexivity|].
    destruct (decide _) as [Ht|]; [|reflexivity].
    apply (tracked_in_range s f Hi) in Ht. lia. }
  destruct (vec_get (pinned_ s) f) as [[|]|] eqn:Hb; try discriminate.
  - injection HP as <-. simpl.
    rewrite (vec_get_set_eq _ _ false _ Hb).
    split; [reflexivity|]. split; [reflexivity|]. split; [reflexivity|].
    destruct (decide (tracked s f)) as [_|Hno]; [|exfalso; apply Hno; exact Hb].
    destruct Hi as [HNb Hp Hr _ Hs].
    destruct (vec_get_in_range (reference_bits_ s) f) as [br Hbr]; [lia|].
    pose proof (popcount_vec_set _ _ _ false Hb) as Hpc. simpl in Hpc.
    pose proof (popcount_bounds (vec_set (pinned_ s) f false)) as Hbd.
    rewrite lsize_vec_set in Hbd.
    split_conj.
    + reflexivity.
    + eapply vec_get_set_eq. exact Hbr.
    + destruct (decide (0 < current_size_ s)); [|lia].
      apply wrap_size_small. unfold SIZE_MODULUS in *. lia.
    + intros i Hne. split; apply vec_get_set_ne; lia.
  - injection HP as <-. rewrite Hb. split; [reflexivity|]. split; [reflexivity|].
    split; [reflexivity|].
    destruct (decide (tracked s f)) as [Ht|]; [|reflexivity].
    unfold tracked in Ht. congruence.
Qed.

Lemma vec_set_undo v f b0 b :
  vec_get v f = Some b0 -> vec_set (vec_set v f b) f b0 = v.
Proof.
  unfold vec_get, vec_set. destruct (decide (0 <= f)); [|discriminate].
  intros H. rewrite list_insert_insert_eq. apply list_insert_id. exact H.
Qed.

(** X3: [Pin] undoes [Unpin].  In a state where reference bits are set on
    tracked frames only, [Unpin] of a frame in range that is not tracked,
    followed by [Pin] of the same frame, gives back the state before. *)
Theorem X3_clock_pin_undoes_unpin (s : ClockReplacer) (f : Z) :
  inv s -> clock_refs_tracked s ->
  0 <= f < num_pages_ s -> ~ tracked s f ->
  exists s1, Unpin f s = Return tt s1 /\ tracked s1 f /\ Pin f s1 = Return tt s.
Proof.
  intros Hi Hrt Hf Hnt. pose proof Hi as [HNb Hp Hr Hh Hs].
  destruct (vec_get_in_range (pinned_ s) f) as [bp Hbp]; [lia|].
  destruct (vec_get_in_range (reference_bits_ s) f) as [br Hbr]; [lia|].
  assert (bp = false) as -> by (destruct bp; [contradiction|reflexivity]).
  assert (br = false) as ->.
  { destruct br; [|reflexivity]. exfalso. apply Hnt, Hrt. exact Hbr. }
  pose proof (popcount_bounds (pinned_ s)).
  pose proof (popcount_vec_set _ _ _ true Hbp) as Hpc. simpl in Hpc.
  pose proof (popcount_bounds (vec_set (pinned_ s) f true)) as Hbd.
  rewrite lsize_vec_set in Hbd.
  unfold Unpin. destruct (decide (f < 0 \/ num_pages_ s <= f)); [lia|].
  rewrite Hbp. eexists. split; [reflexivity|]. split.
  { unfold tracked. simpl. eapply vec_get_set_eq. exact Hbp. }
  unfold Pin. simpl. destruct (decide (f < 0 \/ num_pages_ s <= f)); [lia|].
  rewrite (vec_get_set_eq _ _ true _ Hbp).
  rewrite (vec_set_undo _ _ _ true Hbp), (vec_set_undo _ _ _ true Hbr).
  rewrite (wrap_size_small (current_size_ s + 1)) by (unfold SIZE_MODULUS in *; lia).
  destruct (decide (0 < current_size_ s + 1)); [|lia].
  rewrite wrap_size_small by (unfold SIZE_MODULUS in *; lia).
  replace (current_size_ s + 1 - 1) with (current_size_ s) by lia.
  destruct s; reflexivity.
Qed.

(** *** What [Victim] returns *)

Lemma vec_get_set_cases v i b j c :
  0 <= i -> vec_get (vec_set v i b) j = Some c ->
  (j = i /\ c = b) \/ (j <> i /\ vec_get v j = Some c).
Proof.
  intros Hi H. destruct (decide (j = i)) as [->|Hne].
  - left. split; [reflexivity|].
    pose proof (vec_get_range _ _ _ H) as Hr. rewrite lsize_vec_set in Hr.
    destruct (vec_get_in_range v i Hr) as [b0 Hb0].
    rewrite (vec_get_set_eq _ _ b _ Hb0) in H. congruence.
  - right. split; [exact Hne|]. rewrite vec_get_set_ne in H by auto. exact H.
Qed.

Lemma popcount_lookup_pos v : forall n, v !! n = Some true -> 0 < popcount v.
Proof.
  induction v as [|b v IH]; intros n H; [discriminate|].
  pose proof (popcount_bounds v). destruct n as [|n]; simpl in *.
  - injection H as ->. lia.
  - specialize (IH n H). destruct b; lia.
Qed.

Lemma tracked_size_pos s i : inv s -> tracked s i -> current_size_ s <> 0.
Proof.
  intros [_ _ _ _ Hs] Ht. unfold tracked, vec_get in Ht.
  destruct (decide (0 <= i)); [|discriminate].
  pose proof (popcount_lookup_pos _ _ Ht). lia.
Qed.

Lemma victim_loop_returns_frame fuel : forall s r s',
  Loop.victim_loop fuel s = Return r s' -> exists f, r = Some f.
Proof.
  induction fuel as [|fuel IH]; intros s r s' H; simpl in H; [discriminate|].
  destruct (scan_step s) as [s1|f s1|]; [eapply IH; exact H| |discriminate].
  injection H as <- _. eauto.
Qed.

(** [select], for both loops and with the whole effect on the state. *)
Lemma select_slot (d : nat) : forall s,
  inv s -> 0 < num_pages_ s -> Z.of_nat d < num_pages_ s ->
  ready s (slot s d) ->
  (forall j, (j < d)%nat -> ~ ready s (slot s j)) ->
  exists s',
    (forall k, Loop.victim_loop (S d + k) s =
               Return (Some (to_frame_id (slot s d))) s') /\
    (forall k, Scanned.victim_scan (S d + k) 0 s =
               Return (Some (to_frame_id (slot s d))) s') /\
    inv s' /\ num_pages_ s' = num_pages_ s /\
    current_size_ s' = current_size_ s - 1 /\
    pinned_ s' = vec_set (pinned_ s) (slot s d) false /\
    clock_hand_ s' = (slot s d + 1) mod num_pages_ s.
Proof.
  intros s Hi Hpos Hd Hrd Hnr.
  destruct (sweep d s Hi Hpos ltac:(lia) Hnr)
    as (s1 & Hloop & Hscan & Hi1 & HN1 & Hp1 & Hsz1 & Hh1 & Hclr & Hmono).
  pose proof (scan_step_inv s1 Hi1 ltac:(lia)) as Hstep.
  assert (ready s1 (clock_hand_ s1)) as Hrd1.
  { rewrite Hh1. destruct Hrd as [Ha Hb]. split; [rewrite Hp1; exact Ha|].
    destruct (Hmono (slot s d)) as [Hm|Hm]; [rewrite Hm; exact Hb|exact Hm]. }
  destruct (scan_step s1) as [s'|f s'|] eqn:Estep; [| |contradiction].
  { destruct Hstep as (_ & _ & _ & _ & _ & Hnrd & _). contradiction. }
  destruct Hstep as (Hi' & HN' & Hf & _ & Hh' & Hp' & Hr' & Hsz').
  assert (0 <= slot s d < num_pages_ s) as Hslot by (apply Z.mod_pos_bound; lia).
  exists s'. split_conj.
  - intros k. replace (S d + k)%nat with (d + S k)%nat by lia.
    rewrite Hloop. simpl. rewrite Estep. rewrite Hf, Hh1. reflexivity.
  - intros k. replace (S d + k)%nat with (d + S k)%nat by lia.
    rewrite Hscan by lia. simpl.
    destruct (decide (0 + Z.of_nat d < num_pages_ s1)); [|lia].
    rewrite Estep, Hf, Hh1. reflexivity.
  - exact Hi'.
  - lia.
  - lia.
  - rewrite Hp', Hp1, Hh1. reflexivity.
  - rewrite Hh', Hh1, HN1. reflexivity.
Qed.

(** The slot of the first candidate met from the hand, for a replacer that
    holds one. *)
Lemma first_tracked s :
  inv s -> current_size_ s <> 0 ->
  exists d : nat, Z.of_nat d < num_pages_ s /\ tracked s (slot s d) /\
                  forall j, (j < d)%nat -> ~ tracked s (slot s j).
Proof.
  intros Hi Hne. pose proof (inv_size_pos s Hi Hne) as Hpos.
  assert (0 <= clock_hand_ s < num_pages_ s) as Hh
    by (destruct Hi as [_ _ _ Hh _]; lia).
  destruct (least_below (fun d => tracked s (slot s d)) _ (Z.to_nat (num_pages_ s)))
    as [Hnone|(d & Hd & Htd & Hleast)].
  - exfalso. destruct (inv_tracked_exists s Hi Hne) as (i & Hr & Hti).
    destruct (mod_shift_reach (clock_hand_ s) i (num_pages_ s) Hh Hr) as (d0 & Hd0 & Hsl).
    apply (Hnone d0 Hd0). rewrite Hsl. exact Hti.
  - exists d. split; [lia|]. split; assumption.
Qed.

(** X4: [Victim] of the revision with the unbounded loop, for a replacer of
    positive size: it returns a frame after [n] advancements of the hand,
    [n] at most twice the number of pages; that frame was tracked, it is not
    tracked afterwards, the other tracked bits are as before, the size is one
    less, and the hand is on the slot after the victim. *)
Theorem X4_loop_victim_result (s : ClockReplacer) :
  inv s -> current_size_ s <> 0 ->
  exists (n : nat) (v : Z) s',
    (0 < n <= 2 * Z.to_nat (num_pages_ s))%nat /\
    (forall fuel, (n <= fuel)%nat ->
       Loop.Victim fuel s = Return (Some (to_frame_id v)) s') /\
    0 <= v < num_pages_ s /\ tracked s v /\
    pinned_ s' = vec_set (pinned_ s) v false /\
    vec_get (pinned_ s') v = Some false /\
    (forall i, i <> v -> vec_get (pinned_ s') i = vec_get (pinned_ s) i) /\
    current_size_ s' = current_size_ s - 1 /\
    clock_hand_ s' = (v + 1) mod num_pages_ s /\
    num_pages_ s' = num_pages_ s /\ inv s'.
Proof.
  intros Hi Hne. pose proof (inv_size_pos s Hi Hne) as Hpos.
  assert (forall (d : nat) sm s' (n0 : nat),
            (n0 <= Z.to_nat (num_pages_ s))%nat ->
            (forall k, Loop.victim_loop (n0 + k) s = Loop.victim_loop k sm) ->
            pinned_ sm = pinned_ s -> current_size_ sm = current_size_ s ->
            clock_hand_ sm = clock_hand_ s -> num_pages_ sm = num_pages_ s ->
            Z.of_nat d < num_pages_ s -> tracked s (slot s d) ->
            (forall k, Loop.victim_loop (S d + k) sm =
                       Return (Some (to_frame_id (slot s d))) s') ->
            inv s' -> num_pages_ s' = num_pages_ sm ->
            current_size_ s' = current_size_ sm - 1 ->
            pinned_ s' = vec_set (pinned_ sm) (slot s d) false ->
            clock_hand_ s' = (slot s d + 1) mod num_pages_ sm ->
            exists (n : nat) (v : Z) s',
              (0 < n <= 2 * Z.to_nat (num_pages_ s))%nat /\
              (forall fuel, (n <= fuel)%nat ->
                 Loop.Victim fuel s = Return (Some (to_frame_id v)) s') /\
              0 <= v < num_pages_ s /\ tracked s v /\
              pinned_ s' = vec_set (pinned_ s) v false /\
              vec_get (pinned_ s') v = Some false /\
              (forall i, i <> v -> vec_get (pinned_ s') i = vec_get (pinned_ s) i) /\
              current_size_ s' = current_size_ s - 1 /\
              clock_hand_ s' = (v + 1) mod num_pages_ s /\
              num_pages_ s' = num_pages_ s /\ inv s') as Hbuild.
  { intros d sm s' n0 Hn0 Hpre Hpm Hszm Hhm HNm Hd Ht Hsel Hi' HN' Hsz' Hp' Hh'.
    assert (0 <= slot s d < num_pages_ s) as Hslot by (apply Z.mod_pos_bound; lia).
    exists (n0 + S d)%nat, (slot s d), s'. split_conj; try lia.
    - intros fuel Hf. unfold Loop.Victim.
      destruct (decide (current_size_ s = 0)); [contradiction|].
      replace fuel with (n0 + (S d + (fuel - n0 - S d)))%nat by lia.
      rewrite Hpre. apply Hsel.
    - exact Ht.
    - rewrite Hp', Hpm. reflexivity.
    - rewrite Hp', Hpm. eapply vec_get_set_eq. exact Ht.
    - intros i Hi0. rewrite Hp', Hpm. apply vec_get_set_ne; lia.
    - rewrite Hh', HNm. reflexivity.
    - exact Hi'. }
  destruct (least_below (fun d => ready s (slot s d)) _ (Z.to_nat (num_pages_ s)))
    as [Hnone|(d & Hd & Hrd & Hleast)].
  - destruct (sweep (Z.to_nat (num_pages_ s)) s Hi Hpos ltac:(lia) Hnone)
      as (sm & Hloop & _ & Him & HNm & Hpm & Hszm & Hhm & Hclr & _).
    rewrite slot_full_turn in Hhm by assumption.
    destruct (first_tracked s Hi Hne) as (d & Hd & Htd & Hleast).
    assert (forall j : nat, slot sm j = slot s j) as Hslot.
    { intros j. rewrite HNm, Hhm. reflexivity. }
    destruct (select_slot d sm Him ltac:(lia) ltac:(lia))
      as (s' & Hsel & _ & Hi' & HN' & Hsz' & Hp' & Hh').
    { rewrite Hslot. split; [rewrite Hpm; exact Htd|].
      assert (0 <= clock_hand_ s < num_pages_ s) as Hh
        by (destruct Hi as [_ _ _ Hh _]; lia).
      assert (0 <= slot s d < num_pages_ s) as Hr by (apply Z.mod_pos_bound; lia).
      destruct (mod_shift_reach (clock_hand_ s) (slot s d) (num_pages_ s) Hh Hr)
        as (d0 & Hd0 & Hsl).
      rewrite <- Hsl. apply Hclr; [exact Hd0|]. rewrite Hsl. exact Htd. }
    { intros j Hj. rewrite Hslot. intros [Htj _]. apply (Hleast j Hj).
      unfold tracked. rewrite <- Hpm. exact Htj. }
    rewrite Hslot in *.
    apply (Hbuild d sm s' (Z.to_nat (num_pages_ s))); try assumption; lia.
  - destruct (select_slot d s Hi Hpos ltac:(lia) Hrd Hleast)
      as (s' & Hsel & _ & Hi' & HN' & Hsz' & Hp' & Hh').
    apply (Hbuild d s s' 0%nat); try assumption; try reflexivity; try lia.
    destruct Hrd as [Ht _]. exact Ht.
Qed.

(** X5: [Victim] of the revision with the unbounded loop returns no frame
    exactly when no frame is tracked, which is when the size is 0, and then
    leaves the replacer as it is; whenever it returns a frame, the size was
    positive. *)
Theorem X5_loop_victim_none (s : ClockReplacer) :
  inv s ->
  ((forall i, ~ tracked s i) <-> current_size_ s = 0) /\
  (current_size_ s = 0 -> forall fuel, Loop.Victim fuel s = Return None s) /\
  (forall fuel r s',
     Loop.Victim fuel s = Return r s' ->
     (r = None <-> forall i, ~ tracked s i) /\ (r = None -> s' = s)).
Proof.
  intros Hi.
  assert ((forall i, ~ tracked s i) <-> current_size_ s = 0) as Hiff.
  { split.
    - intros Hno. destruct (decide (current_size_ s = 0)) as [|Hne]; [assumption|].
      destruct (inv_tracked_exists s Hi Hne) as (i & _ & Ht). destruct (Hno i Ht).
    - intros Hz i Ht. apply (tracked_size_pos s i Hi Ht Hz). }
  split; [exact Hiff|]. split.
  - intros Hz fuel. unfold Loop.Victim.
    destruct (decide (current_size_ s = 0)); [reflexivity|contradiction].
  - intros fuel r s' H. unfold Loop.Victim in H.
    destruct (decide (current_size_ s = 0)) as [Hz|Hne].
    + injection H as <- <-. split; [|reflexivity]. split; [intros _; apply Hiff; exact Hz|reflexivity].
    + destruct (victim_loop_returns_frame _ _ _ _ H) as [f ->].
      split; [|discriminate]. split; [discriminate|].
      intros Hno. exfalso. apply Hne, Hiff. exact Hno.
Qed.

(** *** The bounded scan *)

Lemma ready_all_slots s :
  inv s -> 0 < num_pages_ s ->
  (forall j, (j < Z.to_nat (num_pages_ s))%nat -> ~ ready s (slot s j)) ->
  forall i, ~ ready s i.
Proof.
  intros Hi Hpos Hnone i Hrd.
  assert (0 <= clock_hand_ s < num_pages_ s) as Hh
    by (destruct Hi as [_ _ _ Hh _]; lia).
  assert (0 <= i < num_pages_ s) as Hr.
  { destruct Hrd as [Ht _]. apply (tracked_in_range s i Hi Ht). }
  destruct (mod_shift_reach (clock_hand_ s) i (num_pages_ s) Hh Hr) as (d0 & Hd0 & Hsl).
  apply (Hnone d0 Hd0). rewrite Hsl. exact Hrd.
Qed.

(** X6: [Victim] of the revision with the bounded scan, for a replacer of
    positive size, always returns.  It returns a frame exactly when some
    tracked frame has its reference bit clear, and that frame is the first
    such one from the hand; otherwise it returns nothing, keeps the tracked
    bits, the size and the hand, and leaves the reference bit of every
    tracked frame clear. *)
Theorem X6_scanned_victim (s : ClockReplacer) :
  inv s -> current_size_ s <> 0 ->
  match Scanned.Victim s with
  | Return (Some f) s' =>
      exists d : nat,
        Z.of_nat d < num_pages_ s /\
        f = to_frame_id ((clock_hand_ s + Z.of_nat d) mod num_pages_ s) /\
        ready s ((clock_hand_ s + Z.of_nat d) mod num_pages_ s) /\
        (forall j, (j < d)%nat ->
           ~ ready s ((clock_hand_ s + Z.of_nat j) mod num_pages_ s)) /\
        pinned_ s' =
          vec_set (pinned_ s) ((clock_hand_ s + Z.of_nat d) mod num_pages_ s) false /\
        current_size_ s' = current_size_ s - 1 /\ inv s'
  | Return None s' =>
      (forall i, ~ ready s i) /\
      pinned_ s' = pinned_ s /\ current_size_ s' = current_size_ s /\
      clock_hand_ s' = clock_hand_ s /\
      (forall i, tracked s i -> vec_get (reference_bits_ s') i = Some false) /\
      inv s'
  | UB | OutOfFuel => False
  end.
Proof.
  intros Hi Hne. pose proof (inv_size_pos s Hi Hne) as Hpos.
  destruct (least_below (fun d => ready s (slot s d)) _ (Z.to_nat (num_pages_ s)))
    as [Hnone|(d & Hd & Hrd & Hleast)].
  - destruct (two_rotations s Hi Hne Hnone)
      as (sm & d & s' & _ & Hsc & Him & _ & Hhm & Hpm & Hszm & Hclr & _).
    rewrite Hsc. split_conj; try assumption.
    apply ready_all_slots; assumption.
  - destruct (select_slot d s Hi Hpos ltac:(lia) Hrd Hleast)
      as (s' & _ & Hsel & Hi' & HN' & Hsz' & Hp' & Hh').
    unfold Scanned.Victim. destruct (decide (current_size_ s = 0)); [contradiction|].
    replace (Z.to_nat (num_pages_ s)) with (S d + (Z.to_nat (num_pages_ s) - S d))%nat by lia.
    rewrite Hsel. exists d. split_conj; try assumption; try reflexivity. lia.
Qed.

(** X7: in the revision with the bounded scan, a [Victim] that returns
    nothing although the size is positive has cleared the reference bits, so
    the next [Victim] returns a frame, and the size goes down by one. *)
Theorem X7_scanned_victim_second_call (s s1 : ClockReplacer) :
  inv s -> current_size_ s <> 0 ->
  Scanned.Victim s = Return None s1 ->
  exists f s2,
    Scanned.Victim s1 = Return (Some f) s2 /\
    current_size_ s2 = current_size_ s - 1 /\ inv s2.
Proof.
  intros Hi Hne H1. pose proof (inv_size_pos s Hi Hne) as Hpos.
  destruct (least_below (fun d => ready s (slot s d)) _ (Z.to_nat (num_pages_ s)))
    as [Hnone|(d & Hd & Hrd & Hleast)].
  2:{ destruct (select_slot d s Hi Hpos ltac:(lia) Hrd Hleast) as (s' & _ & Hsel & _).
      unfold Scanned.Victim in H1.
      destruct (decide (current_size_ s = 0)); [contradiction|].
      replace (Z.to_nat (num_pages_ s))
        with (S d + (Z.to_nat (num_pages_ s) - S d))%nat in H1 by lia.
      rewrite Hsel in H1. discriminate. }
  destruct (two_rotations s Hi Hne Hnone)
    as (sm & d & s' & _ & Hsc & Him & HNm & Hhm & Hpm & Hszm & Hclr & Hd & Htd & Hleast & _).
  rewrite Hsc in H1. injection H1 as <-.
  assert (forall j : nat, slot sm j = slot s j) as Hslot.
  { intros j. rewrite HNm, Hhm. reflexivity. }
  destruct (select_slot d sm Him ltac:(lia) ltac:(lia))
    as (s2 & _ & Hsel & Hi2 & _ & Hsz2 & _).
  { rewrite Hslot. split; [rewrite Hpm; exact Htd|apply Hclr; exact Htd]. }
  { intros j Hj. rewrite Hslot. intros [Htj _]. apply (Hleast j Hj).
    unfold tracked. rewrite <- Hpm. exact Htj. }
  exists (to_frame_id (slot sm d)), s2. split_conj; [|lia|exact Hi2].
  unfold Scanned.Victim. destruct (decide (current_size_ sm = 0)); [lia|].
  replace (Z.to_nat (num_pages_ sm))
    with (S d + (Z.to_nat (num_pages_ sm) - S d))%nat by lia.
  apply Hsel.
Qed.

(** *** Reference bits belong to tracked frames *)

Lemma pin_cases s f s' :
  inv s -> Pin f s = Return tt s' ->
  s' = s \/
  (pinned_ s' = vec_set (pinned_ s) f false /\
   reference_bits_ s' = vec_set (reference_bits_ s) f false /\ 0 <= f).
Proof.
  intros Hi H. unfold Pin in H.
  destruct (decide (f < 0 \/ num_pages_ s <= f)); [injection H as <-; left; reflexivity|].
  destruct (vec_get (pinned_ s) f) as [[|]|]; try discriminate; injection H as <-.
  - right. simpl. split_conj; try reflexivity. lia.
  - left. reflexivity.
Qed.

Lemma unpin_cases s f s' :
  inv s -> Unpin f s = Return tt s' ->
  s' = s \/
  (pinned_ s' = vec_set (pinned_ s) f true /\
   reference_bits_ s' = vec_set (reference_bits_ s) f true /\ 0 <= f /\
   vec_get (pinned_ s) f = Some false).
Proof.
  intros Hi H. unfold Unpin in H.
  destruct (decide (f < 0 \/ num_pages_ s <= f)); [injection H as <-; left; reflexivity|].
  destruct (vec_get (pinned_ s) f) as [[|]|] eqn:Hb; try discriminate; injection H as <-.
  - left. reflexivity.
  - right. simpl. split_conj; try reflexivity. lia.
Qed.

Lemma refs_tracked_step s :
  inv s -> 0 < num_pages_ s -> clock_refs_tracked s ->
  match scan_step s with
  | Skip s' | Found _ s' => clock_refs_tracked s'
  | StepUB => True
  end.
Proof.
  intros Hi Hpos Hrt. pose proof (scan_step_inv s Hi Hpos) as Hstep.
  assert (0 <= clock_hand_ s) as Hh0 by (destruct Hi as [_ _ _ Hh _]; lia).
  destruct (scan_step s) as [s'|f s'|]; [| |exact I].
  - destruct Hstep as (_ & _ & _ & Hp & _ & _ & Hrefs).
    intros i Hi1. unfold tracked. rewrite Hp.
    destruct Hrefs as [[_ Hr]|[_ Hr]]; rewrite Hr in Hi1.
    + apply Hrt. exact Hi1.
    + apply vec_get_set_cases in Hi1; [|exact Hh0].
      destruct Hi1 as [[_ ?]|[_ Hi1]]; [discriminate|]. apply Hrt. exact Hi1.
  - destruct Hstep as (_ & _ & _ & _ & _ & Hp & Hr & _).
    intros i Hi1. unfold tracked. rewrite Hp. rewrite Hr in Hi1.
    apply vec_get_set_cases in Hi1; [|exact Hh0].
    destruct Hi1 as [[_ ?]|[Hne Hi1]]; [discriminate|].
    rewrite vec_get_set_ne by auto. apply Hrt. exact Hi1.
Qed.

Lemma refs_tracked_loop fuel : forall s r s',
  inv s -> 0 < num_pages_ s -> clock_refs_tracked s ->
  Loop.victim_loop fuel s = Return r s' -> clock_refs_tracked s'.
Proof.
  induction fuel as [|fuel IH]; intros s r s' Hi Hpos Hrt H; simpl in H; [discriminate|].
  pose proof (scan_step_inv s Hi Hpos) as Hstep.
  pose proof (refs_tracked_step s Hi Hpos Hrt) as Hrt'.
  destruct (scan_step s) as [s1|f s1|]; [| |discriminate].
  - destruct Hstep as (Hi1 & HN & _). apply (IH s1 r s'); try assumption. lia.
  - injection H as _ <-. exact Hrt'.
Qed.

Lemma refs_tracked_scan fuel : forall sc s r s',
  inv s -> 0 < num_pages_ s -> clock_refs_tracked s ->
  Scanned.victim_scan fuel sc s = Return r s' -> clock_refs_tracked s'.
Proof.
  induction fuel as [|fuel IH]; intros sc s r s' Hi Hpos Hrt H; simpl in H.
  - destruct (decide (sc < num_pages_ s)); [discriminate|]. injection H as _ <-. exact Hrt.
  - destruct (decide (sc < num_pages_ s)); [|injection H as _ <-; exact Hrt].
    pose proof (scan_step_inv s Hi Hpos) as Hstep.
    pose proof (refs_tracked_step s Hi Hpos Hrt) as Hrt'.
    destruct (scan_step s) as [s1|f s1|]; [| |discriminate].
    + destruct Hstep as (Hi1 & HN & _). apply (IH (wrap_size (sc + 1)) s1 r s'); try assumption. lia.
    + injection H as _ <-. exact Hrt'.
Qed.

Lemma new_refs_tracked N : clock_refs_tracked (new N).
Proof.
  intros i Hi. exfalso. unfold vec_get in Hi. simpl in Hi.
  destruct (decide (0 <= i)); [|discriminate].
  apply lookup_replicate in Hi. destruct Hi as [? _]. discriminate.
Qed.

(** X8: in every state a replacer for [N] pages goes through, a reference
    bit is set only on a tracked frame, and the size is at most [N]. *)
Theorem X8_clock_reference_bits (N : Z) (s : ClockReplacer) :
  0 <= N < SIZE_MODULUS -> reachable N s ->
  clock_refs_tracked s /\ 0 <= current_size_ s <= N.
Proof.
  intros HN Hr. split.
  2:{ destruct (clock_reachable_inv N s HN Hr) as [[_ Hp _ _ Hs] HNs].
      pose proof (popcount_bounds (pinned_ s)). lia. }
  induction Hr as [|s f s' Hr IH H|s f s' Hr IH H|s fuel r s' Hr IH H|s r s' Hr IH H
                  |s n s' Hr IH H].
  - apply new_refs_tracked.
  - destruct (clock_reachable_inv N s HN Hr) as [Hi _].
    destruct (pin_cases s f s' Hi H) as [->|(Hp & Hrf & Hf0)]; [exact IH|].
    intros i Hi1. rewrite Hrf in Hi1. apply vec_get_set_cases in Hi1; [|exact Hf0].
    destruct Hi1 as [[_ ?]|[Hne Hi1]]; [discriminate|].
    unfold tracked. rewrite Hp, vec_get_set_ne by auto. apply IH. exact Hi1.
  - destruct (clock_reachable_inv N s HN Hr) as [Hi _].
    destruct (unpin_cases s f s' Hi H) as [->|(Hp & Hrf & Hf0 & Hb)]; [exact IH|].
    intros i Hi1. rewrite Hrf in Hi1. apply vec_get_set_cases in Hi1; [|exact Hf0].
    unfold tracked. rewrite Hp. destruct Hi1 as [[-> _]|[Hne Hi1]].
    + eapply vec_get_set_eq. exact Hb.
    + rewrite vec_get_set_ne by auto. apply IH. exact Hi1.
  - destruct (clock_reachable_inv N s HN Hr) as [Hi _].
    unfold Loop.Victim in H. destruct (decide (current_size_ s = 0)) as [|Hne].
    + injection H as _ <-. exact IH.
    + eapply refs_tracked_loop; eauto. apply inv_size_pos; assumption.
  - destruct (clock_reachable_inv N s HN Hr) as [Hi _].
    unfold Scanned.Victim in H. destruct (decide (current_size_ s = 0)) as [|Hne].
    + injection H as _ <-. exact IH.
    + eapply refs_tracked_scan; eauto. apply inv_size_pos; assumption.
  - unfold Size in H. injection H as _ <-. exact IH.
Qed.

(** *** The properties above at the states of the scenarios *)

Lemma size_modulus_3 : 0 <= 3 < SIZE_MODULUS.
Proof. unfold SIZE_MODULUS. lia. Qed.

Lemma clock_three_unpinned_reachable : reachable 3 clock_three_unpinned.
Proof.
  apply (reach_Unpin 3 (mkClock 3 0 [true; true; false] [true; true; false] 2) 2);
    [|reflexivity].
  apply (reach_Unpin 3 (mkClock 3 0 [true; false; false] [true; false; false] 1) 1);
    [|reflexivity].
  apply (reach_Unpin 3 (new 3) 0); [|reflexivity].
  apply reach_new.
Qed.

Lemma clock_three_unpinned_inv : inv clock_three_unpinned.
Proof.
  apply (clock_reachable_inv 3); [apply size_modulus_3|apply clock_three_unpinned_reachable].
Qed.

Lemma X1_clock_unpin_witness :
  inv (new 3) /\
  exists s', Unpin 0 (new 3) = Return tt s' /\ inv s' /\ Unpin 0 s' = Return tt s' /\
             tracked s' 0 /\ current_size_ s' = current_size_ (new 3) + 1.
Proof.
  assert (inv (new 3)) as Hi by (apply clock_new_inv, size_modulus_3).
  split; [exact Hi|].
  destruct (X1_clock_unpin (new 3) 0 Hi) as (s' & H1 & H2 & H3 & _ & _ & H4).
  destruct (decide (0 <= 0 < num_pages_ (new 3) /\ ~ tracked (new 3) 0)) as [_|Hno].
  - destruct H4 as (H4 & _ & H5 & _). exists s'. split_conj; assumption.
  - exfalso. apply Hno. split; [simpl; lia|]. unfold tracked. simpl. discriminate.
Defined.

Lemma X2_clock_pin_witness :
  inv clock_three_unpinned /\
  exists s', Pin 1 clock_three_unpinned = Return tt s' /\ inv s' /\
             Pin 1 s' = Return tt s' /\
             vec_get (pinned_ s') 1 = Some false /\
             current_size_ s' = current_size_ clock_three_unpinned - 1.
Proof.
  pose proof clock_three_unpinned_inv as Hi. split; [exact Hi|].
  destruct (X2_clock_pin clock_three_unpinned 1 Hi) as (s' & H1 & H2 & H3 & _ & _ & H4).
  destruct (decide (tracked clock_three_unpinned 1)) as [_|Hno].
  - destruct H4 as (H4 & _ & H5 & _). exists s'. split_conj; assumption.
  - exfalso. apply Hno. reflexivity.
Defined.

Lemma X3_clock_pin_undoes_unpin_witness :
  inv (new 3) /\ clock_refs_tracked (new 3) /\
  0 <= 0 < num_pages_ (new 3) /\ ~ tracked (new 3) 0 /\
  exists s1, Unpin 0 (new 3) = Return tt s1 /\ tracked s1 0 /\
             Pin 0 s1 = Return tt (new 3).
Proof.
  assert (inv (new 3)) as Hi by (apply clock_new_inv, size_modulus_3).
  pose proof (new_refs_tracked 3) as Hrt.
  assert (0 <= 0 < num_pages_ (new 3)) as Hr by (simpl; lia).
  assert (~ tracked (new 3) 0) as Hnt by (unfold tracked; simpl; discriminate).
  split_conj; try assumption; try (simpl; lia).
  exact (X3_clock_pin_undoes_unpin (new 3) 0 Hi Hrt Hr Hnt).
Defined.

Lemma X4_loop_victim_result_witness :
  inv clock_three_unpinned /\ current_size_ clock_three_unpinned <> 0 /\
  exists (n : nat) (v : Z) s',
    (0 < n <= 2 * Z.to_nat (num_pages_ clock_three_unpinned))%nat /\
    (forall fuel, (n <= fuel)%nat ->
       Loop.Victim fuel clock_three_unpinned = Return (Some (to_frame_id v)) s') /\
    tracked clock_three_unpinned v /\
    vec_get (pinned_ s') v = Some false /\
    current_size_ s' = current_size_ clock_three_unpinned - 1.
Proof.
  pose proof clock_three_unpinned_inv as Hi.
  assert (current_size_ clock_three_unpinned <> 0) as Hne by (simpl; lia).
  split; [exact Hi|]. split; [exact Hne|].
  destruct (X4_loop_victim_result clock_three_unpinned Hi Hne)
    as (n & v & s' & H1 & H2 & _ & H3 & _ & H4 & _ & H5 & _).
  exists n, v, s'. split; [exact H1|]. split_conj; assumption.
Defined.

Lemma X5_loop_victim_none_witness :
  inv (new 3) /\
  ((forall i, ~ tracked (new 3) i) <-> current_size_ (new 3) = 0) /\
  (forall fuel, Loop.Victim fuel (new 3) = Return None (new 3)).
Proof.
  assert (inv (new 3)) as Hi by (apply clock_new_inv, size_modulus_3).
  split; [exact Hi|].
  destruct (X5_loop_victim_none (new 3) Hi) as (H1 & H2 & _).
  split; [exact H1|]. apply H2. reflexivity.
Defined.

Lemma X6_scanned_victim_witness :
  inv clock_three_unpinned /\ current_size_ clock_three_unpinned <> 0 /\
  Scanned.Victim clock_three_unpinned
    = Return None (mkClock 3 0 [false; false; false] [true; true; true] 3) /\
  (forall i, ~ ready clock_three_unpinned i).
Proof.
  pose proof clock_three_unpinned_inv as Hi.
  assert (current_size_ clock_three_unpinned <> 0) as Hne by (simpl; lia).
  split; [exact Hi|]. split; [exact Hne|]. split; [reflexivity|].
  pose proof (X6_scanned_victim clock_three_unpinned Hi Hne) as H.
  change (Scanned.Victim clock_three_unpinned)
    with (@Return (option Z) None (mkClock 3 0 [false; false; false] [true; true; true] 3))
    in H.
  destruct H as [H _]. exact H.
Defined.

Lemma X7_scanned_victim_second_call_witness :
  inv clock_three_unpinned /\ current_size_ clock_three_unpinned <> 0 /\
  Scanned.Victim clock_three_unpinned
    = Return None (mkClock 3 0 [false; false; false] [true; true; true] 3) /\
  exists f s2,
    Scanned.Victim (mkClock 3 0 [false; false; false] [true; true; true] 3)
      = Return (Some f) s2 /\
    current_size_ s2 = current_size_ clock_three_unpinned - 1 /\ inv s2.
Proof.
  pose proof clock_three_unpinned_inv as Hi.
  assert (current_size_ clock_three_unpinned <> 0) as Hne by (simpl; lia).
  assert (Scanned.Victim clock_three_unpinned
          = Return None (mkClock 3 0 [false; false; false] [true; true; true] 3)) as H1
    by reflexivity.
  split_conj; try assumption.
  exact (X7_scanned_victim_second_call clock_three_unpinned _ Hi Hne H1).
Defined.

Lemma X8_clock_reference_bits_witness :
  0 <= 3 < SIZE_MODULUS /\ reachable 3 clock_three_unpinned /\
  clock_refs_tracked clock_three_unpinned /\
  0 <= current_size_ clock_three_unpinned <= 3.
Proof.
  pose proof size_modulus_3 as HN. pose proof clock_three_unpinned_reachable as Hr.
  split; [exact HN|]. split; [exact Hr|].
  exact (X8_clock_reference_bits 3 clock_three_unpinned HN Hr).
Defined.

End ClockFacts.

(** ** Facts on the ARC replacer *)

Section ArcFacts.
Import Arc.

(** *** The scan of [EvictInternal] *)

Lemma find_victim_Some alive r : forall sk f st rest,
  find_victim alive r = Some (sk, (f, st), rest) ->
  r = sk ++ f :: rest /\ alive !! f = Some st /\ evictable_ st = true /\
  Forall (fun g => is_evictable alive g = false) sk.
Proof.
  induction r as [|g r IH]; intros sk f st rest H; simpl in H; [discriminate|].
  assert (forall o, o = find_victim alive r ->
            match o with
            | Some (skipped, v, rest0) => Some (g :: skipped, v, rest0)
            | None => None
            end = Some (sk, (f, st), rest) ->
            is_evictable alive g = false ->
            g :: r = sk ++ f :: rest /\ alive !! f = Some st /\ evictable_ st = true /\
            Forall (fun g => is_evictable alive g = false) sk) as Hskip.
  { intros o Ho Hm Hg. destruct o as [[[sk0 [f0 st0]] rest0]|]; [|discriminate].
    injection Hm as <- <- <- <-. symmetry in Ho.
    destruct (IH _ _ _ _ Ho) as (-> & Hf & He & Hsk).
    split_conj; try assumption; [reflexivity|]. constructor; assumption. }
  destruct (alive !! g) as [stg|] eqn:Hg.
  - destruct (evictable_ stg) eqn:Heg.
    + injection H as <- <- <- <-. split_conj; try assumption; [reflexivity|constructor].
    + apply (Hskip _ eq_refl H). unfold is_evictable. rewrite Hg. exact Heg.
  - apply (Hskip _ eq_refl H). unfold is_evictable. rewrite Hg. reflexivity.
Qed.

Lemma find_victim_None alive r :
  find_victim alive r = None <-> Forall (fun g => is_evictable alive g = false) r.
Proof.
  induction r as [|g r IH]; simpl.
  - split; [constructor|reflexivity].
  - rewrite Forall_cons. unfold is_evictable at 1.
    destruct (alive !! g) as [stg|]; [destruct (evictable_ stg)|].
    + split; [discriminate|]. intros [? _]. discriminate.
    + destruct (find_victim alive r) as [[[sk v] rest]|].
      * split; [discriminate|]. intros [_ H]. apply IH in H. discriminate.
      * split; [|reflexivity]. intros _. split; [reflexivity|]. apply IH. reflexivity.
    + destruct (find_victim alive r) as [[[sk v] rest]|].
      * split; [discriminate|]. intros [_ H]. apply IH in H. discriminate.
      * split; [|reflexivity]. intros _. split; [reflexivity|]. apply IH. reflexivity.
Qed.

Lemma not_has_evictable alive l :
  ~ has_evictable alive l <-> Forall (fun g => is_evictable alive g = false) l.
Proof.
  rewrite Forall_forall. unfold has_evictable. split.
  - intros H g Hg. destruct (is_evictable alive g) eqn:E; [|reflexivity].
    exfalso. apply H. exists g. split; assumption.
  - intros H (g & Hg & E). rewrite (H g Hg) in E. discriminate.
Qed.

Lemma lru_victim_has_evictable alive l f l' :
  lru_victim alive l f l' -> has_evictable alive l.
Proof.
  intros (newer & older & -> & _ & Hf & _). exists f. split; [|exact Hf].
  apply elem_of_app. right. apply elem_of_cons. left. reflexivity.
Qed.

(** What [EvictInternal] does on side [d]: without an evictable entry in the
    list it changes nothing; otherwise it takes the first evictable entry
    from the LRU end out of the list, records its page at the MRU end of the
    ghost list of that side and in [ghost_map_], erases it from [alive_map_]
    and decrements [curr_size_]. *)
Lemma EvictInternal_spec d ghost_status s :
  match EvictInternal d ghost_status s with
  | (None, s') => s' = s /\ ~ has_evictable (alive_map_ s) (resident d s)
  | (Some f, s') =>
      exists st l',
        alive_map_ s !! f = Some st /\ evictable_ st = true /\
        lru_victim (alive_map_ s) (resident d s) f l' /\
        s' = set_size (wrap_size (curr_size_ s - 1))
               (set_alive (delete f (alive_map_ s))
                  (set_ghost (<[page_id_ st := mkStatus (page_id_ st) f false ghost_status]>
                                (ghost_map_ s))
                     (set_history d (page_id_ st :: history d s)
                        (set_resident d l' s))))
  end.
Proof.
  unfold EvictInternal.
  destruct (find_victim (alive_map_ s) (rev (resident d s)))
    as [[[sk [f st]] rest]|] eqn:E.
  - apply find_victim_Some in E. destruct E as (Hrev & Hf & He & Hsk).
    exists st, (rev (sk ++ rest)). split_conj; try assumption.
    + exists (rev rest), (rev sk). split_conj.
      * rewrite <- (rev_involutive (resident d s)), Hrev.
        rewrite rev_app_distr. simpl. rewrite <- app_assoc. reflexivity.
      * apply rev_app_distr.
      * unfold is_evictable. rewrite Hf. exact He.
      * rewrite Forall_forall in *. intros g Hg. apply Hsk.
        apply list_elem_of_In. apply in_rev. apply list_elem_of_In. exact Hg.
    + destruct d; reflexivity.
  - split; [reflexivity|]. apply not_has_evictable.
    apply find_victim_None in E. rewrite Forall_forall in *.
    intros g Hg. apply E. apply list_elem_of_In. apply in_rev.
    rewrite rev_involutive. apply list_elem_of_In. exact Hg.
Qed.

Lemma Evict_cases s r s' :
  Evict s = (r, s') ->
  let first := if decide (lsize (mru_ s) < mru_target_size_ s) then Frequent else Recent in
  (EvictInternal first (ghost_region first) s = (r, s') /\ r <> None) \/
  (~ has_evictable (alive_map_ s) (resident first s) /\
   EvictInternal (other_side first) (ghost_region (other_side first)) s = (r, s')).
Proof.
  unfold Evict. intros H.
  destruct (decide (lsize (mru_ s) < mru_target_size_ s)); simpl.
  - pose proof (EvictInternal_spec Frequent MFU_GHOST s) as Hs.
    destruct (EvictInternal Frequent MFU_GHOST s) as [[f|] s1].
    + left. injection H as <- <-. split; [reflexivity|discriminate].
    + right. destruct Hs as [-> Hn]. split; assumption.
  - pose proof (EvictInternal_spec Recent MRU_GHOST s) as Hs.
    destruct (EvictInternal Recent MRU_GHOST s) as [[f|] s1].
    + left. injection H as <- <-. split; [reflexivity|discriminate].
    + right. destruct Hs as [-> Hn]. split; assumption.
Qed.

(** C4: [Evict] takes T1 as the primary list exactly when |T1| >= p and T2
    otherwise; it removes from the primary list the first evictable entry
    counted from the LRU end, the other entries keeping their order; when the
    primary list has no evictable entry it does the same on the other list;
    it returns nothing exactly when neither list has an evictable entry. *)
Theorem C4_evict_selection (s : ArcReplacer) :
  let alive := alive_map_ s in
  let primary :=
    if decide (lsize (mru_ s) >= mru_target_size_ s) then Recent else Frequent in
  let secondary := other_side primary in
  match Evict s with
  | (Some f, s') =>
      (lru_victim alive (resident primary s) f (resident primary s') /\
       resident secondary s' = resident secondary s) \/
      (~ has_evictable alive (resident primary s) /\
       lru_victim alive (resident secondary s) f (resident secondary s') /\
       resident primary s' = resident primary s)
  | (None, s') =>
      s' = s /\ ~ has_evictable alive (mru_ s) /\ ~ has_evictable alive (mfu_ s)
  end /\
  ((Evict s).1 = None <->
   ~ has_evictable alive (mru_ s) /\ ~ has_evictable alive (mfu_ s)).
Proof.
  intros alive primary secondary.
  assert (primary = if decide (lsize (mru_ s) < mru_target_size_ s)
                    then Frequent else Recent) as Hprim.
  { unfold primary. destruct (decide (lsize (mru_ s) >= mru_target_size_ s)),
      (decide (lsize (mru_ s) < mru_target_size_ s)); try reflexivity; lia. }
  assert (forall d, ~ has_evictable alive (resident d s) ->
            ~ has_evictable alive (resident (other_side d) s) ->
            ~ has_evictable alive (mru_ s) /\ ~ has_evictable alive (mfu_ s)) as Hboth.
  { intros [|] H1 H2; simpl in *; split; assumption. }
  assert (match Evict s with
          | (Some f, s') =>
              (lru_victim alive (resident primary s) f (resident primary s') /\
               resident secondary s' = resident secondary s) \/
              (~ has_evictable alive (resident primary s) /\
               lru_victim alive (resident secondary s) f (resident secondary s') /\
               resident primary s' = resident primary s)
          | (None, s') =>
              s' = s /\ ~ has_evictable alive (mru_ s) /\ ~ has_evictable alive (mfu_ s)
          end) as Hmain.
  { destruct (Evict s) as [r s'] eqn:E. apply Evict_cases in E. simpl in E.
    rewrite <- Hprim in E. fold secondary in E.
    destruct E as [[E Hr]|[Hn E]].
    - pose proof (EvictInternal_spec primary (ghost_region primary) s) as Hs.
      rewrite E in Hs. destruct r as [f|]; [|contradiction].
      destruct Hs as (st & l' & _ & _ & Hv & ->). left.
      unfold secondary. destruct primary; simpl; split; assumption || reflexivity.
    - pose proof (EvictInternal_spec secondary (ghost_region secondary) s) as Hs.
      rewrite E in Hs. destruct r as [f|].
      + destruct Hs as (st & l' & _ & _ & Hv & ->). right.
        split; [exact Hn|]. unfold secondary in *.
        destruct primary; simpl in *; split; assumption || reflexivity.
      + destruct Hs as [-> Hn2]. split; [reflexivity|].
        apply (Hboth primary); assumption. }
  split; [exact Hmain|].
  destruct (Evict s) as [[f|] s']; simpl.
  - split; [discriminate|]. intros [H1 H2]. exfalso.
    destruct Hmain as [[Hv _]|[_ [Hv _]]]; apply lru_victim_has_evictable in Hv;
      [destruct primary | unfold secondary in Hv; destruct primary]; simpl in Hv; tauto.
  - split; [|reflexivity]. intros _. destruct Hmain as (_ & H1 & H2). split; assumption.
Qed.

(** C10: the target size [mru_target_size_] is left as it is by [Evict],
    [SetEvictable], [Remove] and [Size], whether they return or throw, and by
    [RecordAccess] on a resident hit and on a miss; only an access that hits
    a ghost list is left out. *)
Theorem C10_target_changes_on_ghost_hits_only (s : ArcReplacer) :
  mru_target_size_ (Evict s).2 = mru_target_size_ s /\
  (forall f v,
     match SetEvictable f v s with
     | Return _ s' | Throw _ s' => mru_target_size_ s' = mru_target_size_ s
     | UB => False
     end) /\
  (forall f,
     match Remove f s with
     | Return _ s' | Throw _ s' => mru_target_size_ s' = mru_target_size_ s
     | UB => False
     end) /\
  mru_target_size_ (Size s).2 = mru_target_size_ s /\
  (forall f pg,
     match alive_map_ s !! f, ghost_map_ s !! pg with
     | None, Some _ => True
     | _, _ =>
         match RecordAccess f pg s with
         | Return _ s' => mru_target_size_ s' = mru_target_size_ s
         | Throw _ _ => False
         | UB => True
         end
     end).
Proof.
  split_conj.
  - destruct (Evict s) as [r s'] eqn:E. apply Evict_cases in E. simpl in E. simpl.
    destruct E as [[E _]|[_ E]].
    + match type of E with EvictInternal ?d ?g s = _ =>
        pose proof (EvictInternal_spec d g s) as Hs end.
      rewrite E in Hs. destruct r; [destruct Hs as (? & ? & _ & _ & _ & ->)|destruct Hs as [-> _]];
        [|reflexivity].
      destruct (decide (lsize (mru_ s) < mru_target_size_ s)); reflexivity.
    + match type of E with EvictInternal ?d ?g s = _ =>
        pose proof (EvictInternal_spec d g s) as Hs end.
      rewrite E in Hs. destruct r; [destruct Hs as (? & ? & _ & _ & _ & ->)|destruct Hs as [-> _]];
        [|reflexivity].
      destruct (decide (lsize (mru_ s) < mru_target_size_ s)); reflexivity.
  - intros f v. unfold SetEvictable. destruct (alive_map_ s !! f) as [st|]; [|reflexivity].
    destruct (decide (evictable_ st = v)); reflexivity.
  - intros f. unfold Remove. destruct (alive_map_ s !! f) as [st|]; [|reflexivity].
    destruct (evictable_ st); [|reflexivity]. destruct (arc_status_ st); reflexivity.
  - reflexivity.
  - intros f pg. unfold RecordAccess.
    destruct (alive_map_ s !! f) as [st|].
    + destruct (ghost_map_ s !! pg); destruct (arc_status_ st); reflexivity.
    + destruct (ghost_map_ s !! pg); [exact I|].
      destruct (decide _); [destruct (last _); [reflexivity|exact I]|].
      destruct (decide _); [destruct (last _); [reflexivity|exact I]|reflexivity].
Qed.

(** The two ghost-hit branches do follow the formula for delta, and move the
    target by it; what they leave out is the clamping to [0, N]. *)
Lemma RecordAccess_ghost_hit_target s f pg gs s' :
  alive_map_ s !! f = None -> ghost_map_ s !! pg = Some gs ->
  RecordAccess f pg s = Return tt s' ->
  let b1 := lsize (mru_ghost_ s) in
  let b2 := lsize (mfu_ghost_ s) in
  match arc_status_ gs with
  | MRU_GHOST =>
      mru_target_size_ s' =
        wrap_size (mru_target_size_ s + (if decide (b1 >= b2) then 1 else b2 / b1))
  | MFU_GHOST =>
      mru_target_size_ s' =
        wrap_size (mru_target_size_ s - (if decide (b2 >= b1) then 1 else b1 / b2))
  | _ => s' = s
  end.
Proof.
  intros Ha Hg H. unfold RecordAccess in H. rewrite Ha, Hg in H. simpl.
  destruct (arc_status_ gs); unfold adapt_delta in H.
  - injection H as <-. reflexivity.
  - injection H as <-. reflexivity.
  - destruct (decide (lsize (mru_ghost_ s) >= lsize (mfu_ghost_ s))).
    + injection H as <-. reflexivity.
    + destruct (decide (lsize (mru_ghost_ s) = 0)); [discriminate|].
      injection H as <-. reflexivity.
  - destruct (decide (lsize (mfu_ghost_ s) >= lsize (mru_ghost_ s))).
    + injection H as <-. reflexivity.
    + destruct (decide (lsize (mfu_ghost_ s) = 0)); [discriminate|].
      injection H as <-. reflexivity.
Qed.

(** C1: the code adds delta to the target size, or subtracts it, without
    clamping.  With N = 1 and the single frame 0, two hits in B1 take the
    target to 2; a hit in B2 while the target is 0 takes it to 2^64 - 1. *)
Theorem C1_target_leaves_its_range :
  match do_calls [CallRecordAccess 0 10; CallEvict; CallRecordAccess 0 10;
                  CallEvict; CallRecordAccess 0 11; CallEvict;
                  CallRecordAccess 0 11] (new 1) with
  | Return _ s => replacer_size_ s = 1 /\ mru_target_size_ s = 2
  | _ => False
  end /\
  match do_calls [CallRecordAccess 0 10; CallRecordAccess 0 10; CallEvict;
                  CallRecordAccess 0 10] (new 1) with
  | Return _ s => replacer_size_ s = 1 /\ mru_target_size_ s = 2 ^ 64 - 1
  | _ => False
  end.
Proof. vm_compute. split; split; reflexivity. Qed.



(** *** The invariant of the resident side *)

Lemma is_evictable_insert alive f st g :
  is_evictable (<[f := st]> alive) g =
    if decide (f = g) then evictable_ st else is_evictable alive g.
Proof. unfold is_evictable. rewrite lookup_insert. destruct (decide (f = g)); reflexivity. Qed.

Lemma is_evictable_delete alive f g :
  is_evictable (delete f alive) g =
    if decide (f = g) then false else is_evictable alive g.
Proof. unfold is_evictable. rewrite lookup_delete. destruct (decide (f = g)); reflexivity. Qed.

Lemma region_insert alive f st g :
  region (<[f := st]> alive) g =
    if decide (f = g) then Some (arc_status_ st) else region alive g.
Proof. unfold region. rewrite lookup_insert. destruct (decide (f = g)); reflexivity. Qed.

Lemma region_delete alive f g :
  region (delete f alive) g = if decide (f = g) then None else region alive g.
Proof. unfold region. rewrite lookup_delete. destruct (decide (f = g)); reflexivity. Qed.

Lemma count_evictable_bounds alive l : 0 <= count_evictable alive l <= lsize l.
Proof.
  unfold lsize. induction l as [|f l IH]; simpl count_evictable; simpl length; [lia|].
  destruct (is_evictable alive f); lia.
Qed.

Lemma count_evictable_ext a1 a2 l :
  (forall f, f ∈ l -> is_evictable a1 f = is_evictable a2 f) ->
  count_evictable a1 l = count_evictable a2 l.
Proof.
  induction l as [|f l IH]; intros H; simpl; [reflexivity|].
  rewrite (H f) by (apply elem_of_cons; left; reflexivity).
  rewrite IH; [reflexivity|]. intros g Hg. apply H. apply elem_of_cons. right. exact Hg.
Qed.

Lemma count_evictable_perm alive l1 l2 :
  l1 ≡ₚ l2 -> count_evictable alive l1 = count_evictable alive l2.
Proof.
  induction 1 as [|x l l' _ IH|x y l|l l' l'' _ IH1 _ IH2]; simpl.
  - reflexivity.
  - rewrite IH. reflexivity.
  - lia.
  - congruence.
Qed.

Lemma erase_first_perm f l : f ∈ l -> l ≡ₚ f :: erase_first f l.
Proof.
  induction l as [|g l IH]; intros H.
  - apply elem_of_nil in H. contradiction.
  - simpl. destruct (decide (f = g)) as [->|Hne]; [reflexivity|].
    apply elem_of_cons in H. destruct H as [H|H]; [contradiction|].
    rewrite (IH H) at 1. apply perm_swap.
Qed.

Lemma elem_of_seqZ' m n x : m <= x < m + n -> x ∈ seqZ m n.
Proof.
  intros H. apply list_elem_of_lookup. exists (Z.to_nat (x - m)).
  apply lookup_seqZ. lia.
Qed.

(** A list of distinct frame identifiers has at most 2^32 entries. *)
Lemma distinct_frames_bound (l : list Z) :
  NoDup l -> (forall f, f ∈ l -> valid_frame f) -> lsize l <= 2 ^ 32.
Proof.
  intros Hnd Hv. unfold lsize.
  assert (l ⊆+ seqZ (- 2 ^ 31) (2 ^ 32)) as Hsub.
  { apply NoDup_submseteq; [exact Hnd|]. intros f Hf. apply elem_of_seqZ'.
    specialize (Hv f Hf). unfold valid_frame in Hv. lia. }
  apply submseteq_length in Hsub. rewrite length_seqZ in Hsub. lia.
Qed.

Lemma inv_size_bounds s : inv s -> 0 <= curr_size_ s <= 2 ^ 32.
Proof.
  intros [Hnd _ _ Hv Hs]. rewrite Hs.
  pose proof (count_evictable_bounds (alive_map_ s) (mru_ s ++ mfu_ s)).
  pose proof (distinct_frames_bound _ Hnd Hv). lia.
Qed.

Lemma resident_all d s : mru_ s ++ mfu_ s ≡ₚ resident d s ++ resident (other_side d) s.
Proof. destruct d; simpl; [reflexivity|apply Permutation_app_comm]. Qed.

Lemma arc_new_inv N : inv (new N).
Proof.
  constructor; simpl.
  - constructor.
  - intros d f. destruct d; simpl; unfold region; rewrite lookup_empty; simpl;
      split; intros H; try discriminate; apply elem_of_nil in H; contradiction.
  - intros f [st H]. rewrite lookup_empty in H. discriminate.
  - intros f H. apply elem_of_nil in H. contradiction.
  - reflexivity.
Qed.

(** The invariant does not read the ghost lists, the ghost index, the
    target size or the capacity. *)
Lemma inv_ext s s' :
  inv s -> mru_ s' = mru_ s -> mfu_ s' = mfu_ s ->
  alive_map_ s' = alive_map_ s -> curr_size_ s' = curr_size_ s -> inv s'.
Proof.
  intros [Hnd Hreg Hal Hv Hs] H1 H2 H3 H4.
  assert (forall d, resident d s' = resident d s) as Hres.
  { intros [|]; simpl; assumption. }
  constructor; rewrite ?H1, ?H2, ?H3, ?H4; try assumption.
  intros d f. rewrite Hres. apply Hreg.
Qed.

Lemma inv_not_resident s f :
  inv s -> alive_map_ s !! f = None -> f ∉ mru_ s ++ mfu_ s.
Proof.
  intros [_ Hreg _ _ _] Hf Hin. apply elem_of_app in Hin.
  assert (forall d, f ∈ resident d s -> False) as Hno.
  { intros d Hd. apply Hreg in Hd. unfold region in Hd. rewrite Hf in Hd. discriminate. }
  destruct Hin as [Hin|Hin]; [apply (Hno Recent Hin)|apply (Hno Frequent Hin)].
Qed.

Lemma inv_resident_alive s d f :
  inv s -> f ∈ resident d s ->
  exists st, alive_map_ s !! f = Some st /\ arc_status_ st = alive_region d.
Proof.
  intros [_ Hreg _ _ _] Hin. apply Hreg in Hin. unfold region in Hin.
  destruct (alive_map_ s !! f) as [st|]; [|discriminate].
  exists st. split; [reflexivity|]. simpl in Hin. congruence.
Qed.

Lemma inv_alive_resident s f st :
  inv s -> alive_map_ s !! f = Some st ->
  exists d, arc_status_ st = alive_region d /\ f ∈ resident d s.
Proof.
  intros Hi Hf. pose proof (inv_alive s Hi f (mk_is_Some _ _ Hf)) as Hin.
  apply elem_of_app in Hin. destruct Hin as [Hin|Hin].
  - exists Recent. split; [|exact Hin].
    destruct (inv_resident_alive s Recent f Hi Hin) as (st' & Hf' & Hst). congruence.
  - exists Frequent. split; [|exact Hin].
    destruct (inv_resident_alive s Frequent f Hi Hin) as (st' & Hf' & Hst). congruence.
Qed.

(** An evictable frame leaves the list of side [d] and [alive_map_]. *)
Lemma inv_remove s s' d f l' :
  inv s -> is_evictable (alive_map_ s) f = true ->
  resident d s ≡ₚ f :: l' ->
  resident d s' = l' ->
  resident (other_side d) s' = resident (other_side d) s ->
  alive_map_ s' = delete f (alive_map_ s) ->
  curr_size_ s' = wrap_size (curr_size_ s - 1) ->
  inv s' /\ curr_size_ s' = curr_size_ s - 1.
Proof.
  intros Hi Hev Hperm Hd Ho Hal Hsz.
  pose proof (inv_size_bounds s Hi) as Hb.
  destruct Hi as [Hnd Hreg Halive Hv Hs].
  assert (mru_ s ++ mfu_ s ≡ₚ f :: (mru_ s' ++ mfu_ s')) as Hall.
  { rewrite (resident_all d s), (resident_all d s'), Hd, Ho, Hperm. reflexivity. }
  assert ((f ∉ mru_ s' ++ mfu_ s') /\ NoDup (mru_ s' ++ mfu_ s')) as [Hnotin Hnd'].
  { rewrite Hall in Hnd. apply NoDup_cons in Hnd. exact Hnd. }
  assert (forall d0 g, f <> g -> g ∈ resident d0 s' <-> g ∈ resident d0 s) as Hmem.
  { intros d0 g Hne.
    assert (d0 = d \/ d0 = other_side d) as [->| ->] by (destruct d0, d; auto).
    - rewrite Hd, Hperm, elem_of_cons. split; [tauto|]. intros [?|?]; [congruence|assumption].
    - rewrite Ho. reflexivity. }
  assert (count_evictable (alive_map_ s') (mru_ s' ++ mfu_ s')
          = curr_size_ s - 1) as Hcount.
  { rewrite Hs, (count_evictable_perm _ _ _ Hall). simpl. rewrite Hev, Hal.
    rewrite (count_evictable_ext (delete f (alive_map_ s)) (alive_map_ s)); [lia|].
    intros g Hg. rewrite is_evictable_delete.
    destruct (decide (f = g)) as [->|]; [contradiction|reflexivity]. }
  assert (curr_size_ s' = curr_size_ s - 1) as Hsz'.
  { rewrite Hsz. apply wrap_size_small.
    pose proof (count_evictable_bounds (alive_map_ s') (mru_ s' ++ mfu_ s')).
    unfold SIZE_MODULUS. lia. }
  split; [|exact Hsz']. constructor.
  - exact Hnd'.
  - intros d0 g. rewrite Hal, region_delete. destruct (decide (f = g)) as [<-|Hne].
    + split; [|discriminate]. intros Hin. exfalso. apply Hnotin.
      rewrite (resident_all d0 s'). apply elem_of_app. left. exact Hin.
    + rewrite (Hmem d0 g Hne). apply Hreg.
  - intros g Hg. rewrite Hal in Hg. apply lookup_delete_is_Some in Hg.
    destruct Hg as [Hne Hg]. apply Halive in Hg. rewrite Hall in Hg.
    apply elem_of_cons in Hg. destruct Hg as [Hg|Hg]; [congruence|exact Hg].
  - intros g Hg. apply Hv. rewrite Hall. apply elem_of_cons. right. exact Hg.
  - rewrite Hsz'. symmetry. exact Hcount.
Qed.

(** A frame that is not resident enters at the MRU end of side [d]. *)
Lemma inv_push_new s d f pg :
  inv s -> alive_map_ s !! f = None -> valid_frame f ->
  inv (push_new_frame d f pg s) /\
  curr_size_ (push_new_frame d f pg s) = curr_size_ s + 1.
Proof.
  intros Hi Hf Hvf. pose proof (inv_not_resident s f Hi Hf) as Hnotin.
  destruct Hi as [Hnd Hreg Halive Hv Hs].
  set (s' := push_new_frame d f pg s).
  assert (resident d s' = f :: resident d s) as Hd by (destruct d; reflexivity).
  assert (resident (other_side d) s' = resident (other_side d) s) as Ho
    by (destruct d; reflexivity).
  assert (alive_map_ s' =
          <[f := mkStatus pg f true (alive_region d)]> (alive_map_ s)) as Hal
    by (destruct d; reflexivity).
  assert (curr_size_ s' = wrap_size (curr_size_ s + 1)) as Hsz by (destruct d; reflexivity).
  clearbody s'.
  assert (mru_ s' ++ mfu_ s' ≡ₚ f :: (mru_ s ++ mfu_ s)) as Hall.
  { rewrite (resident_all d s), (resident_all d s'), Hd, Ho. reflexivity. }
  assert (NoDup (mru_ s' ++ mfu_ s')) as Hnd'.
  { rewrite Hall. apply NoDup_cons. split; assumption. }
  assert (forall g, g ∈ mru_ s' ++ mfu_ s' -> valid_frame g) as Hv'.
  { intros g Hg. rewrite Hall in Hg. apply elem_of_cons in Hg.
    destruct Hg as [->|Hg]; [exact Hvf|apply Hv; exact Hg]. }
  assert (count_evictable (alive_map_ s') (mru_ s' ++ mfu_ s') = curr_size_ s + 1) as Hcount.
  { rewrite (count_evictable_perm _ _ _ Hall). simpl. rewrite Hal.
    rewrite is_evictable_insert. destruct (decide (f = f)); [|congruence]. simpl.
    rewrite (count_evictable_ext _ (alive_map_ s)); [lia|].
    intros g Hg. rewrite is_evictable_insert.
    destruct (decide (f = g)) as [->|]; [contradiction|reflexivity]. }
  assert (curr_size_ s' = curr_size_ s + 1) as Hsz'.
  { rewrite Hsz. apply wrap_size_small.
    pose proof (count_evictable_bounds (alive_map_ s') (mru_ s' ++ mfu_ s')).
    pose proof (count_evictable_bounds (alive_map_ s) (mru_ s ++ mfu_ s)).
    pose proof (distinct_frames_bound _ Hnd' Hv'). unfold SIZE_MODULUS. lia. }
  split; [|exact Hsz']. constructor.
  - exact Hnd'.
  - intros d0 g. rewrite Hal, region_insert. simpl.
    assert (d0 = d \/ d0 = other_side d) as [->| ->] by (destruct d0, d; auto).
    + rewrite Hd, elem_of_cons. destruct (decide (f = g)) as [<-|Hne].
      * split; [reflexivity|]. left. reflexivity.
      * rewrite <- Hreg. split; [|tauto]. intros [?|?]; [congruence|assumption].
    + rewrite Ho. destruct (decide (f = g)) as [<-|Hne]; [|apply Hreg].
      split.
      * intros Hin. exfalso. apply Hnotin. rewrite (resident_all d s).
        apply elem_of_app. right. exact Hin.
      * intros Heq. destruct d; discriminate.
  - intros g Hg. rewrite Hal in Hg. apply lookup_insert_is_Some in Hg.
    rewrite Hall. apply elem_of_cons. destruct Hg as [<-|[_ Hg]]; [left; reflexivity|].
    right. apply Halive. exact Hg.
  - exact Hv'.
  - rewrite Hsz'. symmetry. exact Hcount.
Qed.

(** The evictable flag of a resident frame is flipped. *)
Lemma inv_set_flag s s' f st v :
  inv s -> alive_map_ s !! f = Some st -> evictable_ st <> v ->
  mru_ s' = mru_ s -> mfu_ s' = mfu_ s ->
  alive_map_ s' =
    <[f := mkStatus (page_id_ st) (frame_id_ st) v (arc_status_ st)]> (alive_map_ s) ->
  curr_size_ s' = (if v then wrap_size (curr_size_ s + 1)
                   else wrap_size (curr_size_ s - 1)) ->
  inv s' /\ curr_size_ s' = curr_size_ s + (if v then 1 else -1).
Proof.
  intros Hi Hf Hne Hmru Hmfu Hal Hsz.
  assert (forall d, resident d s' = resident d s) as Hres by (intros [|]; assumption).
  pose proof (inv_alive s Hi f (mk_is_Some _ _ Hf)) as Hin.
  destruct Hi as [Hnd Hreg Halive Hv Hs].
  apply elem_of_Permutation in Hin. destruct Hin as [k Hk].
  assert (f ∉ k) as Hnotin.
  { rewrite Hk in Hnd. apply NoDup_cons in Hnd. tauto. }
  assert (count_evictable (alive_map_ s') (mru_ s' ++ mfu_ s')
          = curr_size_ s + (if v then 1 else -1)) as Hcount.
  { rewrite Hmru, Hmfu, Hs, !(count_evictable_perm _ _ _ Hk). simpl.
    rewrite Hal, is_evictable_insert. destruct (decide (f = f)); [|congruence]. simpl.
    rewrite (count_evictable_ext _ (alive_map_ s) k).
    - unfold is_evictable. rewrite Hf. destruct (evictable_ st), v; try congruence; lia.
    - intros g Hg. rewrite is_evictable_insert.
      destruct (decide (f = g)) as [->|]; [contradiction|reflexivity]. }
  assert (curr_size_ s' = curr_size_ s + (if v then 1 else -1)) as Hsz'.
  { pose proof (count_evictable_bounds (alive_map_ s') (mru_ s' ++ mfu_ s')) as Hb.
    rewrite Hmru, Hmfu in Hb. rewrite Hmru, Hmfu in Hcount.
    pose proof (distinct_frames_bound _ Hnd Hv).
    rewrite Hsz. destruct v; apply wrap_size_small; unfold SIZE_MODULUS; lia. }
  split; [|exact Hsz']. constructor.
  - rewrite Hmru, Hmfu. exact Hnd.
  - intros d g. rewrite Hres, Hal, region_insert. simpl.
    destruct (decide (f = g)) as [<-|]; [|apply Hreg].
    rewrite Hreg. unfold region. rewrite Hf. reflexivity.
  - intros g Hg. rewrite Hal in Hg. apply lookup_insert_is_Some in Hg.
    rewrite Hmru, Hmfu. apply Halive. destruct Hg as [<-|[_ Hg]]; [eauto|exact Hg].
  - rewrite Hmru, Hmfu. exact Hv.
  - rewrite Hsz'. symmetry. exact Hcount.
Qed.

(** The two lists are reordered. *)
Lemma inv_perm s s' :
  inv s -> mru_ s' ≡ₚ mru_ s -> mfu_ s' ≡ₚ mfu_ s ->
  alive_map_ s' = alive_map_ s -> curr_size_ s' = curr_size_ s -> inv s'.
Proof.
  intros [Hnd Hreg Halive Hv Hs] Hmru Hmfu Hal Hsz.
  assert (forall d, resident d s' ≡ₚ resident d s) as Hres by (intros [|]; assumption).
  constructor.
  - rewrite Hmru, Hmfu. exact Hnd.
  - intros d g. rewrite Hres, Hal. apply Hreg.
  - intros g. rewrite Hmru, Hmfu, Hal. apply Halive.
  - intros g. rewrite Hmru, Hmfu. apply Hv.
  - rewrite Hsz, Hal, Hs. apply count_evictable_perm. rewrite Hmru, Hmfu. reflexivity.
Qed.

(** A frame of T1 is moved to the MRU end of T2. *)
Lemma inv_promote s s' f st :
  inv s -> alive_map_ s !! f = Some st -> arc_status_ st = MRU ->
  mru_ s' = erase_first f (mru_ s) -> mfu_ s' = f :: mfu_ s ->
  alive_map_ s' =
    <[f := mkStatus (page_id_ st) (frame_id_ st) (evictable_ st) MFU]> (alive_map_ s) ->
  curr_size_ s' = curr_size_ s ->
  inv s' /\ f ∈ mru_ s /\ (f ∉ mru_ s').
Proof.
  intros Hi Hf Hst Hmru Hmfu Hal Hsz.
  destruct Hi as [Hnd Hreg Halive Hv Hs].
  assert (f ∈ mru_ s) as Hin.
  { apply (Hreg Recent). unfold region. rewrite Hf. simpl. congruence. }
  pose proof (erase_first_perm f (mru_ s) Hin) as Hp.
  assert (mru_ s' ++ mfu_ s' ≡ₚ mru_ s ++ mfu_ s) as Hall.
  { rewrite Hmru, Hmfu. rewrite Hp at 2. simpl. symmetry. apply Permutation_middle. }
  assert (NoDup (f :: erase_first f (mru_ s))) as Hnd1.
  { rewrite <- Hp. apply NoDup_app in Hnd. tauto. }
  apply NoDup_cons in Hnd1. destruct Hnd1 as [Hnotin _].
  assert (f ∉ mfu_ s) as Hnotin2.
  { apply NoDup_app in Hnd. destruct Hnd as (_ & Hd & _). apply Hd. exact Hin. }
  split; [|split; [exact Hin|rewrite Hmru; exact Hnotin]]. constructor.
  - rewrite Hall. exact Hnd.
  - intros d g. rewrite Hal, region_insert. simpl.
    destruct d; simpl; destruct (decide (f = g)) as [<-|Hne].
    + rewrite Hmru. split; [contradiction|discriminate].
    + rewrite Hmru. rewrite <- (Hreg Recent). simpl. rewrite Hp at 2.
      rewrite elem_of_cons. split; [tauto|]. intros [?|?]; [congruence|assumption].
    + rewrite Hmfu. split; [reflexivity|]. intros _. apply elem_of_cons. left. reflexivity.
    + rewrite Hmfu. rewrite <- (Hreg Frequent). simpl.
      rewrite elem_of_cons. split; [|tauto]. intros [?|?]; [congruence|assumption].
  - intros g Hg. rewrite Hal in Hg. apply lookup_insert_is_Some in Hg. rewrite Hall.
    apply Halive. destruct Hg as [<-|[_ Hg]]; [eauto|exact Hg].
  - intros g. rewrite Hall. apply Hv.
  - rewrite Hsz, Hs, (count_evictable_perm _ _ _ Hall). symmetry.
    apply count_evictable_ext. intros g _. rewrite Hal, is_evictable_insert.
    destruct (decide (f = g)) as [<-|]; [|reflexivity].
    unfold is_evictable. rewrite Hf. reflexivity.
Qed.

(** Every member function keeps the invariant. *)
Lemma RecordAccess_inv s f pg s' :
  inv s -> valid_frame f -> RecordAccess f pg s = Return tt s' -> inv s'.
Proof.
  intros Hi Hvf H. unfold RecordAccess in H.
  destruct (alive_map_ s !! f) as [st|] eqn:Hf.
  - destruct (arc_status_ st) eqn:Hst; injection H as <-; try exact Hi.
    + eapply inv_promote; eauto.
    + destruct (inv_alive_resident s f st Hi Hf) as (d & Hd & Hin).
      assert (d = Frequent) as -> by (destruct d; simpl in Hd; congruence).
      apply (inv_perm s); try reflexivity; [exact Hi|]. simpl.
      symmetry. apply erase_first_perm. exact Hin.
  - destruct (ghost_map_ s !! pg) as [gs|].
    + destruct (arc_status_ gs); try (injection H as <-; exact Hi).
      * destruct (adapt_delta _ _) as [delta|]; [|discriminate]. injection H as <-.
        apply inv_push_new; [|exact Hf|exact Hvf]. apply (inv_ext s); auto.
      * destruct (adapt_delta _ _) as [delta|]; [|discriminate]. injection H as <-.
        apply inv_push_new; [|exact Hf|exact Hvf]. apply (inv_ext s); auto.
    + destruct (decide _); [|destruct (decide _)].
      * destruct (last _); [|discriminate]. injection H as <-.
        apply inv_push_new; [|exact Hf|exact Hvf]. apply (inv_ext s); auto.
      * destruct (last _); [|discriminate]. injection H as <-.
        apply inv_push_new; [|exact Hf|exact Hvf]. apply (inv_ext s); auto.
      * injection H as <-. apply inv_push_new; assumption.
Qed.

Lemma lru_victim_perm alive l f l' : lru_victim alive l f l' -> l ≡ₚ f :: l'.
Proof.
  intros (newer & older & -> & -> & _). symmetry. apply Permutation_middle.
Qed.

Lemma EvictInternal_inv d g s r s' :
  inv s -> EvictInternal d g s = (r, s') ->
  inv s' /\ curr_size_ s' = curr_size_ s - (match r with Some _ => 1 | None => 0 end).
Proof.
  intros Hi H. pose proof (EvictInternal_spec d g s) as Hs. rewrite H in Hs.
  destruct r as [f|].
  - destruct Hs as (st & l' & Hf & He & Hv & ->).
    apply (inv_remove s _ d f l'); try assumption.
    + unfold is_evictable. rewrite Hf. exact He.
    + apply (lru_victim_perm _ _ _ _ Hv).
    + destruct d; reflexivity.
    + destruct d; reflexivity.
    + destruct d; reflexivity.
    + destruct d; reflexivity.
  - destruct Hs as [-> _]. split; [exact Hi|lia].
Qed.

Lemma Evict_inv s r s' :
  inv s -> Evict s = (r, s') ->
  inv s' /\ curr_size_ s' = curr_size_ s - (match r with Some _ => 1 | None => 0 end).
Proof.
  intros Hi H. apply Evict_cases in H. simpl in H.
  destruct H as [[H _]|[_ H]]; eapply EvictInternal_inv; eauto.
Qed.

Lemma SetEvictable_inv s f v s' :
  inv s -> SetEvictable f v s = Return tt s' -> inv s'.
Proof.
  intros Hi H. unfold SetEvictable in H.
  destruct (alive_map_ s !! f) as [st|] eqn:Hf; [|discriminate].
  destruct (decide (evictable_ st = v)); injection H as <-; [exact Hi|].
  eapply inv_set_flag; eauto.
Qed.

Lemma Remove_inv s f s' :
  inv s -> Remove f s = Return tt s' ->
  inv s' /\ curr_size_ s' = curr_size_ s - (match alive_map_ s !! f with Some _ => 1 | None => 0 end).
Proof.
  intros Hi H. unfold Remove in H.
  destruct (alive_map_ s !! f) as [st|] eqn:Hf; [|injection H as <-; split; [exact Hi|lia]].
  destruct (evictable_ st) eqn:He; [|discriminate]. injection H as <-.
  destruct (inv_alive_resident s f st Hi Hf) as (d & Hd & Hin).
  apply (inv_remove s _ d f (erase_first f (resident d s))); try assumption.
  - unfold is_evictable. rewrite Hf. exact He.
  - apply erase_first_perm. exact Hin.
  - rewrite Hd. destruct d; reflexivity.
  - rewrite Hd. destruct d; reflexivity.
  - rewrite Hd. destruct d; reflexivity.
  - rewrite Hd. destruct d; reflexivity.
Qed.

Lemma arc_reachable_inv N s : reachable N s -> inv s /\ replacer_size_ s = N.
Proof.
  induction 1 as [|s f pg s' _ [IH IHN] Hvf H|s f v s' _ [IH IHN] H|s f s' _ [IH IHN] H
                 |s r s' _ [IH IHN] H|s f v msg s' _ [IH IHN] H|s f msg s' _ [IH IHN] H].
  - split; [apply arc_new_inv|reflexivity].
  - split; [eapply RecordAccess_inv; eauto|].
    unfold RecordAccess in H. rewrite <- IHN.
    repeat match type of H with
           | context [match ?x with _ => _ end] => destruct x
           end; try discriminate; injection H as <-; try reflexivity.
  - split; [eapply SetEvictable_inv; eauto|].
    unfold SetEvictable in H. rewrite <- IHN.
    repeat match type of H with
           | context [match ?x with _ => _ end] => destruct x
           end; try discriminate; injection H as <-; try reflexivity.
  - split; [eapply Remove_inv; eauto|].
    unfold Remove in H. rewrite <- IHN.
    repeat match type of H with
           | context [match ?x with _ => _ end] => destruct x
           end; try discriminate; injection H as <-; try reflexivity.
  - split; [eapply Evict_inv; eauto|].
    apply Evict_cases in H. simpl in H. rewrite <- IHN.
    destruct H as [[H _]|[_ H]];
      match type of H with EvictInternal ?d ?g s = _ =>
        pose proof (EvictInternal_spec d g s) as Hs end;
      rewrite H in Hs;
      (destruct r; [destruct Hs as (? & ? & _ & _ & _ & ->)|destruct Hs as [-> _]]);
      try reflexivity;
      destruct (decide (lsize (mru_ s) < mru_target_size_ s)); reflexivity.
  - unfold SetEvictable in H. destruct (alive_map_ s !! f).
    + destruct (decide _); discriminate.
    + injection H as _ <-. split; assumption.
  - unfold Remove in H. destruct (alive_map_ s !! f) as [st|]; [|discriminate].
    destruct (evictable_ st); [discriminate|]. injection H as _ <-. split; assumption.
Qed.

(** *** Ghost hits after an eviction, resident hits, pinning and removal *)

(** A hit in a ghost list that holds an entry never divides by zero. *)
Lemma adapt_delta_hit hit other :
  0 < hit -> exists delta, adapt_delta hit other = Some delta.
Proof.
  intros H. unfold adapt_delta. destruct (decide (hit >= other)); [eauto|].
  destruct (decide (hit = 0)); [lia|eauto].
Qed.

(** C5: when [Evict] returns frame [f], whose page [p] is thereby put at the
    MRU end of the ghost list of the side [f] was on and in [ghost_map_], an
    access
    [RecordAccess(f', p)] for a frame [f'] that is not resident is a ghost
    hit: it takes [p] back out of the ghost list and of [ghost_map_], puts
    [f'] at the MRU end of T2 with [evictable_ = true] and region T2, and
    increments [curr_size_]. *)
Theorem C5_ghost_round_trip (s s' : ArcReplacer) (f f' : Z) (st : FrameStatus) :
  inv s -> valid_frame f' ->
  Evict s = (Some f, s') ->
  alive_map_ s !! f = Some st ->
  alive_map_ s' !! f' = None ->
  exists d s'',
    f ∈ resident d s /\
    history d s' = page_id_ st :: history d s /\
    ghost_map_ s' !! page_id_ st =
      Some (mkStatus (page_id_ st) f false (ghost_region d)) /\
    RecordAccess f' (page_id_ st) s' = Return tt s'' /\
    mru_ s'' = mru_ s' /\ mfu_ s'' = f' :: mfu_ s' /\
    alive_map_ s'' = <[f' := mkStatus (page_id_ st) f' true MFU]> (alive_map_ s') /\
    mru_ghost_ s'' = mru_ghost_ s /\ mfu_ghost_ s'' = mfu_ghost_ s /\
    ghost_map_ s'' = delete (page_id_ st) (ghost_map_ s') /\
    curr_size_ s'' = curr_size_ s' + 1 /\
    inv s''.
Proof.
  intros Hi Hvf HE Hf Hfresh.
  destruct (Evict_inv s _ _ Hi HE) as [Hi' _].
  pose proof (inv_size_bounds s' Hi') as Hb.
  apply Evict_cases in HE. simpl in HE.
  assert (exists d, EvictInternal d (ghost_region d) s = (Some f, s')) as [d Hd].
  { destruct HE as [[HE _]|[_ HE]]; eexists; exact HE. }
  clear HE. pose proof (EvictInternal_spec d (ghost_region d) s) as Hs.
  rewrite Hd in Hs. destruct Hs as (st0 & l' & Hf0 & _ & Hv & Hs').
  assert (st0 = st) as -> by congruence.
  assert (f ∈ resident d s) as Hin.
  { destruct Hv as (newer & older & -> & _). apply elem_of_app. right.
    apply elem_of_cons. left. reflexivity. }
  assert (history d s' = page_id_ st :: history d s) as Hh
    by (rewrite Hs'; destruct d; reflexivity).
  assert (ghost_map_ s' !! page_id_ st =
          Some (mkStatus (page_id_ st) f false (ghost_region d))) as Hg.
  { rewrite Hs'. destruct d; simpl; apply lookup_insert_eq. }
  assert (history (other_side d) s' = history (other_side d) s) as Ho
    by (rewrite Hs'; destruct d; reflexivity).
  assert (exists s'', RecordAccess f' (page_id_ st) s' = Return tt s'' /\
            mru_ s'' = mru_ s' /\ mfu_ s'' = f' :: mfu_ s' /\
            alive_map_ s'' =
              <[f' := mkStatus (page_id_ st) f' true MFU]> (alive_map_ s') /\
            mru_ghost_ s'' = mru_ghost_ s /\ mfu_ghost_ s'' = mfu_ghost_ s /\
            ghost_map_ s'' = delete (page_id_ st) (ghost_map_ s') /\
            curr_size_ s'' = wrap_size (curr_size_ s' + 1)) as (s'' & HR & Hrest).
  { unfold RecordAccess. rewrite Hfresh, Hg. clear Hs' Hd.
    destruct d; simpl in *; rewrite Hh.
    - destruct (adapt_delta_hit (lsize (page_id_ st :: mru_ghost_ s))
                                (lsize (mfu_ghost_ s'))) as [delta ->].
      { unfold lsize. simpl. lia. }
      eexists. split; [reflexivity|]. simpl.
      destruct (decide (page_id_ st = page_id_ st)); [|congruence].
      split_conj; try reflexivity. exact Ho.
    - destruct (adapt_delta_hit (lsize (page_id_ st :: mfu_ghost_ s))
                                (lsize (mru_ghost_ s'))) as [delta ->].
      { unfold lsize. simpl. lia. }
      eexists. split; [reflexivity|]. simpl.
      destruct (decide (page_id_ st = page_id_ st)); [|congruence].
      split_conj; try reflexivity. exact Ho. }
  destruct Hrest as (H1 & H2 & H3 & H4 & H5 & H6 & H7).
  exists d, s''. split_conj; try assumption.
  - rewrite H7. apply wrap_size_small. unfold SIZE_MODULUS. lia.
  - eapply RecordAccess_inv; eauto.
Qed.

(** C6: an access to a resident frame is decided by the frame alone.  A
    frame of T1 is taken out of T1 and put at the MRU end of T2, its region
    becoming T2; a frame of T2 is moved to the MRU end of T2.  The target
    size, [curr_size_], the evictable flags, the stored page and the ghost
    side stay as they are, and the page given with the call plays no part. *)
Theorem C6_resident_hit (s : ArcReplacer) (f pg : Z) :
  inv s -> f ∈ mru_ s ++ mfu_ s ->
  exists st s',
    alive_map_ s !! f = Some st /\
    RecordAccess f pg s = Return tt s' /\
    (forall pg', RecordAccess f pg' s = Return tt s') /\
    inv s' /\
    mru_target_size_ s' = mru_target_size_ s /\
    curr_size_ s' = curr_size_ s /\
    (forall g, is_evictable (alive_map_ s') g = is_evictable (alive_map_ s) g) /\
    (forall g, page_id_ <$> alive_map_ s' !! g = page_id_ <$> alive_map_ s !! g) /\
    mru_ghost_ s' = mru_ghost_ s /\ mfu_ghost_ s' = mfu_ghost_ s /\
    ghost_map_ s' = ghost_map_ s /\
    match arc_status_ st with
    | MRU =>
        f ∈ mru_ s /\ mru_ s' = erase_first f (mru_ s) /\ (f ∉ mru_ s') /\
        mfu_ s' = f :: mfu_ s /\ region (alive_map_ s') f = Some MFU
    | MFU =>
        f ∈ mfu_ s /\ mru_ s' = mru_ s /\
        mfu_ s' = f :: erase_first f (mfu_ s) /\ (f ∉ erase_first f (mfu_ s)) /\
        alive_map_ s' = alive_map_ s
    | _ => False
    end.
Proof.
  intros Hi Hin.
  assert (exists d, f ∈ resident d s) as [d Hd].
  { apply elem_of_app in Hin. destruct Hin; [exists Recent|exists Frequent]; assumption. }
  destruct (inv_resident_alive s d f Hi Hd) as (st & Hf & Hst).
  exists st. unfold RecordAccess. rewrite Hf, Hst.
  destruct d; simpl in *.
  - eexists. split; [reflexivity|]. split; [reflexivity|]. split; [reflexivity|].
    edestruct (inv_promote s) as (Hi' & _ & Hnotin); [exact Hi|exact Hf|exact Hst|..];
      [| | | |split; [exact Hi'|]]; try reflexivity.
    simpl in *. split_conj; try reflexivity; try assumption.
    + intros g. rewrite is_evictable_insert. destruct (decide (f = g)) as [<-|]; [|reflexivity].
      unfold is_evictable. rewrite Hf. reflexivity.
    + intros g. rewrite lookup_insert. destruct (decide (f = g)) as [<-|]; [|reflexivity].
      rewrite Hf. reflexivity.
    + rewrite region_insert. destruct (decide (f = f)); [reflexivity|congruence].
  - eexists. split; [reflexivity|]. split; [reflexivity|]. split; [reflexivity|].
    pose proof (erase_first_perm f (mfu_ s) Hd) as Hp.
    split.
    { apply (inv_perm s); try reflexivity; [exact Hi|]. simpl. symmetry. exact Hp. }
    simpl. split_conj; try reflexivity; try assumption.
    destruct Hi as [Hnd _ _ _ _]. apply NoDup_app in Hnd. destruct Hnd as (_ & _ & Hnd).
    rewrite Hp in Hnd. apply NoDup_cons in Hnd. tauto.
Qed.

(** C7: [SetEvictable] throws exactly when the frame is not in [alive_map_],
    and then leaves the replacer as it was.  For a resident frame it changes
    nothing when the flag already has the value asked for; otherwise it sets
    the flag and moves [curr_size_] by +1 or by -1, and touches neither the
    region of the frame nor any list. *)
Theorem C7_set_evictable (s : ArcReplacer) (f : Z) (v : bool) :
  inv s ->
  match alive_map_ s !! f with
  | None => exists msg, SetEvictable f v s = Throw msg s
  | Some st =>
      if decide (evictable_ st = v) then SetEvictable f v s = Return tt s
      else
        exists s',
          SetEvictable f v s = Return tt s' /\
          inv s' /\
          alive_map_ s' =
            <[f := mkStatus (page_id_ st) (frame_id_ st) v (arc_status_ st)]>
              (alive_map_ s) /\
          curr_size_ s' = curr_size_ s + (if v then 1 else -1) /\
          mru_ s' = mru_ s /\ mfu_ s' = mfu_ s /\
          mru_ghost_ s' = mru_ghost_ s /\ mfu_ghost_ s' = mfu_ghost_ s /\
          ghost_map_ s' = ghost_map_ s /\
          mru_target_size_ s' = mru_target_size_ s /\
          replacer_size_ s' = replacer_size_ s
  end.
Proof.
  intros Hi. unfold SetEvictable. destruct (alive_map_ s !! f) as [st|] eqn:Hf.
  - destruct (decide (evictable_ st = v)) as [|Hne]; [reflexivity|].
    eexists. split; [reflexivity|].
    edestruct (inv_set_flag s) as [Hi' Hsz]; [exact Hi|exact Hf|exact Hne|..];
      [| | | |split; [exact Hi'|split; [|split; [exact Hsz|]]]]; try reflexivity.
    split_conj; reflexivity.
  - eexists. reflexivity.
Qed.

(** C8: [Remove] does nothing for a frame that is not in [alive_map_]; for a
    resident frame that is not evictable it throws and leaves the replacer
    as it was; a resident evictable frame is taken out of its list and out of
    [alive_map_], [curr_size_] is decremented, and the ghost lists and
    [ghost_map_] are not touched. *)
Theorem C8_remove (s : ArcReplacer) (f : Z) :
  inv s ->
  match alive_map_ s !! f with
  | None => Remove f s = Return tt s
  | Some st =>
      if evictable_ st then
        exists d s',
          Remove f s = Return tt s' /\
          inv s' /\
          arc_status_ st = alive_region d /\ f ∈ resident d s /\
          resident d s' = erase_first f (resident d s) /\
          resident (other_side d) s' = resident (other_side d) s /\
          (f ∉ mru_ s' ++ mfu_ s') /\
          alive_map_ s' = delete f (alive_map_ s) /\
          curr_size_ s' = curr_size_ s - 1 /\
          mru_ghost_ s' = mru_ghost_ s /\ mfu_ghost_ s' = mfu_ghost_ s /\
          ghost_map_ s' = ghost_map_ s /\
          mru_target_size_ s' = mru_target_size_ s
      else exists msg, Remove f s = Throw msg s
  end.
Proof.
  intros Hi. destruct (alive_map_ s !! f) as [st|] eqn:Hf.
  2:{ unfold Remove. rewrite Hf. reflexivity. }
  destruct (evictable_ st) eqn:He.
  2:{ unfold Remove. rewrite Hf, He. eexists. reflexivity. }
  destruct (inv_alive_resident s f st Hi Hf) as (d & Hd & Hin).
  destruct (Remove f s) as [[] s'| |] eqn:HR;
    unfold Remove in HR; rewrite Hf, He in HR; try discriminate.
  destruct (Remove_inv s f s' Hi) as [Hi' Hsz].
  { unfold Remove. rewrite Hf, He. exact HR. }
  rewrite Hf in Hsz. injection HR as HR.
  exists d, s'. split; [reflexivity|]. split; [exact Hi'|].
  split; [exact Hd|]. split; [exact Hin|].
  assert (alive_map_ s' = delete f (alive_map_ s)) as Hal.
  { rewrite <- HR, Hd. destruct d; reflexivity. }
  split_conj; try assumption; try (rewrite <- HR, Hd; destruct d; reflexivity).
  intros Hin'. apply (inv_not_resident s' f Hi'); [|exact Hin'].
  rewrite Hal. apply lookup_delete_eq.
Qed.

(** *** The claims at the states of the scenarios *)

Lemma arc_one_frame_reachable : reachable 4 arc_one_frame.
Proof.
  apply (reach_RecordAccess 4 (new 4) 0 100); [apply reach_new| |reflexivity].
  unfold valid_frame. lia.
Qed.

Lemma arc_two_frames_reachable : reachable 2 arc_two_frames.
Proof.
  apply (reach_RecordAccess 2
           (mkArc [0] [] [] [] (<[0 := mkStatus 10 0 true MRU]> ∅) ∅ 1 0 2) 1 11);
    [|unfold valid_frame; lia|reflexivity].
  apply (reach_RecordAccess 2 (new 2) 0 10); [apply reach_new| |reflexivity].
  unfold valid_frame. lia.
Qed.

Lemma C5_ghost_round_trip_witness :
  inv arc_one_frame /\ valid_frame 0 /\
  Evict arc_one_frame = (Some 0, arc_one_ghost) /\
  alive_map_ arc_one_frame !! 0 = Some (mkStatus 100 0 true MRU) /\
  alive_map_ arc_one_ghost !! 0 = None /\
  exists d s'',
    0 ∈ resident d arc_one_frame /\
    history d arc_one_ghost = 100 :: history d arc_one_frame /\
    ghost_map_ arc_one_ghost !! 100 = Some (mkStatus 100 0 false (ghost_region d)) /\
    RecordAccess 0 100 arc_one_ghost = Return tt s'' /\
    mru_ s'' = mru_ arc_one_ghost /\ mfu_ s'' = 0 :: mfu_ arc_one_ghost /\
    alive_map_ s'' = <[0 := mkStatus 100 0 true MFU]> (alive_map_ arc_one_ghost) /\
    mru_ghost_ s'' = mru_ghost_ arc_one_frame /\
    mfu_ghost_ s'' = mfu_ghost_ arc_one_frame /\
    ghost_map_ s'' = delete 100 (ghost_map_ arc_one_ghost) /\
    curr_size_ s'' = curr_size_ arc_one_ghost + 1 /\
    inv s''.
Proof.
  assert (inv arc_one_frame) as Hi by apply (arc_reachable_inv 4), arc_one_frame_reachable.
  assert (valid_frame 0) as Hv by (unfold valid_frame; lia).
  assert (Evict arc_one_frame = (Some 0, arc_one_ghost)) as HE by reflexivity.
  assert (alive_map_ arc_one_frame !! 0 = Some (mkStatus 100 0 true MRU)) as Hf
    by reflexivity.
  assert (alive_map_ arc_one_ghost !! 0 = None) as Hn by reflexivity.
  split_conj; try assumption.
  exact (C5_ghost_round_trip arc_one_frame arc_one_ghost 0 0 _ Hi Hv HE Hf Hn).
Defined.

Lemma C6_resident_hit_witness :
  inv arc_two_frames /\ 0 ∈ mru_ arc_two_frames ++ mfu_ arc_two_frames /\
  exists st s',
    alive_map_ arc_two_frames !! 0 = Some st /\
    RecordAccess 0 10 arc_two_frames = Return tt s' /\
    (forall pg', RecordAccess 0 pg' arc_two_frames = Return tt s') /\
    inv s' /\
    mru_target_size_ s' = mru_target_size_ arc_two_frames /\
    curr_size_ s' = curr_size_ arc_two_frames /\
    (forall g, is_evictable (alive_map_ s') g =
               is_evictable (alive_map_ arc_two_frames) g) /\
    (forall g, page_id_ <$> alive_map_ s' !! g =
               page_id_ <$> alive_map_ arc_two_frames !! g) /\
    mru_ghost_ s' = mru_ghost_ arc_two_frames /\
    mfu_ghost_ s' = mfu_ghost_ arc_two_frames /\
    ghost_map_ s' = ghost_map_ arc_two_frames /\
    match arc_status_ st with
    | MRU =>
        0 ∈ mru_ arc_two_frames /\ mru_ s' = erase_first 0 (mru_ arc_two_frames) /\
        (0 ∉ mru_ s') /\
        mfu_ s' = 0 :: mfu_ arc_two_frames /\ region (alive_map_ s') 0 = Some MFU
    | MFU =>
        0 ∈ mfu_ arc_two_frames /\ mru_ s' = mru_ arc_two_frames /\
        mfu_ s' = 0 :: erase_first 0 (mfu_ arc_two_frames) /\
        (0 ∉ erase_first 0 (mfu_ arc_two_frames)) /\
        alive_map_ s' = alive_map_ arc_two_frames
    | _ => False
    end.
Proof.
  assert (inv arc_two_frames) as Hi by apply (arc_reachable_inv 2), arc_two_frames_reachable.
  assert (0 ∈ mru_ arc_two_frames ++ mfu_ arc_two_frames) as Hin.
  { simpl. apply elem_of_cons. right. apply elem_of_cons. left. reflexivity. }
  split_conj; try assumption.
  exact (C6_resident_hit arc_two_frames 0 10 Hi Hin).
Defined.

Lemma C7_set_evictable_witness :
  inv arc_one_frame /\
  exists s',
    SetEvictable 0 false arc_one_frame = Return tt s' /\
    inv s' /\
    alive_map_ s' =
      <[0 := mkStatus 100 0 false MRU]> (alive_map_ arc_one_frame) /\
    curr_size_ s' = curr_size_ arc_one_frame + -1 /\
    mru_ s' = mru_ arc_one_frame /\ mfu_ s' = mfu_ arc_one_frame /\
    mru_ghost_ s' = mru_ghost_ arc_one_frame /\
    mfu_ghost_ s' = mfu_ghost_ arc_one_frame /\
    ghost_map_ s' = ghost_map_ arc_one_frame /\
    mru_target_size_ s' = mru_target_size_ arc_one_frame /\
    replacer_size_ s' = replacer_size_ arc_one_frame.
Proof.
  assert (inv arc_one_frame) as Hi by apply (arc_reachable_inv 4), arc_one_frame_reachable.
  split; [exact Hi|].
  exact (C7_set_evictable arc_one_frame 0 false Hi).
Defined.

Lemma C8_remove_witness :
  inv arc_one_frame /\
  exists d s',
    Remove 0 arc_one_frame = Return tt s' /\
    inv s' /\
    MRU = alive_region d /\ 0 ∈ resident d arc_one_frame /\
    resident d s' = erase_first 0 (resident d arc_one_frame) /\
    resident (other_side d) s' = resident (other_side d) arc_one_frame /\
    (0 ∉ mru_ s' ++ mfu_ s') /\
    alive_map_ s' = delete 0 (alive_map_ arc_one_frame) /\
    curr_size_ s' = curr_size_ arc_one_frame - 1 /\
    mru_ghost_ s' = mru_ghost_ arc_one_frame /\
    mfu_ghost_ s' = mfu_ghost_ arc_one_frame /\
    ghost_map_ s' = ghost_map_ arc_one_frame /\
    mru_target_size_ s' = mru_target_size_ arc_one_frame.
Proof.
  assert (inv arc_one_frame) as Hi by apply (arc_reachable_inv 4), arc_one_frame_reachable.
  split; [exact Hi|].
  exact (C8_remove arc_one_frame 0 Hi).
Defined.

End ArcFacts.

(** ** The capacity of the ARC replacer and its ghost lists *)

Section ArcCapacity.
Import Arc.

Lemma lsize_cons {A} (x : A) l : lsize (x :: l) = lsize l + 1.
Proof. unfold lsize. simpl length. lia. Qed.

Lemma lsize_snoc {A} (x : A) l : lsize (l ++ [x]) = lsize l + 1.
Proof. unfold lsize. rewrite length_app. simpl. lia. Qed.

Lemma lsize_nonneg {A} (l : list A) : 0 <= lsize l.
Proof. unfold lsize. lia. Qed.

Lemma lsize_erase_first f l : f ∈ l -> lsize (erase_first f l) = lsize l - 1.
Proof.
  intros H. apply erase_first_perm in H. apply Permutation_length in H.
  unfold lsize. rewrite H. simpl length. lia.
Qed.

Lemma lsize_erase_first_le f l : lsize (erase_first f l) <= lsize l.
Proof.
  unfold lsize. induction l as [|g l IH]; simpl; [lia|].
  destruct (decide (f = g)); simpl; lia.
Qed.

Lemma elem_of_erase_first_ne p q l : q <> p -> q ∈ l -> q ∈ erase_first p l.
Proof.
  intros Hne. induction l as [|g l IH]; intros H; simpl; [exact H|].
  apply elem_of_cons in H. destruct (decide (p = g)) as [<-|Hpg].
  - destruct H as [?|?]; [congruence|assumption].
  - apply elem_of_cons. destruct H as [?|?]; [left; assumption|right; auto].
Qed.

Lemma lru_victim_lsize alive l f l' :
  lru_victim alive l f l' -> lsize l' = lsize l - 1.
Proof.
  intros H. apply lru_victim_perm in H. apply Permutation_length in H.
  unfold lsize. rewrite H. simpl length. lia.
Qed.

Lemma ghost_entries_erase s s' x :
  ghost_entries s ->
  ghost_map_ s' = delete x (ghost_map_ s) ->
  (forall d q, q <> x -> q ∈ history d s -> q ∈ history d s') ->
  ghost_entries s'.
Proof.
  intros Hg Hm Hh p st Hp. rewrite Hm in Hp. apply lookup_delete_Some in Hp.
  destruct Hp as [Hne Hp]. destruct (Hg p st Hp) as (Hpg & d & Hd & Hin).
  split; [exact Hpg|]. exists d. split; [exact Hd|]. apply Hh; auto.
Qed.

Lemma ghost_entries_same s s' :
  ghost_entries s -> ghost_map_ s' = ghost_map_ s ->
  mru_ghost_ s' = mru_ghost_ s -> mfu_ghost_ s' = mfu_ghost_ s ->
  ghost_entries s'.
Proof.
  intros Hg Hm H1 H2 p st Hp. rewrite Hm in Hp.
  destruct (Hg p st Hp) as (Hpg & d & Hd & Hin).
  split; [exact Hpg|]. exists d. split; [exact Hd|].
  destruct d; simpl in *; congruence.
Qed.

Lemma new_capacity N : 0 <= N -> arc_capacity (new N).
Proof.
  intros HN. constructor; simpl; unfold lsize; simpl; try lia.
  intros p st H. unfold new in H. simpl in H. rewrite lookup_empty in H. discriminate.
Qed.

(** What a ghost hit finds: the status in [ghost_map_] names the list that
    holds the page, so that list is not empty. *)
Lemma ghost_hit_side s pg gs :
  ghost_entries s -> ghost_map_ s !! pg = Some gs ->
  page_id_ gs = pg /\
  exists d, arc_status_ gs = ghost_region d /\ pg ∈ history d s /\
            0 < lsize (history d s).
Proof.
  intros Hg H. destruct (Hg pg gs H) as (Hpg & d & Hd & Hin).
  split; [exact Hpg|]. exists d. split_conj; try assumption.
  apply elem_of_Permutation in Hin. destruct Hin as [k Hk].
  apply Permutation_length in Hk. unfold lsize. rewrite Hk. simpl. lia.
Qed.

Lemma RecordAccess_capacity s f pg s' :
  inv s -> arc_capacity s ->
  0 <= replacer_size_ s -> 2 * replacer_size_ s < SIZE_MODULUS ->
  RecordAccess f pg s = Return tt s' ->
  arc_capacity s' /\ replacer_size_ s' = replacer_size_ s.
Proof.
  intros Hi [Hc1 Hc2 Hg] HN0 HN H.
  pose proof (lsize_nonneg (mru_ s)). pose proof (lsize_nonneg (mfu_ s)).
  pose proof (lsize_nonneg (mru_ghost_ s)). pose proof (lsize_nonneg (mfu_ghost_ s)).
  unfold RecordAccess in H.
  destruct (alive_map_ s !! f) as [st|] eqn:Hf.
  - destruct (inv_alive_resident s f st Hi Hf) as (d & Hd & Hin).
    destruct (arc_status_ st) eqn:Hst; destruct d; try discriminate;
      injection H as <-; (split; [|reflexivity]); simpl in Hin.
    + pose proof (lsize_erase_first f (mru_ s) Hin).
      constructor; simpl; rewrite ?lsize_cons; try lia.
      apply (ghost_entries_same s); auto.
    + pose proof (lsize_erase_first f (mfu_ s) Hin).
      constructor; simpl; rewrite ?lsize_cons; try lia.
      apply (ghost_entries_same s); auto.
  - destruct (ghost_map_ s !! pg) as [gs|] eqn:Hgs.
    + destruct (ghost_hit_side s pg gs Hg Hgs) as (Hpg & d & Hd & Hin & Hpos).
      rewrite Hd, Hpg in H.
      destruct d; simpl in H, Hin, Hpos.
      * destruct (adapt_delta _ _) as [delta|]; [|discriminate]. injection H as <-.
        pose proof (lsize_erase_first pg (mru_ghost_ s) Hin).
        split; [|reflexivity]. constructor; simpl; rewrite ?lsize_cons; try lia.
        eapply (ghost_entries_erase s _ pg); [exact Hg|reflexivity|].
        intros [|] q Hne Hq; simpl in *; [apply elem_of_erase_first_ne|]; assumption.
      * destruct (adapt_delta _ _) as [delta|]; [|discriminate]. injection H as <-.
        pose proof (lsize_erase_first pg (mfu_ghost_ s) Hin).
        split; [|reflexivity]. constructor; simpl; rewrite ?lsize_cons; try lia.
        eapply (ghost_entries_erase s _ pg); [exact Hg|reflexivity|].
        intros [|] q Hne Hq; simpl in *; [|apply elem_of_erase_first_ne]; assumption.
    + rewrite (wrap_size_small (lsize (mru_ s) + lsize (mru_ghost_ s))) in H
        by (unfold SIZE_MODULUS in *; lia).
      rewrite (wrap_size_small (lsize (mru_ s) + lsize (mfu_ s) + lsize (mru_ghost_ s)
                                + lsize (mfu_ghost_ s))) in H
        by (unfold SIZE_MODULUS in *; lia).
      rewrite (wrap_size_small (2 * replacer_size_ s)) in H
        by (unfold SIZE_MODULUS in *; lia).
      destruct (decide (lsize (mru_ s) + lsize (mru_ghost_ s) = replacer_size_ s)) as [He|Hne].
      * destruct (last (mru_ghost_ s)) as [x|] eqn:Hl; [|discriminate].
        injection H as <-. apply last_Some in Hl. destruct Hl as [older Hl].
        rewrite Hl, removelast_last. rewrite Hl, lsize_snoc in Hc1, Hc2, He.
        split; [|reflexivity]. constructor; simpl; rewrite ?lsize_cons; try lia.
        eapply (ghost_entries_erase s _ x); [exact Hg|reflexivity|].
        intros [|] q Hq Hin; simpl in *; [|assumption].
        rewrite Hl in Hin. apply elem_of_app in Hin. destruct Hin as [?|Hin]; [assumption|].
        apply list_elem_of_singleton in Hin. congruence.
      * destruct (decide (lsize (mru_ s) + lsize (mfu_ s) + lsize (mru_ghost_ s)
                          + lsize (mfu_ghost_ s) = 2 * replacer_size_ s)) as [He|Hne2].
        -- destruct (last (mfu_ghost_ s)) as [x|] eqn:Hl; [|discriminate].
           injection H as <-. apply last_Some in Hl. destruct Hl as [older Hl].
           rewrite Hl, removelast_last. rewrite Hl, lsize_snoc in Hc2, He.
           split; [|reflexivity]. constructor; simpl; rewrite ?lsize_cons; try lia.
           eapply (ghost_entries_erase s _ x); [exact Hg|reflexivity|].
           intros [|] q Hq Hin; simpl in *; [assumption|].
           rewrite Hl in Hin. apply elem_of_app in Hin. destruct Hin as [?|Hin]; [assumption|].
           apply list_elem_of_singleton in Hin. congruence.
        -- injection H as <-. split; [|reflexivity].
           constructor; simpl; rewrite ?lsize_cons; try lia.
           apply (ghost_entries_same s); auto.
Qed.

Lemma EvictInternal_capacity d s r s' :
  arc_capacity s -> EvictInternal d (ghost_region d) s = (r, s') ->
  arc_capacity s' /\ replacer_size_ s' = replacer_size_ s.
Proof.
  intros [Hc1 Hc2 Hg] H. pose proof (EvictInternal_spec d (ghost_region d) s) as Hs.
  rewrite H in Hs. destruct r as [f|].
  2:{ destruct Hs as [-> _]. split; [constructor; assumption|reflexivity]. }
  destruct Hs as (st & l' & _ & _ & Hv & ->).
  pose proof (lru_victim_lsize _ _ _ _ Hv) as Hl.
  split; [|destruct d; reflexivity]. constructor.
  - destruct d; simpl in *; rewrite ?lsize_cons; lia.
  - destruct d; simpl in *; rewrite ?lsize_cons; lia.
  - intros p gs Hp.
    assert (ghost_map_
              (set_size (wrap_size (curr_size_ s - 1))
                 (set_alive (delete f (alive_map_ s))
                    (set_ghost
                       (<[page_id_ st := mkStatus (page_id_ st) f false (ghost_region d)]>
                          (ghost_map_ s))
                       (set_history d (page_id_ st :: history d s)
                          (set_resident d l' s)))))
            = <[page_id_ st := mkStatus (page_id_ st) f false (ghost_region d)]>
                (ghost_map_ s)) as Hm by (destruct d; reflexivity).
    rewrite Hm in Hp. apply lookup_insert_Some in Hp.
    destruct Hp as [[<- <-]|[Hne Hp]].
    + split; [reflexivity|]. exists d. split; [reflexivity|].
      destruct d; simpl; apply elem_of_cons; left; reflexivity.
    + destruct (Hg p gs Hp) as (Hpg & d0 & Hd0 & Hin).
      split; [exact Hpg|]. exists d0. split; [exact Hd0|].
      destruct d, d0; simpl in *; try assumption; apply elem_of_cons; right; assumption.
Qed.

Lemma Evict_capacity s r s' :
  arc_capacity s -> Evict s = (r, s') ->
  arc_capacity s' /\ replacer_size_ s' = replacer_size_ s.
Proof.
  intros Hc H. apply Evict_cases in H. simpl in H.
  destruct H as [[H _]|[_ H]]; eapply EvictInternal_capacity; eauto.
Qed.

Lemma SetEvictable_capacity s f v s' :
  arc_capacity s -> SetEvictable f v s = Return tt s' ->
  arc_capacity s' /\ replacer_size_ s' = replacer_size_ s.
Proof.
  intros [Hc1 Hc2 Hg] H. unfold SetEvictable in H.
  destruct (alive_map_ s !! f) as [st|]; [|discriminate].
  destruct (decide (evictable_ st = v)); injection H as <-;
    (split; [|reflexivity]); constructor; assumption.
Qed.

Lemma Remove_capacity s f s' :
  arc_capacity s -> Remove f s = Return tt s' ->
  arc_capacity s' /\ replacer_size_ s' = replacer_size_ s.
Proof.
  intros [Hc1 Hc2 Hg] H. unfold Remove in H.
  pose proof (lsize_erase_first_le f (mru_ s)).
  pose proof (lsize_erase_first_le f (mfu_ s)).
  destruct (alive_map_ s !! f) as [st|].
  2:{ injection H as <-. split; [constructor; assumption|reflexivity]. }
  destruct (evictable_ st); [|discriminate]. injection H as <-.
  destruct (arc_status_ st); (split; [|reflexivity]); constructor; simpl; try lia;
    try assumption; apply (ghost_entries_same s); auto.
Qed.

Lemma arc_reachable_capacity N s :
  0 <= N -> 2 * N < SIZE_MODULUS -> reachable N s -> arc_capacity s.
Proof.
  intros HN0 HN Hr.
  induction Hr as [|s f pg s' Hr IH Hvf H|s f v s' Hr IH H|s f s' Hr IH H
                  |s r s' Hr IH H|s f v msg s' Hr IH H|s f msg s' Hr IH H].
  - apply new_capacity. exact HN0.
  - destruct (arc_reachable_inv N s Hr) as [Hi HNs].
    eapply RecordAccess_capacity; eauto; rewrite HNs; assumption.
  - eapply SetEvictable_capacity; eauto.
  - eapply Remove_capacity; eauto.
  - eapply Evict_capacity; eauto.
  - unfold SetEvictable in H. destruct (alive_map_ s !! f).
    + destruct (decide _); discriminate.
    + injection H as _ <-. exact IH.
  - unfold Remove in H. destruct (alive_map_ s !! f) as [st|]; [|discriminate].
    destruct (evictable_ st); [discriminate|]. injection H as _ <-. exact IH.
Qed.

(** X9: in every state an ARC replacer goes through, each resident frame is
    once in T1 or T2, the keys of [alive_map_] are the frames of the two
    lists, each in the list its region names, and [Size] returns the number
    of evictable resident frames, which is at most |T1| + |T2|. *)
Theorem X9_arc_resident_invariant (N : Z) (s : ArcReplacer) :
  reachable N s ->
  NoDup (mru_ s ++ mfu_ s) /\
  (forall f, f ∈ mru_ s <-> region (alive_map_ s) f = Some MRU) /\
  (forall f, f ∈ mfu_ s <-> region (alive_map_ s) f = Some MFU) /\
  (forall f, is_Some (alive_map_ s !! f) <-> f ∈ mru_ s ++ mfu_ s) /\
  (Size s).1 = count_evictable (alive_map_ s) (mru_ s ++ mfu_ s) /\
  0 <= (Size s).1 <= lsize (mru_ s) + lsize (mfu_ s) /\
  replacer_size_ s = N.
Proof.
  intros Hr. destruct (arc_reachable_inv N s Hr) as [Hi HN].
  pose proof Hi as [Hnd Hreg Hal Hv Hs].
  pose proof (count_evictable_bounds (alive_map_ s) (mru_ s ++ mfu_ s)) as Hb.
  unfold lsize in Hb. rewrite length_app in Hb.
  split_conj; try assumption.
  - intros f. apply (Hreg Recent).
  - intros f. apply (Hreg Frequent).
  - intros f. split; [apply Hal|]. intros Hin. apply elem_of_app in Hin.
    destruct Hin as [Hin|Hin];
      [destruct (inv_resident_alive s Recent f Hi Hin) as (st & Hf & _)
      |destruct (inv_resident_alive s Frequent f Hi Hin) as (st & Hf & _)]; eauto.
  - simpl. rewrite Hs. lia.
  - simpl. rewrite Hs. unfold lsize. lia.
Qed.

(** X10: in every state an ARC replacer for [N] frames goes through,
    |T1| + |B1| <= N and |T1| + |T2| + |B1| + |B2| <= 2N, and every entry of
    [ghost_map_] has its page in the ghost list its status names. *)
Theorem X10_arc_capacity_invariant (N : Z) (s : ArcReplacer) :
  0 <= N -> 2 * N < SIZE_MODULUS -> reachable N s ->
  lsize (mru_ s) + lsize (mru_ghost_ s) <= N /\
  lsize (mru_ s) + lsize (mfu_ s) + lsize (mru_ghost_ s) + lsize (mfu_ghost_ s) <= 2 * N /\
  (forall p st, ghost_map_ s !! p = Some st ->
     page_id_ st = p /\
     ((arc_status_ st = MRU_GHOST /\ p ∈ mru_ghost_ s) \/
      (arc_status_ st = MFU_GHOST /\ p ∈ mfu_ghost_ s))).
Proof.
  intros HN0 HN Hr. destruct (arc_reachable_inv N s Hr) as [_ HNs].
  destruct (arc_reachable_capacity N s HN0 HN Hr) as [Hc1 Hc2 Hg].
  rewrite HNs in *. split_conj; try assumption.
  intros p st Hp. destruct (Hg p st Hp) as (Hpg & d & Hd & Hin).
  split; [exact Hpg|]. destruct d; [left|right]; split; assumption.
Qed.

(** X11: [RecordAccess] returns, without undefined behaviour, in every
    reachable state in which the frame is resident or fewer than [N] frames
    are; afterwards the frame is resident and at the MRU end of T1 or T2. *)
Theorem X11_record_access_safe (N : Z) (s : ArcReplacer) (f pg : Z) :
  0 <= N -> 2 * N < SIZE_MODULUS -> reachable N s -> valid_frame f ->
  is_Some (alive_map_ s !! f) \/ lsize (mru_ s) + lsize (mfu_ s) < N ->
  exists s',
    RecordAccess f pg s = Return tt s' /\
    ((head (mru_ s') = Some f /\ region (alive_map_ s') f = Some MRU) \/
     (head (mfu_ s') = Some f /\ region (alive_map_ s') f = Some MFU)).
Proof.
  intros HN0 HN Hr Hvf Hroom.
  destruct (arc_reachable_inv N s Hr) as [Hi HNs].
  destruct (arc_reachable_capacity N s HN0 HN Hr) as [Hc1 Hc2 Hg].
  pose proof (lsize_nonneg (mru_ s)). pose proof (lsize_nonneg (mfu_ s)).
  pose proof (lsize_nonneg (mru_ghost_ s)). pose proof (lsize_nonneg (mfu_ghost_ s)).
  rewrite HNs in *.
  assert (forall d s0,
            head (resident d (push_new_frame d f pg s0)) = Some f /\
            region (alive_map_ (push_new_frame d f pg s0)) f = Some (alive_region d))
    as Hpush.
  { intros d s0. destruct d; simpl; rewrite region_insert;
      (destruct (decide (f = f)); [|congruence]); split; reflexivity. }
  unfold RecordAccess. destruct (alive_map_ s !! f) as [st|] eqn:Hf.
  - destruct (inv_alive_resident s f st Hi Hf) as (d & Hd & Hin).
    rewrite Hd. destruct d; simpl; eexists; (split; [reflexivity|]); right; simpl.
    + rewrite region_insert. destruct (decide (f = f)); [|congruence]. split; reflexivity.
    + split; [reflexivity|]. unfold region. rewrite Hf. simpl. rewrite Hd. reflexivity.
  - destruct Hroom as [[? ?]|Hroom]; [discriminate|].
    destruct (ghost_map_ s !! pg) as [gs|] eqn:Hgs.
    + destruct (ghost_hit_side s pg gs Hg Hgs) as (Hpg & d & Hd & Hin & Hpos).
      rewrite Hd. destruct d; simpl in *.
      * destruct (adapt_delta_hit (lsize (mru_ghost_ s)) (lsize (mfu_ghost_ s)) Hpos)
          as [delta ->].
        eexists. split; [reflexivity|]. right. apply (Hpush Frequent).
      * destruct (adapt_delta_hit (lsize (mfu_ghost_ s)) (lsize (mru_ghost_ s)) Hpos)
          as [delta ->].
        eexists. split; [reflexivity|]. right. apply (Hpush Frequent).
    + rewrite (wrap_size_small (lsize (mru_ s) + lsize (mru_ghost_ s)))
        by (unfold SIZE_MODULUS in *; lia).
      rewrite (wrap_size_small (lsize (mru_ s) + lsize (mfu_ s) + lsize (mru_ghost_ s)
                                + lsize (mfu_ghost_ s)))
        by (unfold SIZE_MODULUS in *; lia).
      rewrite (wrap_size_small (2 * replacer_size_ s))
        by (unfold SIZE_MODULUS in *; lia).
      destruct (decide (lsize (mru_ s) + lsize (mru_ghost_ s) = replacer_size_ s)) as [He|Hne].
      * destruct (last (mru_ghost_ s)) as [x|] eqn:Hl.
        -- eexists. split; [reflexivity|]. left. apply (Hpush Recent).
        -- apply last_None in Hl. rewrite Hl in He. unfold lsize in He at 2.
           simpl in He. lia.
      * destruct (decide (lsize (mru_ s) + lsize (mfu_ s) + lsize (mru_ghost_ s)
                          + lsize (mfu_ghost_ s) = 2 * replacer_size_ s)) as [He|Hne2].
        -- destruct (last (mfu_ghost_ s)) as [x|] eqn:Hl.
           ++ eexists. split; [reflexivity|]. left. apply (Hpush Recent).
           ++ apply last_None in Hl. rewrite Hl in He. unfold lsize in He at 4.
              simpl in He. lia.
        -- eexists. split; [reflexivity|]. left. apply (Hpush Recent).
Qed.

(** X12: an access to a frame that is not resident, when it returns, makes
    the frame resident with the page of the call, evictable, at the MRU end
    of T2 if the page was in [ghost_map_] and of T1 otherwise; the other
    resident list is as before and [curr_size_] is one more. *)
Theorem X12_record_access_new_frame (N : Z) (s s' : ArcReplacer) (f pg : Z) :
  0 <= N -> 2 * N < SIZE_MODULUS -> reachable N s -> valid_frame f ->
  alive_map_ s !! f = None ->
  RecordAccess f pg s = Return tt s' ->
  let d := match ghost_map_ s !! pg with Some _ => Frequent | None => Recent end in
  alive_map_ s' = <[f := mkStatus pg f true (alive_region d)]> (alive_map_ s) /\
  resident d s' = f :: resident d s /\
  resident (other_side d) s' = resident (other_side d) s /\
  curr_size_ s' = curr_size_ s + 1 /\
  (Size s').1 = (Size s).1 + 1.
Proof.
  intros HN0 HN Hr Hvf Hf H d.
  destruct (arc_reachable_inv N s Hr) as [Hi HNs].
  destruct (arc_reachable_capacity N s HN0 HN Hr) as [_ _ Hg].
  assert (forall d0 s0,
            mru_ s0 = mru_ s -> mfu_ s0 = mfu_ s -> alive_map_ s0 = alive_map_ s ->
            curr_size_ s0 = curr_size_ s ->
            alive_map_ (push_new_frame d0 f pg s0)
              = <[f := mkStatus pg f true (alive_region d0)]> (alive_map_ s) /\
            resident d0 (push_new_frame d0 f pg s0) = f :: resident d0 s /\
            resident (other_side d0) (push_new_frame d0 f pg s0)
              = resident (other_side d0) s /\
            curr_size_ (push_new_frame d0 f pg s0) = curr_size_ s + 1 /\
            (Size (push_new_frame d0 f pg s0)).1 = (Size s).1 + 1) as Hpush.
  { intros d0 s0 H1 H2 H3 H4.
    assert (inv s0) as Hi0 by (apply (inv_ext s); assumption).
    destruct (inv_push_new s0 d0 f pg Hi0) as [_ Hsz]; [congruence|exact Hvf|].
    rewrite H4 in Hsz. split_conj; try exact Hsz.
    - destruct d0; simpl; rewrite H3; reflexivity.
    - destruct d0; simpl; congruence.
    - destruct d0; simpl; congruence. }
  unfold RecordAccess in H. rewrite Hf in H. subst d.
  destruct (ghost_map_ s !! pg) as [gs|] eqn:Hgs.
  - destruct (ghost_hit_side s pg gs Hg Hgs) as (_ & d & Hd & _).
    rewrite Hd in H. destruct d; simpl in H;
      (destruct (adapt_delta _ _); [|discriminate]); injection H as <-;
      apply (Hpush Frequent); reflexivity.
  - destruct (decide _); [|destruct (decide _)];
      try (destruct (last _); [|discriminate]); injection H as <-;
      apply (Hpush Recent); reflexivity.
Qed.

(** X13: a ghost hit (the frame is not resident, the page is in
    [ghost_map_]) returns in every reachable state, without a division by
    zero.  It takes the page out of the ghost list its status names and out
    of [ghost_map_], and moves the target size by delta, upwards for B1 and
    downwards for B2, modulo 2^64, where delta is 1 when the list hit is at
    least as long as the other one and the quotient of the two lengths
    otherwise; delta is at least 1. *)
Theorem X13_ghost_hit (N : Z) (s : ArcReplacer) (f pg : Z) (gs : FrameStatus) :
  0 <= N -> 2 * N < SIZE_MODULUS -> reachable N s ->
  alive_map_ s !! f = None -> ghost_map_ s !! pg = Some gs ->
  exists d delta s',
    arc_status_ gs = ghost_region d /\
    RecordAccess f pg s = Return tt s' /\
    delta = (if decide (lsize (history d s) >= lsize (history (other_side d) s))
             then 1
             else lsize (history (other_side d) s) / lsize (history d s)) /\
    1 <= delta /\
    mru_target_size_ s' =
      wrap_size (mru_target_size_ s
                 + match d with Recent => delta | Frequent => - delta end) /\
    history d s' = erase_first pg (history d s) /\
    lsize (history d s') = lsize (history d s) - 1 /\
    history (other_side d) s' = history (other_side d) s /\
    ghost_map_ s' = delete pg (ghost_map_ s).
Proof.
  intros HN0 HN Hr Hf Hgs.
  destruct (arc_reachable_capacity N s HN0 HN Hr) as [_ _ Hg].
  destruct (ghost_hit_side s pg gs Hg Hgs) as (Hpg & d & Hd & Hin & Hpos).
  pose proof (lsize_erase_first pg (history d s) Hin) as Hlen.
  assert (1 <= (if decide (lsize (history d s) >= lsize (history (other_side d) s))
                then 1
                else lsize (history (other_side d) s) / lsize (history d s))) as Hdelta.
  { destruct (decide _); [lia|]. apply Z.div_le_lower_bound; lia. }
  exists d, (if decide (lsize (history d s) >= lsize (history (other_side d) s))
             then 1
             else lsize (history (other_side d) s) / lsize (history d s)).
  unfold RecordAccess. rewrite Hf, Hgs, Hd, Hpg.
  destruct d; simpl in *; unfold adapt_delta.
  - destruct (decide (lsize (mru_ghost_ s) >= lsize (mfu_ghost_ s))).
    + eexists. split_conj; try reflexivity; assumption.
    + destruct (decide (lsize (mru_ghost_ s) = 0)); [lia|].
      eexists. split_conj; try reflexivity; assumption.
  - destruct (decide (lsize (mfu_ghost_ s) >= lsize (mru_ghost_ s))).
    + eexists. split_conj; try reflexivity; assumption.
    + destruct (decide (lsize (mfu_ghost_ s) = 0)); [lia|].
      eexists. split_conj; try reflexivity; assumption.
Qed.

(** X14: on a miss of all four lists that returns, the ghost side is
    trimmed by one entry at most: the LRU entry of B1 when |T1| + |B1| = N,
    else the LRU entry of B2 when the four lists hold 2N entries, else
    nothing; the entry dropped leaves [ghost_map_] too, and the target size
    is not touched. *)
Theorem X14_miss_trimming (N : Z) (s s' : ArcReplacer) (f pg : Z) :
  0 <= N -> 2 * N < SIZE_MODULUS -> reachable N s ->
  alive_map_ s !! f = None -> ghost_map_ s !! pg = None ->
  RecordAccess f pg s = Return tt s' ->
  mru_target_size_ s' = mru_target_size_ s /\
  if decide (lsize (mru_ s) + lsize (mru_ghost_ s) = N) then
    exists x, mru_ghost_ s = mru_ghost_ s' ++ [x] /\
              ghost_map_ s' = delete x (ghost_map_ s) /\
              mfu_ghost_ s' = mfu_ghost_ s
  else if decide (lsize (mru_ s) + lsize (mfu_ s) + lsize (mru_ghost_ s)
                  + lsize (mfu_ghost_ s) = 2 * N) then
    exists x, mfu_ghost_ s = mfu_ghost_ s' ++ [x] /\
              ghost_map_ s' = delete x (ghost_map_ s) /\
              mru_ghost_ s' = mru_ghost_ s
  else
    mru_ghost_ s' = mru_ghost_ s /\ mfu_ghost_ s' = mfu_ghost_ s /\
    ghost_map_ s' = ghost_map_ s.
Proof.
  intros HN0 HN Hr Hf Hgs H.
  destruct (arc_reachable_inv N s Hr) as [_ HNs].
  destruct (arc_reachable_capacity N s HN0 HN Hr) as [Hc1 Hc2 _].
  pose proof (lsize_nonneg (mru_ s)). pose proof (lsize_nonneg (mfu_ s)).
  pose proof (lsize_nonneg (mru_ghost_ s)). pose proof (lsize_nonneg (mfu_ghost_ s)).
  rewrite HNs in *. unfold RecordAccess in H. rewrite Hf, Hgs in H.
  rewrite (wrap_size_small (lsize (mru_ s) + lsize (mru_ghost_ s))) in H
    by (unfold SIZE_MODULUS in *; lia).
  rewrite (wrap_size_small (lsize (mru_ s) + lsize (mfu_ s) + lsize (mru_ghost_ s)
                            + lsize (mfu_ghost_ s))) in H
    by (unfold SIZE_MODULUS in *; lia).
  rewrite (wrap_size_small (2 * replacer_size_ s)) in H
    by (unfold SIZE_MODULUS in *; lia).
  rewrite HNs in H.
  destruct (decide (lsize (mru_ s) + lsize (mru_ghost_ s) = N)).
  - destruct (last (mru_ghost_ s)) as [x|] eqn:Hl; [|discriminate].
    injection H as <-. apply last_Some in Hl. destruct Hl as [older Hl].
    split; [reflexivity|]. exists x. simpl. rewrite Hl, removelast_last.
    split_conj; reflexivity.
  - destruct (decide _).
    + destruct (last (mfu_ghost_ s)) as [x|] eqn:Hl; [|discriminate].
      injection H as <-. apply last_Some in Hl. destruct Hl as [older Hl].
      split; [reflexivity|]. exists x. simpl. rewrite Hl, removelast_last.
      split_conj; reflexivity.
    + injection H as <-. split_conj; reflexivity.
Qed.

(** *** How the operations compose *)

(** X15: [SetEvictable] is idempotent: after a call that returns, the same
    call again returns and changes nothing. *)
Theorem X15_set_evictable_idempotent (s s' : ArcReplacer) (f : Z) (v : bool) :
  SetEvictable f v s = Return tt s' ->
  SetEvictable f v s' = Return tt s' /\
  (evictable_ <$> alive_map_ s' !! f) = Some v.
Proof.
  intros H. unfold SetEvictable in H |- *.
  destruct (alive_map_ s !! f) as [st|] eqn:Hf; [|discriminate].
  destruct (decide (evictable_ st = v)) as [He|Hne]; injection H as <-.
  - rewrite Hf. destruct (decide (evictable_ st = v)); [|contradiction].
    split; [reflexivity|]. simpl. congruence.
  - simpl. rewrite lookup_insert_eq. simpl.
    destruct (decide (v = v)); [|congruence]. split; reflexivity.
Qed.

Lemma pinned_status s s1 f :
  SetEvictable f false s = Return tt s1 ->
  exists st, alive_map_ s1 !! f = Some st /\ evictable_ st = false.
Proof.
  intros H. unfold SetEvictable in H.
  destruct (alive_map_ s !! f) as [st|] eqn:Hf; [|discriminate].
  destruct (decide (evictable_ st = false)) as [He|Hne]; injection H as <-.
  - exists st. split; assumption.
  - eexists. simpl. rewrite lookup_insert_eq. split; reflexivity.
Qed.

Lemma Evict_result s r s' :
  Evict s = (r, s') ->
  match r with
  | Some f =>
      exists st d l',
        alive_map_ s !! f = Some st /\ evictable_ st = true /\
        lru_victim (alive_map_ s) (resident d s) f l' /\
        s' = set_size (wrap_size (curr_size_ s - 1))
               (set_alive (delete f (alive_map_ s))
                  (set_ghost
                     (<[page_id_ st := mkStatus (page_id_ st) f false (ghost_region d)]>
                        (ghost_map_ s))
                     (set_history d (page_id_ st :: history d s)
                        (set_resident d l' s))))
  | None =>
      s' = s /\ ~ has_evictable (alive_map_ s) (mru_ s) /\
      ~ has_evictable (alive_map_ s) (mfu_ s)
  end.
Proof.
  intros H. apply Evict_cases in H. simpl in H.
  destruct H as [[H Hr]|[Hn H]].
  - match type of H with EvictInternal ?d ?g s = _ =>
      pose proof (EvictInternal_spec d g s) as Hs; rewrite H in Hs;
      destruct r as [f|]; [|contradiction];
      destruct Hs as (st & l' & Hf & He & Hv & Hs'); exists st, d, l'
    end. split_conj; assumption.
  - match type of H with EvictInternal ?d ?g s = _ =>
      pose proof (EvictInternal_spec d g s) as Hs; rewrite H in Hs;
      destruct r as [f|];
      [destruct Hs as (st & l' & Hf & He & Hv & Hs'); exists st, d, l';
       split_conj; assumption|]
    end.
    destruct Hs as [-> Hn2]. split; [reflexivity|].
    destruct (decide (lsize (mru_ s) < mru_target_size_ s)); simpl in *; split; assumption.
Qed.

(** X16: a frame that [SetEvictable(f, false)] has pinned is never the
    victim of the next [Evict], and it stays resident with its status. *)
Theorem X16_pinned_frame_is_not_evicted
  (s s1 s2 : ArcReplacer) (f : Z) (r : option Z) :
  SetEvictable f false s = Return tt s1 ->
  Evict s1 = (r, s2) ->
  r <> Some f /\
  is_Some (alive_map_ s2 !! f) /\
  alive_map_ s2 !! f = alive_map_ s1 !! f /\
  is_evictable (alive_map_ s2) f = false.
Proof.
  intros H1 H2. destruct (pinned_status s s1 f H1) as (st & Hst & He).
  assert (is_evictable (alive_map_ s1) f = false) as Hne.
  { unfold is_evictable. rewrite Hst. exact He. }
  apply Evict_result in H2. destruct r as [g|].
  - destruct H2 as (stg & d & l' & Hg & Heg & _ & ->).
    assert (g <> f) as Hgf.
    { intros ->. rewrite Hst in Hg. injection Hg as <-. congruence. }
    assert (alive_map_
              (set_size (wrap_size (curr_size_ s1 - 1))
                 (set_alive (delete g (alive_map_ s1))
                    (set_ghost
                       (<[page_id_ stg := mkStatus (page_id_ stg) g false (ghost_region d)]>
                          (ghost_map_ s1))
                       (set_history d (page_id_ stg :: history d s1)
                          (set_resident d l' s1)))))
            = delete g (alive_map_ s1)) as Hm by (destruct d; reflexivity).
    unfold is_evictable. rewrite Hm, lookup_delete_ne by exact Hgf. rewrite Hst.
    split_conj; eauto. congruence.
  - destruct H2 as [-> _]. rewrite Hst. split_conj; eauto.
Qed.

Lemma count_evictable_zero alive l :
  count_evictable alive l = 0 <-> ~ has_evictable alive l.
Proof.
  rewrite not_has_evictable. induction l as [|g l IH]; simpl.
  - split; [constructor|reflexivity].
  - pose proof (count_evictable_bounds alive l). rewrite Forall_cons.
    destruct (is_evictable alive g); split.
    + lia.
    + intros [? _]. discriminate.
    + intros H0. split; [reflexivity|]. apply IH. lia.
    + intros [_ H0]. apply IH in H0. lia.
Qed.

(** X17: when [Evict] returns frame [f] in a state satisfying the
    invariant, [f] was resident and evictable; afterwards it is in neither
    list and not in [alive_map_], [curr_size_] is one less, the target size
    and the capacity are as before, [SetEvictable] on [f] throws and
    [Remove] of [f] does nothing. *)
Theorem X17_evicted_frame_is_gone (s s' : ArcReplacer) (f : Z) :
  inv s -> Evict s = (Some f, s') ->
  is_evictable (alive_map_ s) f = true /\
  f ∈ mru_ s ++ mfu_ s /\
  alive_map_ s' = delete f (alive_map_ s) /\
  (f ∉ mru_ s' ++ mfu_ s') /\
  curr_size_ s' = curr_size_ s - 1 /\
  mru_target_size_ s' = mru_target_size_ s /\
  replacer_size_ s' = replacer_size_ s /\
  (forall v, exists msg, SetEvictable f v s' = Throw msg s') /\
  Remove f s' = Return tt s' /\
  inv s'.
Proof.
  intros Hi H. destruct (Evict_inv s _ _ Hi H) as [Hi' Hsz].
  apply Evict_result in H. destruct H as (st & d & l' & Hf & He & Hv & Hs').
  assert (alive_map_ s' = delete f (alive_map_ s)) as Hm
    by (rewrite Hs'; destruct d; reflexivity).
  assert (alive_map_ s' !! f = None) as Hnone by (rewrite Hm; apply lookup_delete_eq).
  split_conj; try assumption.
  - unfold is_evictable. rewrite Hf. exact He.
  - apply lru_victim_perm in Hv. rewrite (resident_all d s). apply elem_of_app. left.
    rewrite Hv. apply elem_of_cons. left. reflexivity.
  - apply inv_not_resident; assumption.
  - rewrite Hs'. destruct d; reflexivity.
  - rewrite Hs'. destruct d; reflexivity.
  - intros v. unfold SetEvictable. rewrite Hnone. eauto.
  - unfold Remove. rewrite Hnone. reflexivity.
Qed.

(** X18: in a state satisfying the invariant, [Evict] returns nothing
    exactly when [Size] is 0, and then it leaves the replacer as it is. *)
Theorem X18_evict_none_iff_size_zero (s : ArcReplacer) :
  inv s ->
  ((Evict s).1 = None <-> (Size s).1 = 0) /\
  ((Evict s).1 = None -> (Evict s).2 = s).
Proof.
  intros Hi. pose proof (inv_size s Hi) as Hs.
  assert (curr_size_ s = 0 <->
          ~ has_evictable (alive_map_ s) (mru_ s) /\
          ~ has_evictable (alive_map_ s) (mfu_ s)) as Hz.
  { rewrite Hs, count_evictable_zero. unfold has_evictable. split.
    - intros Hn. split; intros (g & Hg & He); apply Hn; exists g;
        (split; [apply elem_of_app; auto|exact He]).
    - intros [H1 H2] (g & Hg & He). apply elem_of_app in Hg.
      destruct Hg as [Hg|Hg]; [apply H1|apply H2]; exists g; split; assumption. }
  destruct (Evict s) as [r s'] eqn:E. pose proof (Evict_result s r s' E) as Hr.
  simpl. destruct r as [f|].
  - split; [|discriminate]. split; [discriminate|]. intros H0. exfalso.
    destruct Hr as (st & d & l' & Hf & He & Hv & _).
    apply Hz in H0. destruct H0 as [H1 H2].
    apply lru_victim_has_evictable in Hv. destruct d; simpl in Hv; tauto.
  - destruct Hr as (-> & H1 & H2). split; [|reflexivity].
    split; [intros _; apply Hz; split; assumption|reflexivity].
Qed.

(** X19: [Remove] is idempotent: after a [Remove] that returns, the frame
    is not in [alive_map_], a second [Remove] changes nothing and
    [SetEvictable] on the frame throws. *)
Theorem X19_remove_idempotent (s s' : ArcReplacer) (f : Z) :
  Remove f s = Return tt s' ->
  alive_map_ s' !! f = None /\
  Remove f s' = Return tt s' /\
  (forall v, exists msg, SetEvictable f v s' = Throw msg s').
Proof.
  intros H.
  assert (alive_map_ s' !! f = None) as Hnone.
  { unfold Remove in H. destruct (alive_map_ s !! f) as [st|] eqn:Hf.
    - destruct (evictable_ st); [|discriminate]. injection H as <-.
      destruct (arc_status_ st); simpl; apply lookup_delete_eq.
    - injection H as <-. exact Hf. }
  split; [exact Hnone|]. split.
  - unfold Remove. rewrite Hnone. reflexivity.
  - intros v. unfold SetEvictable. rewrite Hnone. eauto.
Qed.

Lemma RecordAccess_makes_resident s f pg s' :
  inv s -> ghost_entries s -> RecordAccess f pg s = Return tt s' ->
  exists d st l,
    resident d s' = f :: l /\ alive_map_ s' !! f = Some st /\
    arc_status_ st = alive_region d.
Proof.
  intros Hi Hg H.
  assert (forall d s0, exists st l,
            resident d (push_new_frame d f pg s0) = f :: l /\
            alive_map_ (push_new_frame d f pg s0) !! f = Some st /\
            arc_status_ st = alive_region d) as Hpush.
  { intros d s0. destruct d; simpl; rewrite lookup_insert_eq; eauto. }
  unfold RecordAccess in H. destruct (alive_map_ s !! f) as [st|] eqn:Hf.
  - destruct (inv_alive_resident s f st Hi Hf) as (d & Hd & Hin).
    rewrite Hd in H. destruct d; simpl in H; injection H as <-; exists Frequent; simpl.
    + rewrite lookup_insert_eq. eauto.
    + rewrite Hf. eauto.
  - destruct (ghost_map_ s !! pg) as [gs|] eqn:Hgs.
    + destruct (ghost_hit_side s pg gs Hg Hgs) as (_ & d & Hd & _).
      rewrite Hd in H. destruct d; simpl in H;
        (destruct (adapt_delta _ _); [|discriminate]); injection H as <-;
        exists Frequent; apply Hpush.
    + destruct (decide _); [|destruct (decide _)];
        try (destruct (last _); [|discriminate]); injection H as <-;
        exists Recent; apply Hpush.
Qed.

(** X20: two accesses to the same frame in a row leave it at the MRU end of
    T2, whatever it was before and whatever pages the calls name; from then
    on a further access to that frame changes nothing. *)
Theorem X20_repeated_access
  (N : Z) (s s1 s2 : ArcReplacer) (f pg1 pg2 : Z) :
  0 <= N -> 2 * N < SIZE_MODULUS -> reachable N s -> valid_frame f ->
  RecordAccess f pg1 s = Return tt s1 ->
  RecordAccess f pg2 s1 = Return tt s2 ->
  head (mfu_ s2) = Some f /\
  region (alive_map_ s2) f = Some MFU /\
  (forall pg3, RecordAccess f pg3 s2 = Return tt s2).
Proof.
  intros HN0 HN Hr Hvf H1 H2.
  destruct (arc_reachable_inv N s Hr) as [Hi _].
  destruct (arc_reachable_capacity N s HN0 HN Hr) as [_ _ Hg].
  destruct (RecordAccess_makes_resident s f pg1 s1 Hi Hg H1) as (d & st & l & Hl & Hst & Hd).
  assert (exists st2 l2, mfu_ s2 = f :: l2 /\ alive_map_ s2 !! f = Some st2 /\
                         arc_status_ st2 = MFU) as (st2 & l2 & Hl2 & Hst2 & Hd2).
  { unfold RecordAccess in H2. rewrite Hst, Hd in H2.
    destruct d; simpl in H2, Hl; injection H2 as <-; simpl.
    - rewrite lookup_insert_eq. eauto.
    - rewrite Hl. simpl. destruct (decide (f = f)); [|congruence]. rewrite Hst. eauto. }
  split_conj.
  - rewrite Hl2. reflexivity.
  - unfold region. rewrite Hst2. simpl. congruence.
  - intros pg3. unfold RecordAccess. rewrite Hst2, Hd2, Hl2. simpl.
    destruct (decide (f = f)); [|congruence]. rewrite <- Hl2.
    destruct s2; reflexivity.
Qed.

(** *** The properties above at the states of the scenarios *)

Lemma X20_repeated_access_witness :
  0 <= 4 /\ 2 * 4 < SIZE_MODULUS /\ reachable 4 arc_one_frame /\ valid_frame 0 /\
  exists s1 s2,
    RecordAccess 0 100 arc_one_frame = Return tt s1 /\
    RecordAccess 0 7 s1 = Return tt s2 /\
    head (mfu_ s2) = Some 0 /\
    region (alive_map_ s2) 0 = Some MFU /\
    (forall pg3, RecordAccess 0 pg3 s2 = Return tt s2).
Proof.
  assert (0 <= 4 /\ 2 * 4 < SIZE_MODULUS) as [HN0 HN] by (unfold SIZE_MODULUS; lia).
  pose proof arc_one_frame_reachable as Hr.
  assert (valid_frame 0) as Hv by (unfold valid_frame; lia).
  split; [exact HN0|]. split; [exact HN|]. split; [exact Hr|]. split; [exact Hv|].
  eexists. eexists. split; [reflexivity|]. split; [reflexivity|].
  exact (X20_repeated_access 4 arc_one_frame _ _ 0 100 7 HN0 HN Hr Hv eq_refl eq_refl).
Defined.

Lemma size_modulus_capacity (N : Z) : 0 <= N <= 4 -> 0 <= N /\ 2 * N < SIZE_MODULUS.
Proof. unfold SIZE_MODULUS. lia. Qed.

Lemma arc_one_ghost_reachable : reachable 4 arc_one_ghost.
Proof.
  apply (reach_Evict 4 arc_one_frame (Some 0)); [apply arc_one_frame_reachable|reflexivity].
Qed.

Lemma X9_arc_resident_invariant_witness :
  reachable 2 arc_two_frames /\
  NoDup (mru_ arc_two_frames ++ mfu_ arc_two_frames) /\
  (Size arc_two_frames).1
    = count_evictable (alive_map_ arc_two_frames)
                      (mru_ arc_two_frames ++ mfu_ arc_two_frames) /\
  replacer_size_ arc_two_frames = 2.
Proof.
  pose proof arc_two_frames_reachable as Hr. split; [exact Hr|].
  destruct (X9_arc_resident_invariant 2 arc_two_frames Hr)
    as (H1 & _ & _ & _ & H2 & _ & H3).
  split_conj; assumption.
Defined.

Lemma X10_arc_capacity_invariant_witness :
  0 <= 4 /\ 2 * 4 < SIZE_MODULUS /\ reachable 4 arc_one_ghost /\
  lsize (mru_ arc_one_ghost) + lsize (mru_ghost_ arc_one_ghost) <= 4 /\
  lsize (mru_ arc_one_ghost) + lsize (mfu_ arc_one_ghost)
  + lsize (mru_ghost_ arc_one_ghost) + lsize (mfu_ghost_ arc_one_ghost) <= 2 * 4.
Proof.
  destruct (size_modulus_capacity 4 ltac:(lia)) as [HN0 HN].
  pose proof arc_one_ghost_reachable as Hr.
  split; [exact HN0|]. split; [exact HN|]. split; [exact Hr|].
  destruct (X10_arc_capacity_invariant 4 arc_one_ghost HN0 HN Hr) as (H1 & H2 & _).
  split; assumption.
Defined.

Lemma X11_record_access_safe_witness :
  0 <= 4 /\ 2 * 4 < SIZE_MODULUS /\ reachable 4 arc_one_frame /\ valid_frame 1 /\
  (is_Some (alive_map_ arc_one_frame !! 1) \/
   lsize (mru_ arc_one_frame) + lsize (mfu_ arc_one_frame) < 4) /\
  exists s',
    RecordAccess 1 101 arc_one_frame = Return tt s' /\
    ((head (mru_ s') = Some 1 /\ region (alive_map_ s') 1 = Some MRU) \/
     (head (mfu_ s') = Some 1 /\ region (alive_map_ s') 1 = Some MFU)).
Proof.
  destruct (size_modulus_capacity 4 ltac:(lia)) as [HN0 HN].
  pose proof arc_one_frame_reachable as Hr.
  assert (valid_frame 1) as Hv by (unfold valid_frame; lia).
  assert (is_Some (alive_map_ arc_one_frame !! 1) \/
          lsize (mru_ arc_one_frame) + lsize (mfu_ arc_one_frame) < 4) as Hroom.
  { right. unfold lsize. simpl. lia. }
  split; [exact HN0|]. split; [exact HN|]. split; [exact Hr|]. split; [exact Hv|].
  split; [exact Hroom|].
  exact (X11_record_access_safe 4 arc_one_frame 1 101 HN0 HN Hr Hv Hroom).
Defined.

Lemma X12_record_access_new_frame_witness :
  0 <= 4 /\ 2 * 4 < SIZE_MODULUS /\ reachable 4 arc_one_frame /\ valid_frame 1 /\
  alive_map_ arc_one_frame !! 1 = None /\
  exists s',
    RecordAccess 1 101 arc_one_frame = Return tt s' /\
    alive_map_ s' = <[1 := mkStatus 101 1 true MRU]> (alive_map_ arc_one_frame) /\
    mru_ s' = 1 :: mru_ arc_one_frame /\ mfu_ s' = mfu_ arc_one_frame /\
    curr_size_ s' = curr_size_ arc_one_frame + 1.
Proof.
  destruct (size_modulus_capacity 4 ltac:(lia)) as [HN0 HN].
  pose proof arc_one_frame_reachable as Hr.
  assert (valid_frame 1) as Hv by (unfold valid_frame; lia).
  assert (alive_map_ arc_one_frame !! 1 = None) as Hf by reflexivity.
  split; [exact HN0|]. split; [exact HN|]. split; [exact Hr|]. split; [exact Hv|].
  split; [exact Hf|].
  eexists. split; [reflexivity|].
  destruct (X12_record_access_new_frame 4 arc_one_frame _ 1 101 HN0 HN Hr Hv Hf eq_refl)
    as (H1 & H2 & H3 & H4 & _).
  split_conj; [exact H1|exact H2|exact H3|exact H4].
Defined.

Lemma X13_ghost_hit_witness :
  0 <= 4 /\ 2 * 4 < SIZE_MODULUS /\ reachable 4 arc_one_ghost /\
  alive_map_ arc_one_ghost !! 0 = None /\
  ghost_map_ arc_one_ghost !! 100 = Some (mkStatus 100 0 false MRU_GHOST) /\
  exists d delta s',
    MRU_GHOST = ghost_region d /\
    RecordAccess 0 100 arc_one_ghost = Return tt s' /\
    1 <= delta /\
    mru_target_size_ s' =
      wrap_size (mru_target_size_ arc_one_ghost
                 + match d with Recent => delta | Frequent => - delta end) /\
    ghost_map_ s' = delete 100 (ghost_map_ arc_one_ghost).
Proof.
  destruct (size_modulus_capacity 4 ltac:(lia)) as [HN0 HN].
  pose proof arc_one_ghost_reachable as Hr.
  assert (alive_map_ arc_one_ghost !! 0 = None) as Hf by reflexivity.
  assert (ghost_map_ arc_one_ghost !! 100 = Some (mkStatus 100 0 false MRU_GHOST)) as Hg
    by reflexivity.
  split; [exact HN0|]. split; [exact HN|]. split; [exact Hr|]. split; [exact Hf|].
  split; [exact Hg|].
  destruct (X13_ghost_hit 4 arc_one_ghost 0 100 _ HN0 HN Hr Hf Hg)
    as (d & delta & s' & H1 & H2 & _ & H3 & H4 & _ & _ & _ & H5).
  exists d, delta, s'. split_conj; assumption.
Defined.

Lemma X14_miss_trimming_witness :
  0 <= 4 /\ 2 * 4 < SIZE_MODULUS /\ reachable 4 arc_one_frame /\
  alive_map_ arc_one_frame !! 1 = None /\ ghost_map_ arc_one_frame !! 101 = None /\
  exists s',
    RecordAccess 1 101 arc_one_frame = Return tt s' /\
    mru_target_size_ s' = mru_target_size_ arc_one_frame /\
    mru_ghost_ s' = mru_ghost_ arc_one_frame /\
    mfu_ghost_ s' = mfu_ghost_ arc_one_frame /\
    ghost_map_ s' = ghost_map_ arc_one_frame.
Proof.
  destruct (size_modulus_capacity 4 ltac:(lia)) as [HN0 HN].
  pose proof arc_one_frame_reachable as Hr.
  assert (alive_map_ arc_one_frame !! 1 = None) as Hf by reflexivity.
  assert (ghost_map_ arc_one_frame !! 101 = None) as Hg by reflexivity.
  split; [exact HN0|]. split; [exact HN|]. split; [exact Hr|]. split; [exact Hf|].
  split; [exact Hg|].
  eexists. split; [reflexivity|].
  destruct (X14_miss_trimming 4 arc_one_frame _ 1 101 HN0 HN Hr Hf Hg eq_refl) as [H1 H2].
  split; [exact H1|]. exact H2.
Defined.

Lemma X15_set_evictable_idempotent_witness :
  exists s',
    SetEvictable 0 false arc_one_frame = Return tt s' /\
    SetEvictable 0 false s' = Return tt s' /\
    (evictable_ <$> alive_map_ s' !! 0) = Some false.
Proof.
  eexists. split; [reflexivity|].
  exact (X15_set_evictable_idempotent arc_one_frame _ 0 false eq_refl).
Defined.

Lemma X16_pinned_frame_is_not_evicted_witness :
  exists s1 r s2,
    SetEvictable 0 false arc_two_frames = Return tt s1 /\
    Evict s1 = (r, s2) /\
    r <> Some 0 /\
    is_Some (alive_map_ s2 !! 0) /\
    alive_map_ s2 !! 0 = alive_map_ s1 !! 0 /\
    is_evictable (alive_map_ s2) 0 = false.
Proof.
  eexists. eexists. eexists. split; [reflexivity|]. split; [reflexivity|].
  exact (X16_pinned_frame_is_not_evicted arc_two_frames _ _ 0 _ eq_refl eq_refl).
Defined.

Lemma X17_evicted_frame_is_gone_witness :
  inv arc_one_frame /\ Evict arc_one_frame = (Some 0, arc_one_ghost) /\
  alive_map_ arc_one_ghost = delete 0 (alive_map_ arc_one_frame) /\
  (0 ∉ mru_ arc_one_ghost ++ mfu_ arc_one_ghost) /\
  curr_size_ arc_one_ghost = curr_size_ arc_one_frame - 1 /\
  Remove 0 arc_one_ghost = Return tt arc_one_ghost.
Proof.
  assert (inv arc_one_frame) as Hi by apply (arc_reachable_inv 4), arc_one_frame_reachable.
  assert (Evict arc_one_frame = (Some 0, arc_one_ghost)) as HE by reflexivity.
  split; [exact Hi|]. split; [exact HE|].
  destruct (X17_evicted_frame_is_gone arc_one_frame arc_one_ghost 0 Hi HE)
    as (_ & _ & H1 & H2 & H3 & _ & _ & _ & H4 & _).
  split_conj; assumption.
Defined.

Lemma X18_evict_none_iff_size_zero_witness :
  inv arc_one_frame /\
  ((Evict arc_one_frame).1 = None <-> (Size arc_one_frame).1 = 0) /\
  ((Evict arc_one_frame).1 = None -> (Evict arc_one_frame).2 = arc_one_frame).
Proof.
  assert (inv arc_one_frame) as Hi by apply (arc_reachable_inv 4), arc_one_frame_reachable.
  split; [exact Hi|]. exact (X18_evict_none_iff_size_zero arc_one_frame Hi).
Defined.

Lemma X19_remove_idempotent_witness :
  exists s',
    Remove 0 arc_one_frame = Return tt s' /\
    alive_map_ s' !! 0 = None /\
    Remove 0 s' = Return tt s' /\
    (forall v, exists msg, SetEvictable 0 v s' = Throw msg s').
Proof.
  eexists. split; [reflexivity|].
  exact (X19_remove_idempotent arc_one_frame _ 0 eq_refl).
Defined.

End ArcCapacity.

(** ** Callers that name frames of the pool only *)

Section ArcFramesInRange.
Import Arc.







End ArcFramesInRange.

(** ** The point query of the B+ tree *)

Section BPlusTreeFacts.
Import BPlusTree.

Context {KeyType ValueType Page : Type}.
Variable comparator_ : KeyType -> KeyType -> Z.
Variable IsLeafPage : Page -> bool.
Variable GetSize : Page -> Z.
Variable InternalKeyAt : Page -> Z -> KeyType.
Variable InternalValueAt : Page -> Z -> Z.
Variable LeafKeyAt : Page -> Z -> KeyType.
Variable LeafValueAt : Page -> Z -> ValueType.
Variable ReadPage : Z -> Page.
Variable INVALID_PAGE_ID : Z.

Lemma child_scan_seq page key (n : nat) : forall a,
  let r := child_scan comparator_ InternalKeyAt page key (seqZ a (Z.of_nat n)) (a - 1) in
  a - 1 <= r < a + Z.of_nat n /\
  (forall j, a <= j <= r -> ~ comparator_ key (InternalKeyAt page j) < 0) /\
  (r + 1 < a + Z.of_nat n -> comparator_ key (InternalKeyAt page (r + 1)) < 0).
Proof.
  induction n as [|n IH]; intros a r; subst r.
  - rewrite seqZ_nil by lia. simpl. split_conj; intros; lia.
  - rewrite seqZ_cons by lia. simpl.
    replace (Z.pred (Z.of_nat (S n))) with (Z.of_nat n) by lia.
    destruct (decide (comparator_ key (InternalKeyAt page a) < 0)) as [Hlt|Hge].
    + split_conj; try (intros; lia).
      intros _. replace (a - 1 + 1) with a by lia. exact Hlt.
    + specialize (IH (Z.succ a)). simpl in IH.
      replace (Z.succ a - 1) with a in IH by lia.
      destruct IH as (Hb & Hle & Hnext). split_conj; try lia.
      intros j Hj. destruct (decide (j = a)) as [->|]; [exact Hge|]. apply Hle. lia.
Qed.

(** X21: the child [GetValue] takes in an internal page of [size] entries:
    its index is in [0, size) (0 for a page of at most one entry), no key at
    the positions 1 to index is greater than the key looked up, and the key
    at the next position, when there is one, is greater.  So the index is
    the position [i] with KEY(i) <= key < KEY(i+1) the comment announces. *)
Theorem X21_child_index (page : Page) (key : KeyType) :
  let index := child_index comparator_ GetSize InternalKeyAt page key in
  0 <= index /\ index <= Z.max 0 (GetSize page - 1) /\
  (forall j, 1 <= j <= index -> comparator_ key (InternalKeyAt page j) >= 0) /\
  (index + 1 < GetSize page ->
   comparator_ key (InternalKeyAt page (index + 1)) < 0).
Proof.
  intros index. unfold child_index in index.
  destruct (decide (GetSize page - 1 <= 0)) as [Hsmall|Hbig].
  - subst index. rewrite seqZ_nil by lia. simpl. split_conj; intros; lia.
  - pose proof (child_scan_seq page key (Z.to_nat (GetSize page - 1)) 1) as H.
    simpl in H. rewrite Z2Nat.id in H by lia.
    replace (1 - 1) with 0 in H by lia. fold index in H.
    destruct H as (Hb & Hle & Hnext). split_conj; try lia.
    intros j Hj. specialize (Hle j Hj). lia.
Qed.

Lemma leaf_scan_seq page key (n : nat) : forall a,
  match leaf_scan comparator_ LeafKeyAt LeafValueAt page key (seqZ a (Z.of_nat n)) with
  | Some v =>
      exists i, a <= i < a + Z.of_nat n /\
                comparator_ (LeafKeyAt page i) key = 0 /\ v = LeafValueAt page i /\
                forall j, a <= j < i -> comparator_ (LeafKeyAt page j) key <> 0
  | None => forall j, a <= j < a + Z.of_nat n -> comparator_ (LeafKeyAt page j) key <> 0
  end.
Proof.
  induction n as [|n IH]; intros a.
  - rewrite seqZ_nil by lia. simpl. intros j Hj. lia.
  - rewrite seqZ_cons by lia. simpl.
    replace (Z.pred (Z.of_nat (S n))) with (Z.of_nat n) by lia.
    destruct (decide (comparator_ (LeafKeyAt page a) key = 0)) as [He|Hne].
    + exists a. split_conj; try (intros; lia); try reflexivity; try assumption.
    + specialize (IH (Z.succ a)).
      destruct (leaf_scan comparator_ LeafKeyAt LeafValueAt page key
                          (seqZ (Z.succ a) (Z.of_nat n))) as [v|].
      * destruct IH as (i & Hi & He & Hv & Hfirst). exists i.
        split_conj; try lia; try assumption.
        intros j Hj. destruct (decide (j = a)) as [->|]; [exact Hne|]. apply Hfirst. lia.
      * intros j Hj. destruct (decide (j = a)) as [->|]; [exact Hne|]. apply IH. lia.
Qed.

Lemma leaf_lookup_spec page key :
  match leaf_lookup comparator_ GetSize LeafKeyAt LeafValueAt page key with
  | Some v =>
      exists i, 0 <= i < GetSize page /\
                comparator_ (LeafKeyAt page i) key = 0 /\ v = LeafValueAt page i /\
                forall j, 0 <= j < i -> comparator_ (LeafKeyAt page j) key <> 0
  | None => forall j, 0 <= j < GetSize page -> comparator_ (LeafKeyAt page j) key <> 0
  end.
Proof.
  unfold leaf_lookup. destruct (decide (GetSize page <= 0)) as [Hsmall|Hbig].
  - rewrite seqZ_nil by lia. simpl. intros j Hj. lia.
  - pose proof (leaf_scan_seq page key (Z.to_nat (GetSize page)) 0) as H.
    rewrite Z2Nat.id in H by lia.
    destruct (leaf_scan _ _ _ _ _ _) as [v|].
    + destruct H as (i & Hi & He & Hv & Hfirst). exists i.
      split_conj; try lia; try assumption.
    + intros j Hj. apply H. lia.
Qed.

Lemma descend_more_fuel fuel : forall key page leaf k,
  descend comparator_ IsLeafPage GetSize InternalKeyAt InternalValueAt ReadPage
          fuel key page = Some leaf ->
  descend comparator_ IsLeafPage GetSize InternalKeyAt InternalValueAt ReadPage
          (fuel + k) key page = Some leaf.
Proof.
  induction fuel as [|fuel IH]; intros key page leaf k H.
  - simpl in H. destruct k; simpl; destruct (IsLeafPage page); congruence.
  - simpl in H |- *. destruct (IsLeafPage page); [exact H|]. apply IH. exact H.
Qed.

(** X22: what [GetValue] answers.  On an empty tree it returns false and
    leaves [result].  Otherwise, once it returns, it has reached a leaf page;
    it returns true exactly when a key of that leaf compares equal to the key
    looked up, and then appends to [result] the value stored with the first
    such key, and nothing else; when it returns false [result] is as before.
    The answer is the same for every larger bound on the descent. *)
Theorem X22_get_value (fuel : nat) (root : Z) (key : KeyType)
        (result : list ValueType) :
  let get := GetValue comparator_ IsLeafPage GetSize InternalKeyAt InternalValueAt
                      LeafKeyAt LeafValueAt ReadPage INVALID_PAGE_ID in
  (IsEmpty INVALID_PAGE_ID root = true -> get fuel root key result = Some (false, result)) /\
  (forall b result',
     get fuel root key result = Some (b, result') ->
     (forall k, get (fuel + k)%nat root key result = Some (b, result')) /\
     (IsEmpty INVALID_PAGE_ID root = true -> b = false) /\
     (IsEmpty INVALID_PAGE_ID root = false ->
      exists leaf,
        IsLeafPage leaf = true /\
        descend comparator_ IsLeafPage GetSize InternalKeyAt InternalValueAt ReadPage
                fuel key (ReadPage root) = Some leaf /\
        if b then
          exists i, 0 <= i < GetSize leaf /\
                    comparator_ (LeafKeyAt leaf i) key = 0 /\
                    (forall j, 0 <= j < i -> comparator_ (LeafKeyAt leaf j) key <> 0) /\
                    result' = result ++ [LeafValueAt leaf i]
        else
          (forall j, 0 <= j < GetSize leaf -> comparator_ (LeafKeyAt leaf j) key <> 0) /\
          result' = result)).
Proof.
  intros get. subst get. unfold GetValue, IsEmpty. split.
  - intros He. apply bool_decide_eq_true in He.
    destruct (decide (root = INVALID_PAGE_ID)); [reflexivity|contradiction].
  - intros b result' H. destruct (decide (root = INVALID_PAGE_ID)) as [He|Hne].
    + injection H as <- <-. split; [reflexivity|]. split; [reflexivity|].
      intros Hf. apply bool_decide_eq_false in Hf. contradiction.
    + destruct (descend _ _ _ _ _ _ fuel key (ReadPage root)) as [leaf|] eqn:Hd;
        [|discriminate].
      split; [|split].
      * intros k. rewrite (descend_more_fuel _ _ _ _ k Hd). exact H.
      * intros He. apply bool_decide_eq_true in He. contradiction.
      * intros _. exists leaf. split.
        { clear H. revert Hd. generalize (ReadPage root). induction fuel as [|fuel IH];
            intros page Hd; simpl in Hd; destruct (IsLeafPage page) eqn:Hl;
            try discriminate; try (injection Hd as <-; exact Hl).
          eapply IH. exact Hd. }
        split; [reflexivity|].
        pose proof (leaf_lookup_spec leaf key) as Hspec.
        destruct (leaf_lookup _ _ _ _ leaf key) as [v|]; injection H as <- <-.
        -- destruct Hspec as (i & Hi & Hcmp & -> & Hfirst). exists i.
           split; [exact Hi|]. split_conj; try assumption; reflexivity.
        -- split; [exact Hspec|reflexivity].
Qed.

Lemma descend_height (height : Page -> nat) (key : KeyType) :
  (forall page_id,
     IsLeafPage (ReadPage page_id) = false ->
     (height (ReadPage (InternalValueAt (ReadPage page_id)
                (child_index comparator_ GetSize InternalKeyAt (ReadPage page_id) key)))
      < height (ReadPage page_id))%nat) ->
  forall fuel page_id,
    (height (ReadPage page_id) <= fuel)%nat ->
    exists leaf,
      descend comparator_ IsLeafPage GetSize InternalKeyAt InternalValueAt ReadPage
              fuel key (ReadPage page_id) = Some leaf /\
      IsLeafPage leaf = true.
Proof.
  intros Hdown. induction fuel as [|fuel IH]; intros page_id Hh; simpl;
    destruct (IsLeafPage (ReadPage page_id)) eqn:Hl;
    try (exists (ReadPage page_id); split; [reflexivity|exact Hl]).
  - specialize (Hdown page_id Hl). lia.
  - apply IH. specialize (Hdown page_id Hl). lia.
Qed.

(** X23: [GetValue] returns.  When the pages have a height that goes down
    from an internal page to the child the descent takes for the key, the
    loop over the internal pages ends at a leaf after at most as many steps
    as the root is high, and [GetValue] gives its answer. *)
Theorem X23_get_value_returns (height : Page -> nat) (fuel : nat) (root : Z)
        (key : KeyType) (result : list ValueType) :
  (forall page_id,
     IsLeafPage (ReadPage page_id) = false ->
     (height (ReadPage (InternalValueAt (ReadPage page_id)
                (child_index comparator_ GetSize InternalKeyAt (ReadPage page_id) key)))
      < height (ReadPage page_id))%nat) ->
  (height (ReadPage root) <= fuel)%nat ->
  exists b result',
    GetValue comparator_ IsLeafPage GetSize InternalKeyAt InternalValueAt
             LeafKeyAt LeafValueAt ReadPage INVALID_PAGE_ID fuel root key result
      = Some (b, result') /\
    (root <> INVALID_PAGE_ID ->
     exists leaf,
       descend comparator_ IsLeafPage GetSize InternalKeyAt InternalValueAt ReadPage
               (height (ReadPage root)) key (ReadPage root) = Some leaf /\
       IsLeafPage leaf = true).
Proof.
  intros Hdown Hfuel. unfold GetValue.
  destruct (decide (root = INVALID_PAGE_ID)) as [He|Hne].
  - exists false, result. split; [reflexivity|]. intros Hc. contradiction.
  - destruct (descend_height height key Hdown _ root (le_n _)) as (leaf & Hd & Hl).
    pose proof (descend_more_fuel _ _ _ _ (fuel - height (ReadPage root)) Hd) as Hd'.
    replace (height (ReadPage root) + (fuel - height (ReadPage root)))%nat
      with fuel in Hd' by lia.
    rewrite Hd'.
    destruct (leaf_lookup _ _ _ _ leaf key) as [v|].
    + exists true, (result ++ [v]). split; [reflexivity|]. intros _. exists leaf. auto.
    + exists false, result. split; [reflexivity|]. intros _. exists leaf. auto.
Qed.

End BPlusTreeFacts.

Lemma sample_height_goes_down (key : Z) (page_id : Z) :
  sample_is_leaf (sample_read page_id) = false ->
  (sample_height (sample_read (sample_child_at (sample_read page_id)
       (BPlusTree.child_index sample_compare sample_size sample_key_at
          (sample_read page_id) key)))
   < sample_height (sample_read page_id))%nat.
Proof.
  intros Hl. destruct (decide (page_id = 1)) as [->|Hne].
  - change (sample_read 1) with (SampleInternal [0; 10; 20] [2; 3; 4]).
    unfold BPlusTree.child_index.
    change (seqZ 1 (sample_size (SampleInternal [0; 10; 20] [2; 3; 4]) - 1))
      with [1; 2].
    simpl BPlusTree.child_scan.
    destruct (decide (sample_compare key 10 < 0));
      [|destruct (decide (sample_compare key 20 < 0))]; vm_compute; lia.
  - unfold sample_read in Hl. rewrite decide_False in Hl by exact Hne.
    repeat destruct (decide _); simpl in Hl; discriminate.
Qed.

Lemma X23_get_value_returns_witness :
  (sample_height (sample_read 1) <= 4)%nat /\
  exists b result',
    BPlusTree.GetValue sample_compare sample_is_leaf sample_size sample_key_at
      sample_child_at sample_key_at sample_value_at sample_read (-1) 4 1 15 []
      = Some (b, result') /\
    (1 <> -1 ->
     exists leaf,
       BPlusTree.descend sample_compare sample_is_leaf sample_size sample_key_at
         sample_child_at sample_read (sample_height (sample_read 1)) 15 (sample_read 1)
         = Some leaf /\
       sample_is_leaf leaf = true).
Proof.
  assert (sample_height (sample_read 1) <= 4)%nat as Hf by (vm_compute; lia).
  split; [exact Hf|].
  exact (X23_get_value_returns sample_compare sample_is_leaf sample_size
           sample_key_at sample_child_at sample_key_at sample_value_at
           sample_read (-1) sample_height 4 1 15 []
           (sample_height_goes_down 15) Hf).
Defined.

(** ** Scenarios *)

Section Scenarios.
Import Arc.

(** CLOCK, three pages: after [Unpin] of 0, 1, 2 the unbounded loop returns
    frame 0 within two rotations. *)
Example clock_three_frames :
  Clock.Unpin 0 (Clock.new 3)
    = Clock.Return tt (Clock.mkClock 3 0 [true; false; false] [true; false; false] 1) /\
  Clock.Loop.Victim 6 clock_three_unpinned
    = Clock.Return (Some 0)
        (Clock.mkClock 3 1 [false; false; false] [false; true; true] 2).
Proof. vm_compute. split; reflexivity. Qed.

(** ARC, N = 4: four misses fill T1 in MRU-first order, [Evict] returns
    frame 0 and moves page 100 to B1; the access (0, 100) then hits B1, takes
    the target to 1 and puts frame 0 in T2. *)
Example arc_miss_sequence_and_promotion :
  match do_calls [CallRecordAccess 0 100; CallRecordAccess 1 101;
                  CallRecordAccess 2 102; CallRecordAccess 3 103] (new 4) with
  | Return _ s =>
      mru_ s = [3; 2; 1; 0] /\ curr_size_ s = 4 /\ mru_target_size_ s = 0 /\
      (Evict s).1 = Some 0 /\ mru_ghost_ (Evict s).2 = [100] /\
      match RecordAccess 0 100 (Evict s).2 with
      | Return _ s' =>
          mru_ s' = [3; 2; 1] /\ mfu_ s' = [0] /\ mru_ghost_ s' = [] /\
          mru_target_size_ s' = 1 /\ curr_size_ s' = 4
      | _ => False
      end
  | _ => False
  end.
Proof. vm_compute. split_conj; reflexivity. Qed.

(** ARC, N = 2: the second access to frame 0 moves it from T1 to T2. *)
Example arc_second_hit :
  match do_calls [CallRecordAccess 0 10; CallRecordAccess 1 11;
                  CallRecordAccess 0 10] (new 2) with
  | Return _ s => mru_ s = [1] /\ mfu_ s = [0]
  | _ => False
  end.
Proof. vm_compute. split; reflexivity. Qed.

(** ARC, N = 2: a frame that is not evictable is passed over by [Evict]. *)
Example arc_pinned_frame_is_kept :
  match do_calls [CallRecordAccess 0 10; CallRecordAccess 1 11;
                  CallSetEvictable 0 false] (new 2) with
  | Return _ s =>
      (Evict s).1 = Some 1 /\ (Evict (Evict s).2).1 = None /\
      exists msg, Remove 0 s = Throw msg s
  | _ => False
  end.
Proof. vm_compute. split_conj; try reflexivity. eexists. reflexivity. Qed.

(** The point query on the sample tree: keys in each of the three leaves,
    keys that are absent, and the empty tree. *)
Example bplustree_point_queries :
  sample_get 1 5 = Some (true, [500]) /\
  sample_get 1 10 = Some (true, [1000]) /\
  sample_get 1 15 = Some (true, [1500]) /\
  sample_get 1 20 = Some (true, [2000]) /\
  sample_get 1 12 = Some (false, []) /\
  sample_get 1 25 = Some (false, []) /\
  sample_get (-1) 5 = Some (false, []) /\
  BPlusTree.child_index sample_compare sample_size sample_key_at (sample_read 1) 15 = 1.
Proof. vm_compute. split_conj; reflexivity. Qed.

End Scenarios.
